(** * where-did-I-park: the sensor, timer and formatting logic, verified

    A shallow embedding of the TypeScript sources

      - [src/lib/geo.ts]      ([formatDistance]),
      - [src/lib/compass.ts]  ([startCompass] and its event handler, and the
                              countdown functions [startCountdown],
                              [readCountdown], [formatMMSS] that [App.tsx]
                              imports from [./lib/timer]),
      - [src/App.tsx]         ([arrowRotation], [getBestPosition]),

    followed by the properties the specification states about them.  The
    embedding goes on with [haversine] and [bearingFromTo] of
    [src/lib/geo.ts], [requestOrientationPermissionIfNeeded] of
    [src/lib/compass.ts] and, of [src/App.tsx], the meter ([startMeter],
    [clearMeter], the ticker and the effect on the timer), the compass
    switch ([enableCompass], [disableCompass]), [bearing], the status of
    [onParkHere] and the effect that watches the live position; their
    properties come after those of the specification.

    Modelling conventions.

      - A JavaScript number that the code only compares, rounds or prints is
        an exact rational ([Q]); the epoch clock [Date.now()] and the
        quantities derived from it are integers ([Z]).  The quotients that
        [formatDistance] and [formatMMSS] print are rounded to the nearest
        double as JavaScript rounds them ([Js.fl]); elsewhere the rounding
        error of [+], [-] and [*] is not modelled.
      - Numbers print as JavaScript prints them: plain decimal digits below
        10^21, exponent notation from there on, and from 2^53 on the
        shortest digits that identify the double.
      - Where the code tests a value for being a number and for [NaN]
        (the orientation handler), numbers carry [NaN] and the two
        infinities ([Js.num]) and fields are dynamically typed ([Js.value]).
      - [Date.now()] is an explicit argument: one argument per read.
      - Callbacks and promises are explicit state machines: one transition
        per callback invocation, the callbacks of a call ordered in a list
        of events.
      - The component is a state machine as well: a handler runs to its
        end, the component is rendered, and an effect runs after a render
        in which one of its dependencies has changed.
      - The trigonometric functions of [src/lib/geo.ts] are those of the
        real numbers. *)

From Stdlib Require Import ZArith QArith Qround Qabs Qpower Lia Lqa Bool List.
From Stdlib Require Import Ascii String.
From Stdlib Require Reals Lra.
Import ListNotations.

Local Open Scope Z_scope.

(** ** JavaScript built-ins used by the sources *)

Module Js.

(** *** Numbers with [NaN] and infinities *)

Inductive num : Type :=
| Fin (q : Q)
| NaN
| PosInf
| NegInf.

(** Dynamically typed field values, as far as [typeof] tells them apart. *)
Inductive value : Type :=
| VUndefined
| VNull
| VBool (b : bool)
| VStr (s : string)
| VNum (n : num).

(** [Number.isNaN] *)
Definition isNaN (n : num) : bool :=
  match n with NaN => true | _ => false end.

(** [Number.isFinite] *)
Definition isFinite (n : num) : bool :=
  match n with Fin _ => true | _ => false end.

(** [a + b] *)
Definition add (a b : num) : num :=
  match a, b with
  | NaN, _ | _, NaN => NaN
  | Fin x, Fin y => Fin (Qred (x + y))
  | PosInf, NegInf | NegInf, PosInf => NaN
  | PosInf, _ | _, PosInf => PosInf
  | NegInf, _ | _, NegInf => NegInf
  end.

(** [a - b] *)
Definition sub (a b : num) : num :=
  match a, b with
  | NaN, _ | _, NaN => NaN
  | Fin x, Fin y => Fin (Qred (x - y))
  | PosInf, PosInf | NegInf, NegInf => NaN
  | PosInf, _ | _, NegInf => PosInf
  | NegInf, _ | _, PosInf => NegInf
  end.

(** Truncation toward zero, the quotient that [%] uses. *)
Definition Qtrunc (x : Q) : Z :=
  if Qle_bool 0 x then Qfloor x else Qceiling x.

(** [x % y] on finite operands, [y] not zero: the result has the sign of
    the dividend. *)
Definition Qrem (x y : Q) : Q :=
  Qred (x - y * inject_Z (Qtrunc (x / y))).

(** [a % b] *)
Definition rem (a b : num) : num :=
  match a, b with
  | NaN, _ | _, NaN => NaN
  | PosInf, _ | NegInf, _ => NaN
  | Fin x, PosInf | Fin x, NegInf => Fin x
  | Fin x, Fin y => if Qeq_bool y 0 then NaN else Fin (Qrem x y)
  end.

(** *** Rounding *)

(** [Math.round]: nearest integer, a tie goes toward +infinity. *)
Definition mathRound (x : Q) : Z := Qfloor (x + (1 # 2)).

(** [Math.ceil] *)
Definition mathCeil (x : Q) : Z := Qceiling x.

(** [Math.floor] *)
Definition mathFloor (x : Q) : Z := Qfloor x.

(** *** Doubles

    A finite double is a rational number [m * 2^e] with [|m| < 2^53] and
    [-1074 <= e].  The result of a division is the double nearest to the
    exact quotient, the one with the even [m] when two are equally near.
    Overflow is left out: the quotient of a double by 1000 or by 60 is
    never too large for a double. *)

Definition pow2 (z : Z) : Q := Qpower 2 z.

(** The binary exponent of a positive rational: the [e] with
    [2^e <= q < 2^(e+1)]. *)
Definition ilog2 (q : Q) : Z :=
  let d := Z.log2 (Qnum q) - Z.log2 (Zpos (Qden q)) in
  if Qle_bool (pow2 d) q then d else d - 1.

(** The nearest integer; of two that are equally near, the even one. *)
Definition roundHalfEven (q : Q) : Z :=
  let f := Qfloor q in
  match Qcompare (q - inject_Z f) (1 # 2) with
  | Lt => f
  | Gt => f + 1
  | Eq => if Z.even f then f else f + 1
  end.

(** The double nearest to [q]: [q] is rounded to a multiple of the unit in
    the last place of its binade, [2^(e-52)], and of [2^(-1074)] below the
    normal range. *)
Definition fl (q : Q) : Q :=
  let q := Qred q in
  let a := Qabs q in
  if Qeq_bool a 0 then 0%Q
  else
    let e := Z.max (ilog2 a) (-1022) - 52 in
    let r := Qred (inject_Z (roundHalfEven (a / pow2 e)) * pow2 e) in
    if Qle_bool 0 q then r else Qopp r.

(** *** Strings *)

Definition digitChar (d : Z) : ascii :=
  ascii_of_nat (48 + Z.to_nat d).

(** The decimal digits of a non-negative integer, most significant first;
    one recursive call per digit. *)
Fixpoint digitsFuel (fuel : nat) (n : Z) : string :=
  match fuel with
  | O => EmptyString
  | S f =>
      if n <? 10 then String (digitChar n) EmptyString
      else digitsFuel f (n / 10) ++ String (digitChar (n mod 10)) EmptyString
  end.

Definition digits (n : Z) : string :=
  digitsFuel (S (Z.to_nat (Z.log2 n))) n.

Fixpoint repeatChar (c : ascii) (k : nat) : string :=
  match k with
  | O => EmptyString
  | S k' => String c (repeatChar c k')
  end.

(** [s.padStart(targetLength, c)] for a one-character filler: the filler
    is repeated in front of [s] up to [targetLength]; a string that is
    already that long is returned as it is. *)
Definition padStart (targetLength : nat) (c : ascii) (s : string) : string :=
  repeatChar c (targetLength - String.length s) ++ s.

(** [x < y] on finite numbers *)
Definition Qlt_bool (x y : Q) : bool := negb (Qle_bool y x).

(** The decimal value whose digits [Number::toString] prints for a double
    [n] that is an integer.  Below 2^53 every integer is a double and the
    value is [n] itself.  From 2^53 on it is the integer with the fewest
    significant digits among those that convert to [n], which are the ones
    nearer to [n] than to the next double on either side, the midpoints
    included when the last bit of [n] is zero; of several with that many
    digits it is the one nearest to [n], and the even one of two equally
    near. *)
Definition ulp (n : Z) : Z := 2 ^ (Z.log2 n - 52).

(** Whether the integer [c] converts to the double [n], [n >= 2^53].  The
    midpoints are compared after multiplication by four: below a power of
    two the doubles are half as far apart. *)
Definition convertsTo (n c : Z) : bool :=
  let u := ulp n in
  let below := if n =? 2 ^ Z.log2 n then u else 2 * u in
  let lo := 4 * n - below in
  let hi := 4 * n + 2 * u in
  if Z.even (n / u) then (lo <=? 4 * c) && (4 * c <=? hi)
  else (lo <? 4 * c) && (4 * c <? hi).

(** The multiples of [10^p] next to [n], for [p] from the given one down:
    the first that converts to [n] has the fewest significant digits. *)
Fixpoint shortestFrom (p : nat) (n : Z) : Z :=
  match p with
  | O => n
  | S p' =>
      let t := 10 ^ Z.of_nat p in
      let lo := n / t * t in
      let hi := lo + t in
      match convertsTo n lo, convertsTo n hi with
      | true, true =>
          if n - lo <? hi - n then lo
          else if hi - n <? n - lo then hi
          else if Z.even (lo / t) then lo else hi
      | true, false => lo
      | false, true => hi
      | false, false => shortestFrom p' n
      end
  end.

Definition shortest (n : Z) : Z :=
  if n <? 2 ^ 53 then n else shortestFrom (S (Z.to_nat (Z.log2 n))) n.

(** Exponent notation for an integer: its significant digits d1 d2 ... dk
    (the digits without the trailing zeros) as d1.d2...dk, then "e+" and
    the decimal exponent. *)
Fixpoint stripTrailingZeros (s : string) : string :=
  match s with
  | EmptyString => EmptyString
  | String c s' =>
      match stripTrailingZeros s' with
      | EmptyString => if Ascii.eqb c "0" then EmptyString else String c EmptyString
      | t => String c t
      end
  end.

Definition exponentNotation (n : Z) : string :=
  let ds := digits n in
  let e := digits (Z.of_nat (String.length ds) - 1) in
  match stripTrailingZeros ds with
  | EmptyString => ds
  | String c EmptyString => String c ("e+" ++ e)
  | String c rest => String c ("." ++ rest ++ "e+" ++ e)
  end.

(** [String(n)] / [n.toString()] for a double [n] that is an integer:
    plain digits below 10^21, exponent notation from there on. *)
Definition toStringInt (n : Z) : string :=
  let sign := if n <? 0 then String "-" EmptyString else EmptyString in
  let c := shortest (Z.abs n) in
  if 10 ^ 21 <=? c then sign ++ exponentNotation c
  else sign ++ digits c.

(** [x.toFixed(f)] for a double [x] (ECMAScript,
    Number.prototype.toFixed): the sign is split off; a magnitude of 10^21
    or more is printed as [Number::toString] prints it (a double that large
    is an integer); otherwise the magnitude is scaled by 10^f and rounded
    to the nearest integer [n] (the larger one on a tie), the digits of [n]
    are padded with zeros to at least f+1 characters and the point is put
    before the last f of them. *)
Definition toFixed (f : nat) (x : Q) : string :=
  let sign := if Qle_bool 0 x then EmptyString else String "-" EmptyString in
  let x := Qabs x in
  if Qle_bool (inject_Z (10 ^ 21)) x then sign ++ toStringInt (Qfloor x)
  else
    let n := Qfloor (x * inject_Z (10 ^ Z.of_nat f) + (1 # 2)) in
    let m := digits n in
    if Nat.eqb f 0 then sign ++ m
    else
      let m := padStart (S f) "0" m in
      let k := String.length m in
      sign ++ substring 0 (k - f) m ++ String "." (substring (k - f) f m).

End Js.


(** ** src/lib/geo.ts *)

Module Geo.

(** [formatDistance(meters)] *)
Definition formatDistance (meters : Q) : string :=
  if Js.Qlt_bool meters 1000
  then Js.toStringInt (Js.mathRound meters) ++ " m"
  else Js.toFixed 2 (Js.fl (meters / 1000)) ++ " km".

End Geo.

(** ** src/lib/compass.ts *)

Module Compass.

Import Js.

(** [HeadingState]; the optional [error] is [None] when the field is
    left out of the object literal. *)
Record HeadingState : Type := mkHeadingState {
  heading : option num;
  permissionNeeded : bool;
  error : option string
}.

(** The two fields of a [DeviceOrientationEvent] that the handler reads. *)
Record OrientationEvent : Type := mkOrientationEvent {
  webkitCompassHeading : value;
  alpha : value
}.

(** [typeof v === "number" && !Number.isNaN(v)], with the number. *)
Definition numberNotNaN (v : value) : option num :=
  match v with
  | VNum n => if isNaN n then None else Some n
  | _ => None
  end.

(** The argument the handler passes to [onUpdate] for an event. *)
Definition reading (ev : OrientationEvent) : HeadingState :=
  match numberNotNaN (webkitCompassHeading ev) with
  | Some iosHeading => mkHeadingState (Some iosHeading) false None
  | None =>
      match numberNotNaN (alpha ev) with
      | Some a =>
          let heading := rem (sub (Fin 360) a) (Fin 360) in
          mkHeadingState (Some heading) false None
      | None => mkHeadingState None false (Some "No heading data"%string)
      end
  end.

(** The state one call of [startCompass] creates: the closure variable
    [active], whether [handler] is registered on [window], and the calls
    of [onUpdate] made so far, oldest first. *)
Record Listener : Type := mkListener {
  active : bool;
  registered : bool;
  updates : list HeadingState
}.

(** [startCompass(onUpdate)] up to its [return]. *)
Definition startCompass : Listener := mkListener true true [].

(** One run of [handler(ev)]. *)
Definition handler (ev : OrientationEvent) (l : Listener) : Listener :=
  if negb (active l) then l
  else mkListener (active l) (registered l) (updates l ++ [reading ev]).

(** The function [startCompass] returns. *)
Definition stop (l : Listener) : Listener :=
  mkListener false false (updates l).

(** What can happen to a listener: the window dispatches an event (which
    reaches [handler] only while it is registered), an event that was
    dispatched before the removal reaches [handler] all the same, or the
    stop function is called. *)
Inductive action : Type :=
| Dispatch (ev : OrientationEvent)
| InFlight (ev : OrientationEvent)
| Stop.

Definition step (l : Listener) (a : action) : Listener :=
  match a with
  | Dispatch ev => if registered l then handler ev l else l
  | InFlight ev => handler ev l
  | Stop => stop l
  end.

Definition run (l : Listener) (acts : list action) : Listener :=
  fold_left step acts l.

End Compass.

(** ** The countdown functions ([./lib/timer]) *)

Module Timer.

Record Countdown : Type := mkCountdown {
  endsAt : option Z;
  remainingMs : Z
}.

(** [startCountdown(minutes)]; [now1] and [now2] are the values of its two
    [Date.now()] reads, in program order. *)
Definition startCountdown (now1 now2 : Z) (minutes : Q) : Countdown :=
  let endsAt := now1 + Z.max 1 (Js.mathRound (minutes * 60000)) in
  mkCountdown (Some endsAt) (endsAt - now2).

(** Truthiness of [c.endsAt]: [null] and [0] are falsy. *)
Definition truthy (e : option Z) : bool :=
  match e with
  | None => false
  | Some z => negb (z =? 0)
  end.

(** [readCountdown(c)] with [now] the value of [Date.now()]. *)
Definition readCountdown (now : Z) (c : Countdown) : Countdown :=
  if negb (truthy (endsAt c)) then mkCountdown None 0
  else
    match endsAt c with
    | Some e => mkCountdown (Some e) (Z.max 0 (e - now))
    | None => mkCountdown None 0
    end.

(** [formatMMSS(ms)] *)
Definition formatMMSS (ms : Q) : string :=
  let s := Js.mathCeil (Js.fl (ms / 1000)) in
  let mm :=
    Js.padStart 2 "0"
      (Js.toStringInt (Js.mathFloor (Js.fl (inject_Z s / 60)))) in
  let ss := Js.padStart 2 "0" (Js.toStringInt (Z.rem s 60)) in
  mm ++ ":" ++ ss.

End Timer.

(** ** src/App.tsx *)

Module App.

Import Js.

(** *** The meter timer as the component uses it

    The effect on [timer] returns at once while [timer.endsAt] is falsy,
    raises the alert when [timer.remainingMs <= 0], and otherwise lets the
    ticker run. *)
Inductive phase : Type := Idle | Running | Expired.

Definition phaseOf (t : Timer.Countdown) : phase :=
  if negb (Timer.truthy (Timer.endsAt t)) then Idle
  else if Timer.remainingMs t <=? 0 then Expired
  else Running.

(** *** [arrowRotation]

    [bearing] is [Math.round(...)] or [null]; [heading] is the last
    [HeadingState.heading] or [null]. *)
Definition arrowRotation (bearing : option Z) (heading : option num) : num :=
  match bearing with
  | None => Fin 0
  | Some bearing =>
      match heading with
      | None => Fin (inject_Z bearing)
      | Some heading =>
          rem (add (sub (Fin (inject_Z bearing)) heading) (Fin 360)) (Fin 360)
      end
  end.

(** *** [getBestPosition] *)

Record GeolocationCoordinates : Type := mkCoords {
  latitude : Q;
  longitude : Q;
  accuracy : option Q
}.

Record GeolocationPosition : Type := mkPosition {
  coords : GeolocationCoordinates;
  timestamp : Z
}.

Record GeolocationPositionError : Type := mkPositionError {
  code : Z;
  message : string
}.

(** What the promise is rejected with: [new Error(msg)] or the error
    object of the watch. *)
Inductive rejection : Type :=
| JsError (msg : string)
| WatchError (err : GeolocationPositionError).

Inductive promise : Type :=
| Pending
| Resolved (pos : GeolocationPosition)
| Rejected (r : rejection).

(** [resolve] and [reject] settle a pending promise and do nothing to a
    settled one. *)
Definition settle (p outcome : promise) : promise :=
  match p with
  | Pending => outcome
  | _ => p
  end.

Record Options : Type := mkOptions {
  maxWaitMs : Z;
  desiredAccuracyM : Q
}.

Definition defaultOptions : Options := mkOptions 12000 25.

(** The variables of one call: [best], whether the watch [id] is still
    installed, and the promise that the call returned. *)
Record Acquisition : Type := mkAcquisition {
  best : option GeolocationPosition;
  watching : bool;
  result : promise
}.

(** [pos.coords.accuracy ?? 99999] *)
Definition accuracyOf (pos : GeolocationPosition) : Q :=
  match accuracy (coords pos) with
  | Some a => a
  | None => 99999
  end.

(** The success callback; [now] is the value of its [Date.now()]. *)
Definition onPosition (o : Options) (start now : Z)
    (pos : GeolocationPosition) (a : Acquisition) : Acquisition :=
  let acc := accuracyOf pos in
  let best :=
    match best a with
    | None => Some pos
    | Some b => if Qlt_bool acc (accuracyOf b) then Some pos else Some b
    end in
  if Qle_bool acc (desiredAccuracyM o) then
    mkAcquisition best false (settle (result a) (Resolved pos))
  else if maxWaitMs o <? now - start then
    mkAcquisition best false
      (settle (result a)
         (Resolved match best with Some b => b | None => pos end))
  else mkAcquisition best (watching a) (result a).

(** The error callback. *)
Definition onError (err : GeolocationPositionError) (a : Acquisition)
    : Acquisition :=
  mkAcquisition (best a) false (settle (result a) (Rejected (WatchError err))).

(** What the platform does with the watch, at clock value [now]: it reports
    a position or an error.  The success callback reads the clock, the error
    callback does not.  Between two events no code of the call runs: the
    call sets no timer. *)
Inductive event : Type :=
| Position (now : Z) (pos : GeolocationPosition)
| Failure (now : Z) (err : GeolocationPositionError).

(** A callback runs only while the watch is installed: [clearWatch] ends
    the deliveries. *)
Definition deliver (o : Options) (start : Z) (a : Acquisition) (e : event)
    : Acquisition :=
  if watching a then
    match e with
    | Position now pos => onPosition o start now pos a
    | Failure _ err => onError err a
    end
  else a.

(** [getBestPosition(o)]: [supported] is ["geolocation" in navigator],
    [start] the value of [Date.now()] at the call, [events] what the
    platform reports afterwards, in order.  The value is the state of the
    call after these events. *)
Definition getBestPosition (supported : bool) (o : Options) (start : Z)
    (events : list event) : Acquisition :=
  if negb supported then
    mkAcquisition None false (Rejected (JsError "Geolocation not supported"))
  else
    fold_left (deliver o start) events (mkAcquisition None true Pending).

End App.

(** * Notions used to state the properties *)

Module Spec.

Import Js Compass App.

(** *** Reading a decimal numeral back: the meaning of a digit string *)

Definition digitValue (c : ascii) : option Z :=
  let n := Z.of_nat (nat_of_ascii c) in
  if (48 <=? n) && (n <=? 57) then Some (n - 48) else None.

Fixpoint parseFrom (acc : Z) (s : string) : option Z :=
  match s with
  | EmptyString => Some acc
  | String c s' =>
      match digitValue c with
      | Some d => parseFrom (acc * 10 + d) s'
      | None => None
      end
  end.

Definition decimalValue (s : string) : option Z :=
  match s with
  | EmptyString => None
  | _ => parseFrom 0 s
  end.

(** Two decimal digits of a number below 100. *)
Definition twoDigits (k : Z) : string :=
  String (digitChar (k / 10)) (String (digitChar (k mod 10)) EmptyString).

(** [s] is the decimal numeral of [n]: its digits give [n], and there is no
    leading zero (one digit below ten, and from ten on as many digits as
    [n] needs). *)
Definition numeral (s : string) (n : Z) : Prop :=
  decimalValue s = Some n /\
  (n < 10 -> String.length s = 1%nat) /\
  (10 <= n -> 10 ^ (Z.of_nat (String.length s) - 1) <= n).

(** *** Heading normalisation as the specification words it *)

(** The fallback chain in the words of the specification: a field counts
    when it is a finite number. *)
Definition finiteNumber (v : value) : option num :=
  match v with
  | VNum n => if isFinite n then Some n else None
  | _ => None
  end.

Definition readingAsSpecified (ev : OrientationEvent) : HeadingState :=
  match finiteNumber (webkitCompassHeading ev) with
  | Some h => mkHeadingState (Some h) false None
  | None =>
      match finiteNumber (alpha ev) with
      | Some a =>
          mkHeadingState (Some (rem (sub (Fin 360) a) (Fin 360))) false None
      | None => mkHeadingState None false (Some "No heading data"%string)
      end
  end.

Definition noHeadingData : HeadingState :=
  mkHeadingState None false (Some "No heading data"%string).

(** *** Runs of [getBestPosition] *)

(** A sample is a pair: the clock value that the callback reads and the
    position that the watch reports. *)
Definition positions (l : list (Z * GeolocationPosition)) : list event :=
  map (fun s => Position (fst s) (snd s)) l.

(** A sample that neither reaches the desired accuracy nor arrives after
    the wait is over: the acquisition goes on after it. *)
Definition keepsWaiting (o : Options) (start : Z) (s : Z * GeolocationPosition) : Prop :=
  (desiredAccuracyM o < accuracyOf (snd s))%Q /\ fst s - start <= maxWaitMs o.

(** The update of [best] in the success callback. *)
Definition keepBest (b : option GeolocationPosition) (pos : GeolocationPosition)
    : GeolocationPosition :=
  match b with
  | None => pos
  | Some b => if Qlt_bool (accuracyOf pos) (accuracyOf b) then pos else b
  end.

Definition bestSeen (l : list GeolocationPosition) : option GeolocationPosition :=
  fold_left (fun b pos => Some (keepBest b pos)) l None.

(** [b] is the earliest of the most accurate positions of [l]. *)
Definition earliestBest (b : GeolocationPosition) (l : list GeolocationPosition)
    : Prop :=
  exists l1 l2,
    l = l1 ++ b :: l2 /\
    Forall (fun s => (accuracyOf b < accuracyOf s)%Q) l1 /\
    Forall (fun s => (accuracyOf b <= accuracyOf s)%Q) l2.

(** The watch is installed exactly as long as the promise is pending. *)
Definition live (a : Acquisition) : Prop :=
  watching a = true <-> result a = Pending.

(** Positions for the examples: only the accuracy matters. *)
Definition pos_with (a : Q) : GeolocationPosition :=
  mkPosition (mkCoords 0 0 (Some a)) 0.

Definition pos_unknown : GeolocationPosition :=
  mkPosition (mkCoords 0 0 None) 0.

End Spec.

(** ** The meter of the component ([./App]: [timer], [tickRef] and the
    effect on the timer)

    The component keeps the countdown in the state [timer] and the id of
    its interval in [tickRef].  A state is the pair of these with what the
    window holds: the intervals that were set and not cleared, and the id
    that [window.setInterval] hands out next (ids are handed out in
    increasing order).  [alerts] counts how often the effect has started
    its alert (the notification and the beep).

    Each handler runs to its end; the component is then rendered, and the
    effect runs after a render in which one of its dependencies
    [timer.remainingMs], [timer.endsAt] differs from the render before. *)

Module Meter.

Import Timer.

Record state : Type := mkState {
  timer : Countdown;
  tickRef : option Z;
  intervals : list Z;
  nextId : Z;
  alerts : nat
}.

(** The component after its first render: the effect has run on the idle
    timer and returned at once. *)
Definition init (first : Z) : state :=
  mkState (mkCountdown None 0) None [] first 0.

Definition setTimer (c : Countdown) (s : state) : state :=
  mkState c (tickRef s) (intervals s) (nextId s) (alerts s).

(** [window.clearInterval(id)] *)
Definition clearInterval (id : Z) (l : list Z) : list Z :=
  filter (fun x => negb (x =? id)) l.

(** [stopTicker()]: the test [if (tickRef.current)] is one of truthiness. *)
Definition stopTicker (s : state) : state :=
  match tickRef s with
  | Some id =>
      if truthy (Some id) then
        mkState (timer s) None (clearInterval id (intervals s))
          (nextId s) (alerts s)
      else s
  | None => s
  end.

(** [startTicker()] *)
Definition startTicker (s : state) : state :=
  let s := stopTicker s in
  mkState (timer s) (Some (nextId s)) (nextId s :: intervals s)
    (nextId s + 1) (alerts s).

(** The body of the effect on [timer]. *)
Definition effect (s : state) : state :=
  if negb (truthy (endsAt (timer s))) then s
  else if remainingMs (timer s) <=? 0 then
    let s := stopTicker s in
    mkState (timer s) (tickRef s) (intervals s) (nextId s) (S (alerts s))
  else s.

Definition sameOption (a b : option Z) : bool :=
  match a, b with
  | None, None => true
  | Some x, Some y => x =? y
  | _, _ => false
  end.

(** The dependencies of the effect are compared with those of the render
    before. *)
Definition sameDeps (old new : Countdown) : bool :=
  (remainingMs old =? remainingMs new) && sameOption (endsAt old) (endsAt new).

(** The render after a handler that started from the timer [old]. *)
Definition render (old : Countdown) (s : state) : state :=
  if sameDeps old (timer s) then s else effect s.

(** [startMeter(minutes)], with the two clock reads of [startCountdown]. *)
Definition startMeter (now1 now2 : Z) (minutes : Q) (s : state) : state :=
  render (timer s)
    (startTicker (setTimer (startCountdown now1 now2 minutes) s)).

(** [clearMeter()] *)
Definition clearMeter (s : state) : state :=
  render (timer s) (setTimer (mkCountdown None 0) (stopTicker s)).

(** The callback of the interval [id], at clock value [now]: it runs only
    while the interval is installed. *)
Definition tick (id now : Z) (s : state) : state :=
  if existsb (fun x => x =? id) (intervals s) then
    render (timer s) (setTimer (readCountdown now (timer s)) s)
  else s.

Inductive event : Type :=
| StartMeter (now1 now2 : Z) (minutes : Q)
| ClearMeter
| Tick (id now : Z).

Definition step (s : state) (e : event) : state :=
  match e with
  | StartMeter now1 now2 minutes => startMeter now1 now2 minutes s
  | ClearMeter => clearMeter s
  | Tick id now => tick id now s
  end.

Definition run (s : state) (events : list event) : state :=
  fold_left step events s.

End Meter.

(** ** The compass of the component ([./App]: [enableCompass],
    [disableCompass], and [requestOrientationPermissionIfNeeded] of
    [./lib/compass])

    [enableCompass] changes nothing before its [await]; what it does
    afterwards depends on the outcome of the permission request and on the
    state it finds then.  The state holds every listener that
    [startCompass] has made, in order, the listener whose stop function
    [compassStopRef] holds (by its position), and the component states
    [heading], [compassOn] and [status]. *)

Module CompassUI.

Import Js.

(** What the platform offers for the permission request: no
    [DeviceOrientationEvent.requestPermission] function, one whose promise
    resolves with [res], or one that throws or whose promise rejects. *)
Inductive permissionApi : Type :=
| NoRequest
| Answers (res : string)
| Throws.

(** [requestOrientationPermissionIfNeeded()] *)
Definition requestOrientationPermissionIfNeeded (p : permissionApi) : bool :=
  match p with
  | NoRequest => true
  | Answers res => String.eqb res "granted"
  | Throws => false
  end.

Record state : Type := mkState {
  listeners : list Compass.Listener;
  compassStopRef : option nat;
  heading : option num;
  compassOn : bool;
  status : string
}.

Definition init (status : string) : state :=
  mkState [] None None false status.

(** The rest of [enableCompass] once the permission request has settled. *)
Definition enableCompass (p : permissionApi) (s : state) : state :=
  if negb (requestOrientationPermissionIfNeeded p) then
    mkState (listeners s) (compassStopRef s) (heading s) (compassOn s)
      "Compass permission denied."
  else
    match compassStopRef s with
    | Some _ => s
    | None =>
        mkState (listeners s ++ [Compass.startCompass])%list
          (Some (List.length (listeners s))) (heading s) true (status s)
    end.

(** The call of the stop function of the listener at position [i]. *)
Fixpoint stopAt (i : nat) (ls : list Compass.Listener)
    : list Compass.Listener :=
  match ls, i with
  | [], _ => []
  | l :: rest, O => Compass.stop l :: rest
  | l :: rest, S i => l :: stopAt i rest
  end.

(** [disableCompass()] *)
Definition disableCompass (s : state) : state :=
  mkState
    match compassStopRef s with
    | Some i => stopAt i (listeners s)
    | None => listeners s
    end
    None (heading s) false (status s).

(** A listener whose handler runs on a dispatched event and calls
    [onUpdate]. *)
Definition delivers (l : Compass.Listener) : bool :=
  Compass.registered l && Compass.active l.

(** The window dispatches a [deviceorientation] event: the handler of each
    registered listener runs, and its [onUpdate] is
    [(s) => setHeading(s.heading)]. *)
Definition orientation (ev : Compass.OrientationEvent) (s : state) : state :=
  mkState
    (map (fun l => Compass.step l (Compass.Dispatch ev)) (listeners s))
    (compassStopRef s)
    (if existsb delivers (listeners s)
     then Compass.heading (Compass.reading ev) else heading s)
    (compassOn s) (status s).

Inductive event : Type :=
| Enable (p : permissionApi)
| Disable
| Orientation (ev : Compass.OrientationEvent).

Definition step (s : state) (e : event) : state :=
  match e with
  | Enable p => enableCompass p s
  | Disable => disableCompass s
  | Orientation ev => orientation ev s
  end.

Definition run (s : state) (events : list event) : state :=
  fold_left step events s.

End CompassUI.

(** ** The status after a save ([./App], [onParkHere])

    [Math.round(pos.coords.accuracy ?? 0)] and the status text chosen from
    it; the text is given by its UTF-8 bytes. *)

Module Park.

Import Js App.

Definition savedStatus (pos : GeolocationPosition) : string :=
  let acc :=
    mathRound match accuracy (coords pos) with Some a => a | None => 0 end in
  if acc =? 0 then "Saved!"
  else "Saved with ±" ++ toStringInt acc ++ " m accuracy".

End Park.

(** ** Distance and bearing ([lib/geo]: [haversine], [bearingFromTo])

    The trigonometric functions are those of the real numbers: coordinates
    are real numbers, rounding error is not modelled, and zero has no
    sign (where [Math.atan2] tells [+0] from [-0], it is taken as [+0]).
    A result that JavaScript gives as [NaN] is [None]. *)

Module GeoReal.

Import Reals.
Local Open Scope R_scope.

Record LatLng : Type := mkLatLng { lat : R; lon : R }.

(** The constant [R] of the source, in metres. *)
Definition earthRadius : R := 6371000.

(** *** The [Math] functions used, on real arguments *)

(** [Math.sqrt]: [NaN] below zero. *)
Definition mathSqrt (x : R) : option R :=
  if Rlt_dec x 0 then None else Some (sqrt x).

(** [Math.asin]: [NaN] outside [-1, 1]. *)
Definition mathAsin (x : R) : option R :=
  if Rlt_dec x (-1) then None
  else if Rlt_dec 1 x then None
  else Some (asin x).

(** [Math.atan2(y, x)]: the angle of the point [(x, y)], in [-PI, PI]. *)
Definition mathAtan2 (y x : R) : R :=
  if Rlt_dec 0 x then atan (y / x)
  else if Rlt_dec x 0 then
    if Rle_dec 0 y then atan (y / x) + PI else atan (y / x) - PI
  else if Rlt_dec 0 y then PI / 2
  else if Rlt_dec y 0 then - (PI / 2)
  else 0.

(** Truncation toward zero, the quotient that [%] uses. *)
Definition Rtrunc (x : R) : Z :=
  if Rle_dec 0 x then Int_part x else (- Int_part (- x))%Z.

(** [x % y], [y] not zero: the result has the sign of the dividend. *)
Definition Rrem (x y : R) : R := x - y * IZR (Rtrunc (x / y)).

(** [Math.round]: nearest integer, a tie goes toward +infinity. *)
Definition mathRound (x : R) : Z := Int_part (x + 1 / 2).

(** *** The functions of [lib/geo] *)

Definition toRad (x : R) : R := x * PI / 180.

Definition toDeg (x : R) : R := x * 180 / PI.

(** [haversine(a, b)]; [None] is [NaN]. *)
Definition haversine (a b : LatLng) : option R :=
  let dLat := toRad (lat b - lat a) in
  let dLon := toRad (lon b - lon a) in
  let s1 := sin (dLat / 2) ^ 2 +
            cos (toRad (lat a)) * cos (toRad (lat b)) * sin (dLon / 2) ^ 2 in
  match mathSqrt s1 with
  | None => None
  | Some r =>
      match mathAsin r with
      | None => None
      | Some v => Some (2 * earthRadius * v)
      end
  end.

(** [bearingFromTo(a, b)] *)
Definition bearingFromTo (a b : LatLng) : R :=
  let phi1 := toRad (lat a) in
  let phi2 := toRad (lat b) in
  let lambda1 := toRad (lon a) in
  let lambda2 := toRad (lon b) in
  let y := sin (lambda2 - lambda1) * cos phi2 in
  let x := cos phi1 * sin phi2 - sin phi1 * cos phi2 * cos (lambda2 - lambda1) in
  let theta := mathAtan2 y x in
  Rrem (toDeg theta + 360) 360.

(** [bearing] of the component ([./App]): [null] without a spot or a live
    position, else the rounded bearing from the live position to the
    spot. *)
Definition bearing (spot live : option LatLng) : option Z :=
  match spot, live with
  | Some s, Some l => Some (mathRound (bearingFromTo l s))
  | _, _ => None
  end.

End GeoReal.

(** ** The live position of the component ([./App]: [saveSpot],
    [onForget] and the effect that watches the position)

    The effect depends on [spot] alone.  React runs it after the first
    render and after each render in which [spot] is another value than in
    the render before (two spot objects are never the same value, [null]
    is the same as [null]); it first runs the cleanup that the effect
    returned the last time, if it returned one.  The body of the effect
    reads [spot] and [watchId] as they were in its render: a [setWatchId]
    of the cleanup that has just run is not visible to it.

    The state holds the component states [spot], [watchId], [livePos] and
    [status], the id that the pending cleanup would clear, the watches
    installed in the platform and the id that [watchPosition] hands out
    next. *)

Module LiveWatch.

Import Js App.

Record ParkedSpot : Type := mkSpot {
  lat : Q;
  lon : Q;
  accuracy : option Q;
  note : option string;
  photoDataUrl : option string;
  when : Z
}.

Record state : Type := mkState {
  spot : option ParkedSpot;
  watchId : option Z;
  cleanup : option Z;
  watches : list Z;
  nextId : Z;
  livePos : option GeolocationPosition;
  status : string
}.

(** [navigator.geolocation.clearWatch(id)] *)
Definition clearWatch (id : Z) (l : list Z) : list Z :=
  filter (fun x => negb (x =? id)) l.

(** The cleanup that the effect returned, if any:
    [if (id) clearWatch(id); setWatchId(null)]. *)
Definition runCleanup (s : state) : state :=
  match cleanup s with
  | None => s
  | Some id =>
      mkState (spot s) None None
        (if Timer.truthy (Some id) then clearWatch id (watches s)
         else watches s)
        (nextId s) (livePos s) (status s)
  end.

(** The body of the effect; [seen] is [watchId] as its render had it. *)
Definition effectBody (supported : bool) (seen : option Z) (s : state)
    : state :=
  let returned :=
    mkState (spot s) (watchId s) None (watches s) (nextId s) (livePos s)
      (status s) in
  match spot s with
  | None => returned
  | Some _ =>
      match seen with
      | Some _ => returned
      | None =>
          if negb supported then returned
          else
            mkState (spot s) (Some (nextId s)) (Some (nextId s))
              (nextId s :: watches s) (nextId s + 1) (livePos s) (status s)
      end
  end.

(** The first render, with [spot] as [loadSpot()] gave it. *)
Definition mount (supported : bool) (loaded : option ParkedSpot) (first : Z)
    : state :=
  effectBody supported None
    (mkState loaded None None [] first None EmptyString).

(** [setSpot(v)] and the render that follows. *)
Definition setSpot (supported : bool) (v : option ParkedSpot) (s : state)
    : state :=
  match spot s, v with
  | None, None => s
  | _, _ =>
      effectBody supported (watchId s)
        (runCleanup
           (mkState v (watchId s) (cleanup s) (watches s) (nextId s)
              (livePos s) (status s)))
  end.

(** [saveSpot(coords, override)], [now] the value of its [Date.now()]. *)
Definition saveSpot (supported : bool) (coords : GeolocationCoordinates)
    (note photoDataUrl : option string) (now : Z) (s : state) : state :=
  setSpot supported
    (Some (mkSpot (latitude coords) (longitude coords) (App.accuracy coords)
             note photoDataUrl now)) s.

(** [onForget()] *)
Definition onForget (supported : bool) (s : state) : state :=
  let s := setSpot supported None s in
  mkState (spot s) (watchId s) (cleanup s) (watches s) (nextId s) None
    EmptyString.

(** The callbacks of the watch [id]; they run only while it is installed. *)
Definition onLivePosition (id : Z) (pos : GeolocationPosition) (s : state)
    : state :=
  if existsb (fun x => x =? id) (watches s) then
    mkState (spot s) (watchId s) (cleanup s) (watches s) (nextId s)
      (Some pos) (status s)
  else s.

Definition onLiveError (id : Z) (err : GeolocationPositionError) (s : state)
    : state :=
  if existsb (fun x => x =? id) (watches s) then
    mkState (spot s) (watchId s) (cleanup s) (watches s) (nextId s)
      (livePos s) (message err)
  else s.

Inductive event : Type :=
| Save (coords : GeolocationCoordinates) (note photoDataUrl : option string)
    (now : Z)
| Forget
| Report (id : Z) (pos : GeolocationPosition)
| ReportError (id : Z) (err : GeolocationPositionError).

Definition step (supported : bool) (s : state) (e : event) : state :=
  match e with
  | Save coords note photo now => saveSpot supported coords note photo now s
  | Forget => onForget supported s
  | Report id pos => onLivePosition id pos s
  | ReportError id err => onLiveError id err s
  end.

Definition run (supported : bool) (s : state) (events : list event) : state :=
  fold_left (step supported) events s.

End LiveWatch.

(** * Notions used to state the further properties *)

Module Notions.

Import Js Compass App.

(** The events that reach the handler of a listener up to its first stop,
    in order. *)
Fixpoint reachedBeforeStop (acts : list action) : list OrientationEvent :=
  match acts with
  | [] => []
  | Dispatch ev :: rest => ev :: reachedBeforeStop rest
  | InFlight ev :: rest => ev :: reachedBeforeStop rest
  | Stop :: _ => []
  end.

(** The number of countdowns started by a sequence of meter events. *)
Fixpoint started (events : list Meter.event) : nat :=
  match events with
  | [] => O
  | Meter.StartMeter _ _ _ :: rest => S (started rest)
  | _ :: rest => started rest
  end.

(** The clock values that a sequence of meter events carries, in the order
    in which they are read. *)
Fixpoint clockReads (events : list Meter.event) : list Z :=
  match events with
  | [] => []
  | Meter.StartMeter now1 now2 _ :: rest => now1 :: now2 :: clockReads rest
  | Meter.ClearMeter :: rest => clockReads rest
  | Meter.Tick _ now :: rest => now :: clockReads rest
  end.

(** The clock does not go back: each value is at least the one before,
    from [t] on. *)
Fixpoint nondecreasingFrom (t : Z) (l : list Z) : Prop :=
  match l with
  | [] => True
  | x :: rest => t <= x /\ nondecreasingFrom x rest
  end.

(** At most the interval of [tickRef] is installed, and its id is one that
    the window has handed out. *)
Definition oneTicker (s : Meter.state) : Prop :=
  0 < Meter.nextId s /\
  match Meter.tickRef s with
  | Some id => 0 < id < Meter.nextId s /\ Meter.intervals s = [id]
  | None => Meter.intervals s = []
  end.

(** One while a ticker is installed, zero otherwise. *)
Definition ticking (s : Meter.state) : nat :=
  match Meter.tickRef s with Some _ => 1%nat | None => 0%nat end.

(** The timer and the ticker agree, the clock having reached [t]: an idle
    timer has no ticker, a running one has one, and an expired one is past
    its end and has none. *)
Definition coherent (t : Z) (s : Meter.state) : Prop :=
  match Timer.endsAt (Meter.timer s) with
  | None => Meter.tickRef s = None
  | Some e =>
      0 < e /\
      (Timer.remainingMs (Meter.timer s) <= 0 ->
       e <= t /\ Meter.tickRef s = None) /\
      (0 < Timer.remainingMs (Meter.timer s) -> Meter.tickRef s <> None)
  end.

(** The last of the clock values, [t] when there is none. *)
Definition lastRead (t : Z) (l : list Z) : Z := last l t.

(** A listener after its stop function has run. *)
Definition stopped (l : Compass.Listener) : Prop :=
  Compass.active l = false /\ Compass.registered l = false.

(** Every listener is stopped but the one of [compassStopRef], which is
    the last one made; [compassOn] tells whether there is one. *)
Definition oneListener (s : CompassUI.state) : Prop :=
  match CompassUI.compassStopRef s with
  | None =>
      CompassUI.compassOn s = false /\ Forall stopped (CompassUI.listeners s)
  | Some i =>
      CompassUI.compassOn s = true /\
      exists pre l,
        CompassUI.listeners s = (pre ++ [l])%list /\ i = List.length pre /\
        Forall stopped pre /\
        Compass.active l = true /\ Compass.registered l = true
  end.

(** A spot is saved only while there is none: [present] tells whether
    there is one before the events. *)
Fixpoint savesOnlyWhenEmpty (present : bool) (events : list LiveWatch.event)
    : Prop :=
  match events with
  | [] => True
  | LiveWatch.Save _ _ _ _ :: rest =>
      present = false /\ savesOnlyWhenEmpty true rest
  | LiveWatch.Forget :: rest => savesOnlyWhenEmpty false rest
  | _ :: rest => savesOnlyWhenEmpty present rest
  end.

(** Events of the watch alone. *)
Definition reportsOnly (events : list LiveWatch.event) : Prop :=
  Forall (fun e => match e with
                   | LiveWatch.Report _ _ | LiveWatch.ReportError _ _ => True
                   | _ => False
                   end) events.

Definition present (s : LiveWatch.state) : bool :=
  match LiveWatch.spot s with Some _ => true | None => false end.

(** The watch of the component is installed exactly while there is a
    spot: it is the only watch, [watchId] and the pending cleanup hold its
    id. *)
Definition watching (s : LiveWatch.state) : Prop :=
  0 < LiveWatch.nextId s /\
  match LiveWatch.spot s with
  | Some _ =>
      exists id,
        0 < id < LiveWatch.nextId s /\
        LiveWatch.watches s = [id] /\
        LiveWatch.watchId s = Some id /\ LiveWatch.cleanup s = Some id
  | None =>
      LiveWatch.watches s = [] /\
      LiveWatch.watchId s = None /\ LiveWatch.cleanup s = None
  end.

End Notions.

(** * Properties *)

(** ** Facts about the built-ins *)

Module JsFacts.

Import Js Spec.

Lemma digit_cases (d : Z) :
  0 <= d < 10 ->
  d = 0 \/ d = 1 \/ d = 2 \/ d = 3 \/ d = 4 \/ d = 5 \/ d = 6 \/ d = 7
  \/ d = 8 \/ d = 9.
Proof. lia. Qed.

Lemma digitValue_digitChar (d : Z) :
  0 <= d < 10 -> digitValue (digitChar d) = Some d.
Proof.
  intros H. destruct (digit_cases d H) as [E|[E|[E|[E|[E|[E|[E|[E|[E|E]]]]]]]]];
    subst d; reflexivity.
Qed.

Lemma parseFrom_app (s1 s2 : string) : forall acc,
  parseFrom acc (s1 ++ s2) =
  match parseFrom acc s1 with
  | Some a => parseFrom a s2
  | None => None
  end.
Proof.
  induction s1 as [|c s1 IH]; intros acc; simpl.
  - reflexivity.
  - destruct (digitValue c); [apply IH | reflexivity].
Qed.

Lemma length_app (s1 s2 : string) :
  String.length (s1 ++ s2) = (String.length s1 + String.length s2)%nat.
Proof. induction s1 as [|c s1 IH]; simpl; [reflexivity | now rewrite IH]. Qed.

Lemma app_assoc (s1 s2 s3 : string) :
  ((s1 ++ s2) ++ s3 = s1 ++ (s2 ++ s3))%string.
Proof. induction s1 as [|c s1 IH]; simpl; [reflexivity | now rewrite IH]. Qed.

Lemma substring_prefix (a b : string) :
  substring 0 (String.length a) (a ++ b) = a.
Proof.
  induction a as [|c a IH]; simpl.
  - destruct b; reflexivity.
  - now rewrite IH.
Qed.

Lemma substring_all (b : string) :
  substring 0 (String.length b) b = b.
Proof. induction b as [|c b IH]; simpl; [reflexivity | now rewrite IH]. Qed.

Lemma substring_suffix (a b : string) :
  substring (String.length a) (String.length b) (a ++ b) = b.
Proof.
  induction a as [|c a IH]; simpl.
  - apply substring_all.
  - exact IH.
Qed.

(** *** The digits do not depend on the fuel, once there is enough *)

Lemma pow2_S (f : nat) : 2 ^ Z.of_nat (S f) = 2 * 2 ^ Z.of_nat f.
Proof. rewrite Nat2Z.inj_succ, Z.pow_succ_r by lia. reflexivity. Qed.

Lemma digitsFuel_S (f : nat) (n : Z) :
  digitsFuel (S f) n =
  if n <? 10 then String (digitChar n) EmptyString
  else (digitsFuel f (n / 10) ++ String (digitChar (n mod 10)) EmptyString)%string.
Proof. reflexivity. Qed.

Lemma digitsFuel_enough : forall f g n,
  0 <= n -> n < 2 ^ Z.of_nat (S f) -> n < 2 ^ Z.of_nat (S g) ->
  digitsFuel (S f) n = digitsFuel (S g) n.
Proof.
  induction f as [|f IH]; intros g n Hn Hf Hg;
    rewrite (digitsFuel_S _ n), (digitsFuel_S g n);
    destruct (n <? 10) eqn:E; try reflexivity; apply Z.ltb_ge in E.
  - change (2 ^ Z.of_nat 1) with 2 in Hf. lia.
  - destruct g as [|g].
    + change (2 ^ Z.of_nat 1) with 2 in Hg. lia.
    + rewrite pow2_S in Hf, Hg.
      assert (H10 : n / 10 <= n / 2) by (apply Z.div_le_compat_l; lia).
      assert (Hf' : n / 2 < 2 ^ Z.of_nat (S f))
        by (apply Z.div_lt_upper_bound; lia).
      assert (Hg' : n / 2 < 2 ^ Z.of_nat (S g))
        by (apply Z.div_lt_upper_bound; lia).
      rewrite (IH g (n / 10)); [reflexivity | | lia | lia].
      apply Z.div_pos; lia.
Qed.

Lemma log2_fuel (n : Z) :
  0 <= n -> n < 2 ^ Z.of_nat (S (Z.to_nat (Z.log2 n))).
Proof.
  intros Hn. rewrite Nat2Z.inj_succ, Z2Nat.id by apply Z.log2_nonneg.
  destruct (Z.eq_dec n 0) as [->|Hz]; [reflexivity|].
  apply Z.log2_spec. lia.
Qed.

Lemma digits_small (n : Z) :
  0 <= n < 10 -> digits n = String (digitChar n) EmptyString.
Proof.
  intros [H0 H1]. unfold digits. rewrite digitsFuel_S.
  apply Z.ltb_lt in H1. now rewrite H1.
Qed.

Lemma digits_step (n : Z) :
  10 <= n ->
  digits n = (digits (n / 10) ++ String (digitChar (n mod 10)) EmptyString)%string.
Proof.
  intros H. unfold digits at 1. rewrite digitsFuel_S.
  assert (E : (n <? 10) = false) by (apply Z.ltb_ge; lia).
  rewrite E. f_equal.
  assert (Hq : 0 <= n / 10) by (apply Z.div_pos; lia).
  assert (Hlog : 0 < Z.log2 n) by (apply Z.log2_pos; lia).
  destruct (Z.to_nat (Z.log2 n)) as [|f] eqn:Ef; [lia|].
  unfold digits. apply digitsFuel_enough; [exact Hq | | apply log2_fuel; exact Hq].
  assert (Hn : n < 2 ^ Z.of_nat (S (S f))).
  { rewrite <- Ef. apply log2_fuel. lia. }
  rewrite pow2_S in Hn.
  assert (n / 10 <= n / 2) by (apply Z.div_le_compat_l; lia).
  assert (n / 2 < 2 ^ Z.of_nat (S f)) by (apply Z.div_lt_upper_bound; lia).
  lia.
Qed.

Lemma digits_two (n : Z) :
  10 <= n < 100 -> digits n = twoDigits n.
Proof.
  intros H. rewrite digits_step by lia.
  rewrite digits_small.
  - reflexivity.
  - split; [apply Z.div_pos; lia | apply Z.div_lt_upper_bound; lia].
Qed.

(** From 100 on, the digits are those of the hundreds followed by the two
    digits of the rest. *)
Lemma digits_split2 (n : Z) :
  100 <= n -> digits n = (digits (n / 100) ++ twoDigits (n mod 100))%string.
Proof.
  intros H.
  assert (H10 : 10 <= n / 10) by (apply Z.div_le_lower_bound; lia).
  rewrite (digits_step n) by lia.
  rewrite (digits_step (n / 10)) by exact H10.
  rewrite app_assoc. cbn [append].
  rewrite Z.div_div by lia. change (10 * 10) with 100.
  unfold twoDigits.
  replace (n mod 100 / 10) with ((n / 10) mod 10).
  2:{ rewrite (Z.mod_eq n 100) by lia.
      replace (n - 100 * (n / 100)) with (n + (- (n / 100) * 10) * 10) by lia.
      rewrite Z.div_add by lia.
      rewrite (Z.mod_eq (n / 10) 10) by lia.
      rewrite Z.div_div by lia. change (10 * 10) with 100. lia. }
  replace ((n mod 100) mod 10) with (n mod 10).
  2:{ symmetry. apply Z.mod_mod_divide. exists 10. reflexivity. }
  reflexivity.
Qed.

Lemma digits_length_pos (n : Z) : 0 <= n -> (1 <= String.length (digits n))%nat.
Proof.
  intros H. destruct (Z_lt_le_dec n 10) as [L|L].
  - rewrite digits_small by lia. simpl. lia.
  - rewrite digits_step by lia. rewrite length_app. simpl. lia.
Qed.

Lemma digits_length_two (n : Z) : 10 <= n -> (2 <= String.length (digits n))%nat.
Proof.
  intros H. rewrite digits_step by lia. rewrite length_app. simpl.
  assert (0 <= n / 10) by (apply Z.div_pos; lia).
  pose proof (digits_length_pos (n / 10)). lia.
Qed.

(** The digits denote the number. *)
Lemma parseFrom_digits : forall f n,
  0 <= n -> n < 10 ^ Z.of_nat (S f) ->
  parseFrom 0 (digits n) = Some n.
Proof.
  induction f as [|f IH]; intros n Hn Hb.
  - change (10 ^ Z.of_nat 1) with 10 in Hb.
    rewrite digits_small by lia. cbn [parseFrom].
    rewrite digitValue_digitChar by lia. reflexivity.
  - destruct (Z_lt_le_dec n 10) as [L|L].
    + rewrite digits_small by lia. cbn [parseFrom].
      rewrite digitValue_digitChar by lia. reflexivity.
    + rewrite digits_step by lia. rewrite parseFrom_app.
      rewrite IH.
      * cbn [parseFrom]. rewrite digitValue_digitChar by (apply Z.mod_pos_bound; lia).
        f_equal. rewrite (Z.div_mod n 10) at 3 by lia. lia.
      * apply Z.div_pos; lia.
      * rewrite Nat2Z.inj_succ, Z.pow_succ_r in Hb by lia.
        apply Z.div_lt_upper_bound; lia.
Qed.

Lemma decimalValue_digits (n : Z) :
  0 <= n -> decimalValue (digits n) = Some n.
Proof.
  intros Hn. pose proof (digits_length_pos n Hn) as HL.
  unfold decimalValue. destruct (digits n) as [|c s] eqn:E.
  - simpl in HL. lia.
  - rewrite <- E. apply (parseFrom_digits (Z.to_nat n)); [exact Hn|].
    rewrite Nat2Z.inj_succ, Z2Nat.id by lia.
    pose proof (Z.pow_gt_lin_r 10 (Z.succ n)). lia.
Qed.

Lemma decimalValue_twoDigits (k : Z) :
  0 <= k < 100 -> parseFrom 0 (twoDigits k) = Some k.
Proof.
  intros H. unfold twoDigits. cbn [parseFrom].
  rewrite digitValue_digitChar
    by (split; [apply Z.div_pos; lia | apply Z.div_lt_upper_bound; lia]).
  rewrite digitValue_digitChar by (apply Z.mod_pos_bound; lia).
  f_equal. rewrite (Z.div_mod k 10) at 3 by lia. lia.
Qed.

(** *** [padStart] *)

Lemma padStart_long (k : nat) (c : ascii) (s : string) :
  (k <= String.length s)%nat -> padStart k c s = s.
Proof.
  intros H. unfold padStart.
  replace (k - String.length s)%nat with 0%nat by lia. reflexivity.
Qed.

Lemma repeatChar_length (c : ascii) (k : nat) :
  String.length (repeatChar c k) = k.
Proof. induction k as [|k IH]; simpl; [reflexivity | now rewrite IH]. Qed.

Lemma padStart_length (k : nat) (c : ascii) (s : string) :
  (k <= String.length (padStart k c s))%nat.
Proof.
  unfold padStart. rewrite length_app, repeatChar_length. lia.
Qed.

Lemma padStart2_digits (k : Z) :
  0 <= k ->
  padStart 2 "0" (digits k) = if k <? 100 then twoDigits k else digits k.
Proof.
  intros H. destruct (Z_lt_le_dec k 10) as [L|L].
  - assert (E : (k <? 100) = true) by (apply Z.ltb_lt; lia). rewrite E.
    rewrite digits_small by lia. unfold twoDigits.
    rewrite Z.div_small, Z.mod_small by lia. reflexivity.
  - rewrite padStart_long by (apply digits_length_two; exact L).
    destruct (k <? 100) eqn:E; [|reflexivity].
    apply Z.ltb_lt in E. apply digits_two. lia.
Qed.

(** *** Rounding *)

Lemma mathRound_nearest (x : Q) :
  (inject_Z (mathRound x) - (1 # 2) <= x)%Q /\
  (x < inject_Z (mathRound x) + (1 # 2))%Q.
Proof.
  unfold mathRound.
  pose proof (Qfloor_le (x + (1 # 2))) as H1.
  pose proof (Qlt_floor (x + (1 # 2))) as H2.
  rewrite inject_Z_plus in H2. change (inject_Z 1) with 1%Q in H2.
  split; lra.
Qed.

Lemma mathCeil_spec (x : Q) :
  (inject_Z (mathCeil x) - 1 < x)%Q /\ (x <= inject_Z (mathCeil x))%Q.
Proof.
  unfold mathCeil. split.
  - pose proof (Qceiling_lt x) as H.
    unfold Z.sub in H. rewrite inject_Z_plus in H. exact H.
  - apply Qle_ceiling.
Qed.

Lemma Qlt_bool_iff (x y : Q) : Qlt_bool x y = true <-> (x < y)%Q.
Proof.
  unfold Qlt_bool. rewrite negb_true_iff. split; intros H.
  - apply Qnot_le_lt. intros C. apply Qle_bool_iff in C. congruence.
  - destruct (Qle_bool y x) eqn:E; [|reflexivity].
    apply Qle_bool_iff in E. lra.
Qed.

Lemma Qlt_bool_false (x y : Q) : Qlt_bool x y = false <-> (y <= x)%Q.
Proof.
  unfold Qlt_bool. rewrite negb_false_iff. apply Qle_bool_iff.
Qed.

Lemma Qle_bool_false (x y : Q) : Qle_bool x y = false <-> (y < x)%Q.
Proof.
  split; intros H.
  - apply Qnot_le_lt. intros C. apply Qle_bool_iff in C. congruence.
  - destruct (Qle_bool x y) eqn:E; [|reflexivity].
    apply Qle_bool_iff in E. lra.
Qed.

Lemma toStringInt_plain (k : Z) :
  0 <= k < 2 ^ 53 -> Js.toStringInt k = Js.digits k.
Proof.
  intros [H0 H1]. unfold Js.toStringInt, Js.shortest.
  rewrite Z.abs_eq by exact H0.
  assert (E : (k <? 0) = false) by (apply Z.ltb_ge; exact H0).
  assert (E1 : (k <? 2 ^ 53) = true) by (apply Z.ltb_lt; exact H1).
  assert (E2 : (10 ^ 21 <=? k) = false) by (apply Z.leb_gt; lia).
  rewrite E, E1, E2. reflexivity.
Qed.

(** The digits of a positive integer have no leading zero. *)
Lemma digits_lower : forall (f : nat) (n : Z),
  1 <= n -> n < 10 ^ Z.of_nat (S f) ->
  10 ^ (Z.of_nat (String.length (Js.digits n)) - 1) <= n.
Proof.
  induction f as [|f IH]; intros n Hn Hb.
  - change (10 ^ Z.of_nat 1) with 10 in Hb.
    rewrite digits_small by lia. cbn. lia.
  - destruct (Z_lt_le_dec n 10) as [L|L].
    + rewrite digits_small by lia. cbn. lia.
    + rewrite digits_step by exact L. rewrite length_app.
      cbn [String.length]. rewrite Nat2Z.inj_add.
      change (Z.of_nat 1) with 1.
      assert (H1 : 1 <= n / 10) by (apply Z.div_le_lower_bound; lia).
      assert (H2 : n / 10 < 10 ^ Z.of_nat (S f)).
      { apply Z.div_lt_upper_bound; [lia|].
        rewrite (Nat2Z.inj_succ (S f)), Z.pow_succ_r in Hb by lia. exact Hb. }
      specialize (IH (n / 10) H1 H2).
      pose proof (digits_length_pos (n / 10) ltac:(lia)) as LP.
      set (l := Z.of_nat (String.length (Js.digits (n / 10)))) in *.
      assert (Hl : 1 <= l) by (unfold l; lia).
      replace (l + 1 - 1) with (Z.succ (l - 1)) by lia.
      rewrite Z.pow_succ_r by lia.
      pose proof (Z.mul_div_le n 10 ltac:(lia)). lia.
Qed.

Lemma digits_no_leading_zero (n : Z) :
  1 <= n -> 10 ^ (Z.of_nat (String.length (Js.digits n)) - 1) <= n.
Proof.
  intros H. apply (digits_lower (Z.to_nat n) n H).
  rewrite Nat2Z.inj_succ, Z2Nat.id by lia.
  pose proof (Z.pow_gt_lin_r 10 (Z.succ n)). lia.
Qed.

Lemma numeral_digits (n : Z) : 0 <= n -> numeral (digits n) n.
Proof.
  intros H. split; [apply decimalValue_digits; exact H|]. split.
  - intros L. rewrite digits_small by lia. reflexivity.
  - intros L. apply digits_no_leading_zero. lia.
Qed.

(** *** Rounding to a double *)

Lemma pow2_pos (z : Z) : (0 < pow2 z)%Q.
Proof. apply Qpower_0_lt. reflexivity. Qed.

Lemma pow2_plus (a b : Z) : (pow2 (a + b) == pow2 a * pow2 b)%Q.
Proof. apply Qpower_plus. discriminate. Qed.

Lemma pow2_Z (z : Z) : 0 <= z -> (pow2 z == inject_Z (2 ^ z))%Q.
Proof. intros H. unfold pow2. rewrite Zpower_Qpower by exact H. reflexivity. Qed.

Lemma pow2_le (a b : Z) : a <= b -> (pow2 a <= pow2 b)%Q.
Proof. intros H. apply Qpower_le_compat_l; [exact H | discriminate]. Qed.

Lemma roundHalfEven_close (q : Q) :
  (inject_Z (roundHalfEven q) - (1 # 2) <= q /\
   q <= inject_Z (roundHalfEven q) + (1 # 2))%Q.
Proof.
  unfold roundHalfEven.
  pose proof (Qfloor_le q) as F1. pose proof (Qlt_floor q) as F2.
  rewrite inject_Z_plus in F2. change (inject_Z 1) with 1%Q in F2.
  destruct (Qcompare (q - inject_Z (Qfloor q)) (1 # 2)) eqn:C.
  - apply Qeq_alt in C.
    destruct (Z.even (Qfloor q)).
    + split; lra.
    + rewrite inject_Z_plus. change (inject_Z 1) with 1%Q. split; lra.
  - apply Qlt_alt in C. split; lra.
  - apply Qgt_alt in C. rewrite inject_Z_plus. change (inject_Z 1) with 1%Q.
    split; lra.
Qed.

Lemma roundHalfEven_int (q : Q) (n : Z) :
  (q == inject_Z n)%Q -> roundHalfEven q = n.
Proof.
  intros E. unfold roundHalfEven.
  assert (F : Qfloor q = n) by (rewrite E; apply Qfloor_Z).
  rewrite F.
  assert (C : Qcompare (q - inject_Z n) (1 # 2) = Lt).
  { apply (proj1 (Qlt_alt _ _)). rewrite E. lra. }
  rewrite C. reflexivity.
Qed.

Lemma roundHalfEven_lower (q : Q) (n : Z) :
  (inject_Z n <= q)%Q -> n <= roundHalfEven q.
Proof.
  intros H. unfold roundHalfEven.
  assert (F : n <= Qfloor q).
  { rewrite <- (Qfloor_Z n). apply Qfloor_resp_le. exact H. }
  destruct (Qcompare _ _); [destruct (Z.even _)| |]; lia.
Qed.

Lemma ilog2_lower (q : Q) : (0 < q)%Q -> (pow2 (ilog2 q) <= q)%Q.
Proof.
  intros Hq. unfold ilog2.
  set (d := Z.log2 (Qnum q) - Z.log2 (Z.pos (Qden q))).
  destruct (Qle_bool (pow2 d) q) eqn:B; [apply Qle_bool_iff; exact B|].
  destruct q as [a b]. cbn [Qnum Qden] in *.
  assert (Ha : 0 < a) by (unfold Qlt in Hq; cbn in Hq; lia).
  destruct (Z.log2_spec a Ha) as [A1 A2].
  destruct (Z.log2_spec (Z.pos b) (Pos2Z.is_pos b)) as [B1 B2].
  pose proof (Z.log2_nonneg a) as La.
  pose proof (Z.log2_nonneg (Z.pos b)) as Lb.
  replace (d - 1) with (Z.log2 a - Z.succ (Z.log2 (Z.pos b))) by (unfold d; lia).
  unfold pow2. rewrite Qpower_minus by discriminate.
  change (2 ^ Z.log2 a)%Q with (pow2 (Z.log2 a)).
  change (2 ^ Z.succ (Z.log2 (Z.pos b)))%Q with (pow2 (Z.succ (Z.log2 (Z.pos b)))).
  rewrite !pow2_Z by lia.
  apply Qle_shift_div_r.
  - change 0%Q with (inject_Z 0). rewrite <- Zlt_Qlt. lia.
  - apply Qle_trans with (inject_Z a).
    + rewrite <- Zle_Qle. exact A1.
    + assert (X : (inject_Z a == (a # b) * inject_Z (Z.pos b))%Q).
      { unfold Qeq, Qmult, inject_Z. cbn. rewrite Pos.mul_1_r. ring. }
      rewrite X. apply Qmult_le_l; [exact Hq|].
      rewrite <- Zle_Qle. lia.
Qed.

Lemma ilog2_upper (q : Q) : (0 < q)%Q -> (q < pow2 (ilog2 q + 1))%Q.
Proof.
  intros Hq. unfold ilog2.
  set (d := Z.log2 (Qnum q) - Z.log2 (Z.pos (Qden q))).
  destruct (Qle_bool (pow2 d) q) eqn:B.
  - destruct q as [a b]. cbn [Qnum Qden] in *.
    assert (Ha : 0 < a) by (unfold Qlt in Hq; cbn in Hq; lia).
    destruct (Z.log2_spec a Ha) as [A1 A2].
    destruct (Z.log2_spec (Z.pos b) (Pos2Z.is_pos b)) as [B1 B2].
    pose proof (Z.log2_nonneg a) as La.
    pose proof (Z.log2_nonneg (Z.pos b)) as Lb.
    replace (d + 1) with (Z.succ (Z.log2 a) - Z.log2 (Z.pos b)) by (unfold d; lia).
    unfold pow2. rewrite Qpower_minus by discriminate.
    change (2 ^ Z.succ (Z.log2 a))%Q with (pow2 (Z.succ (Z.log2 a))).
    change (2 ^ Z.log2 (Z.pos b))%Q with (pow2 (Z.log2 (Z.pos b))).
    rewrite !pow2_Z by lia.
    apply Qlt_shift_div_l.
    + change 0%Q with (inject_Z 0). rewrite <- Zlt_Qlt. lia.
    + apply Qle_lt_trans with (inject_Z a).
      * assert (X : (inject_Z a == (a # b) * inject_Z (Z.pos b))%Q).
        { unfold Qeq, Qmult, inject_Z. cbn. rewrite Pos.mul_1_r. ring. }
        rewrite X. apply Qmult_le_l; [exact Hq|].
        rewrite <- Zle_Qle. exact B1.
      * rewrite <- Zlt_Qlt. exact A2.
  - replace (d - 1 + 1) with d by lia.
    apply Qnot_le_lt. intros C. apply Qle_bool_iff in C. congruence.
Qed.

Lemma fl_comp (q q' : Q) : (q == q')%Q -> fl q = fl q'.
Proof. intros E. unfold fl. rewrite (Qred_complete q q' E). reflexivity. Qed.

(** The rounding error of a positive number in the normal range is at most
    half a unit of its last place. *)
Lemma fl_error (q : Q) :
  (pow2 (-1022) <= q)%Q ->
  (Qabs (fl q - q) <= q * pow2 (-53))%Q.
Proof.
  intros Hn. pose proof (pow2_pos (-1022)) as P0.
  assert (Hq : (0 < q)%Q) by lra.
  unfold fl. pose proof (Qred_correct q) as R.
  set (q' := Qred q) in *.
  assert (A : (Qabs q' == q)%Q) by (rewrite Qabs_pos; lra).
  assert (E0 : Qeq_bool (Qabs q') 0 = false).
  { destruct (Qeq_bool (Qabs q') 0) eqn:E; [|reflexivity].
    apply Qeq_bool_iff in E. lra. }
  rewrite E0.
  assert (E1 : Qle_bool 0 q' = true) by (apply Qle_bool_iff; lra).
  rewrite E1. rewrite Qred_correct.
  set (e := Z.max (ilog2 (Qabs q')) (-1022)).
  assert (He : (pow2 e <= q)%Q).
  { unfold e. destruct (Z.max_spec (ilog2 (Qabs q')) (-1022)) as [[_ ->]|[_ ->]].
    - exact Hn.
    - apply Qle_trans with (Qabs q'); [apply ilog2_lower; lra | lra]. }
  pose proof (pow2_pos (e - 52)) as Pu.
  assert (U : (pow2 e == pow2 (e - 52) * pow2 52)%Q).
  { rewrite <- pow2_plus. replace (e - 52 + 52) with e by lia. reflexivity. }
  assert (V : (pow2 (-53) * pow2 52 == 1 # 2)%Q) by reflexivity.
  destruct (roundHalfEven_close (Qabs q' / pow2 (e - 52))) as [C1 C2].
  set (m := inject_Z (roundHalfEven (Qabs q' / pow2 (e - 52)))) in *.
  assert (D : (Qabs q' / pow2 (e - 52) * pow2 (e - 52) == q)%Q).
  { rewrite <- A. field. lra. }
  set (u := pow2 (e - 52)) in *.
  set (x := (Qabs q' / u)%Q) in *.
  assert (M1 : ((m - (1 # 2)) * u <= x * u)%Q) by (apply Qmult_le_compat_r; lra).
  assert (M2 : (x * u <= (m + (1 # 2)) * u)%Q) by (apply Qmult_le_compat_r; lra).
  assert (W : (u * (1 # 2) <= q * pow2 (-53))%Q).
  { assert (W1 : (u * pow2 52 * pow2 (-53) <= q * pow2 (-53))%Q).
    { apply Qmult_le_compat_r; [lra|]. apply Qlt_le_weak, pow2_pos. }
    assert (W2 : (u * pow2 52 * pow2 (-53) == u * (1 # 2))%Q).
    { rewrite <- V. ring. }
    lra. }
  apply Qabs_Qle_condition. split; lra.
Qed.

Lemma ilog2_Z (k : Z) : 1 <= k -> ilog2 (inject_Z k) = Z.log2 k.
Proof.
  intros H. unfold ilog2.
  change (Z.log2 (Qnum (inject_Z k)) - Z.log2 (Z.pos (Qden (inject_Z k))))
    with (Z.log2 k - 0).
  rewrite Z.sub_0_r.
  assert (B : Qle_bool (pow2 (Z.log2 k)) (inject_Z k) = true).
  { apply Qle_bool_iff. rewrite pow2_Z by apply Z.log2_nonneg.
    rewrite <- Zle_Qle. apply Z.log2_spec. lia. }
  rewrite B. reflexivity.
Qed.

Lemma Qred_inject_Z (k : Z) : Qred (inject_Z k) = inject_Z k.
Proof.
  unfold Qred, inject_Z.
  pose proof (Z.ggcd_gcd k 1) as G.
  pose proof (Z.ggcd_correct_divisors k 1) as D.
  destruct (Z.ggcd k 1) as [g [aa bb]]. cbn [fst] in G.
  rewrite Z.gcd_1_r in G. subst g. destruct D as [Da Db].
  assert (Eb : bb = 1) by lia. assert (Ea : aa = k) by lia.
  rewrite Eb, Ea. reflexivity.
Qed.

(** An integer of magnitude up to 2^53 is a double. *)
Lemma fl_int (k : Z) : 0 <= k <= 2 ^ 53 -> (fl (inject_Z k) == inject_Z k)%Q.
Proof.
  intros [H0 H1]. destruct (Z.eq_dec k 0) as [->|Hz]; [reflexivity|].
  assert (Hk : 1 <= k) by lia.
  unfold fl. rewrite Qred_inject_Z.
  assert (A : Qabs (inject_Z k) = inject_Z k).
  { unfold Qabs, inject_Z. rewrite Z.abs_eq by lia. reflexivity. }
  rewrite A.
  assert (E0 : Qeq_bool (inject_Z k) 0 = false).
  { destruct (Qeq_bool (inject_Z k) 0) eqn:E; [|reflexivity].
    apply Qeq_bool_iff in E. unfold Qeq in E. cbn in E. lia. }
  rewrite E0.
  assert (E1 : Qle_bool 0 (inject_Z k) = true).
  { apply Qle_bool_iff. change 0%Q with (inject_Z 0). rewrite <- Zle_Qle. lia. }
  rewrite E1, Qred_correct, (ilog2_Z k Hk).
  pose proof (Z.log2_nonneg k) as L0.
  assert (L1 : Z.log2 k <= 53).
  { change 53 with (Z.log2 (2 ^ 53)). apply Z.log2_le_mono. exact H1. }
  rewrite Z.max_l by lia.
  set (l := Z.log2 k) in *.
  destruct (Z_le_gt_dec l 52) as [L|L].
  - assert (P : (pow2 (l - 52) * pow2 (52 - l) == 1)%Q).
    { rewrite <- pow2_plus. replace (l - 52 + (52 - l)) with 0 by lia.
      reflexivity. }
    pose proof (pow2_pos (l - 52)) as Pu.
    assert (X : (inject_Z k / pow2 (l - 52) == inject_Z (k * 2 ^ (52 - l)))%Q).
    { rewrite inject_Z_mult, <- pow2_Z by lia.
      apply Qeq_sym. rewrite <- (Qmult_1_r (inject_Z k / pow2 (l - 52))).
      rewrite <- P. field. lra. }
    rewrite (roundHalfEven_int _ _ X).
    rewrite inject_Z_mult, <- pow2_Z by lia.
    rewrite <- (Qmult_1_r (inject_Z k)) at 2. rewrite <- P. ring.
  - assert (El : l = 53) by lia.
    assert (Ek : k = 2 ^ 53).
    { destruct (Z.log2_spec k) as [S1 _]; [lia|]. fold l in S1.
      rewrite El in S1. lia. }
    rewrite El, Ek. reflexivity.
Qed.

(** The double quotient of an integer below 2^53 by a divisor up to 1000
    lies on the same side of the integers as the exact quotient. *)
Lemma fl_div_between (a d : Z) :
  0 <= a < 2 ^ 53 -> 1 <= d <= 1000 ->
  (a mod d = 0 -> (fl (inject_Z a / inject_Z d) == inject_Z (a / d))%Q) /\
  (a mod d <> 0 ->
   (inject_Z (a / d) < fl (inject_Z a / inject_Z d)
    /\ fl (inject_Z a / inject_Z d) < inject_Z (a / d) + 1)%Q).
Proof.
  intros [A0 A1] [D0 D1].
  assert (Dq : (0 < inject_Z d)%Q).
  { change 0%Q with (inject_Z 0). rewrite <- Zlt_Qlt. lia. }
  pose proof (Z.div_mod a d ltac:(lia)) as DM.
  pose proof (Z.mod_pos_bound a d ltac:(lia)) as MB.
  assert (K0 : 0 <= a / d) by (apply Z.div_pos; lia).
  assert (Eq : (inject_Z a / inject_Z d
                == inject_Z (a / d) + inject_Z (a mod d) / inject_Z d)%Q).
  { rewrite DM at 1. rewrite inject_Z_plus, inject_Z_mult. field. lra. }
  split.
  - intros R. rewrite R in Eq.
    assert (E : (inject_Z a / inject_Z d == inject_Z (a / d))%Q).
    { rewrite Eq. change (inject_Z 0) with 0%Q. field. lra. }
    rewrite (fl_comp _ _ E). apply fl_int.
    split; [exact K0|].
    apply Z.le_trans with a; [|lia].
    apply Z.div_le_upper_bound; [lia|]. nia.
  - intros R.
    set (q := (inject_Z a / inject_Z d)%Q) in *.
    assert (R1 : (1 <= inject_Z (a mod d))%Q).
    { change 1%Q with (inject_Z 1). rewrite <- Zle_Qle. lia. }
    assert (R2 : (inject_Z (a mod d) <= inject_Z d - 1)%Q).
    { assert (X : (inject_Z (a mod d) <= inject_Z (d + - (1)))%Q)
        by (rewrite <- Zle_Qle; lia).
      rewrite inject_Z_plus in X. change (inject_Z (- (1))) with (- (1))%Q in X.
      lra. }
    assert (I : (0 < / inject_Z d)%Q) by (apply Qinv_lt_0_compat; exact Dq).
    assert (F1 : (/ inject_Z d <= inject_Z (a mod d) / inject_Z d)%Q).
    { unfold Qdiv. rewrite <- (Qmult_1_l (/ inject_Z d)) at 1.
      apply Qmult_le_compat_r; lra. }
    assert (F2 : (inject_Z (a mod d) / inject_Z d <= 1 - / inject_Z d)%Q).
    { assert (X : (1 - / inject_Z d == (inject_Z d - 1) / inject_Z d)%Q)
        by (field; lra).
      rewrite X. unfold Qdiv. apply Qmult_le_compat_r; lra. }
    assert (Qlo : (/ inject_Z d <= q)%Q).
    { assert (K : (0 <= inject_Z (a / d))%Q).
      { change 0%Q with (inject_Z 0). rewrite <- Zle_Qle. exact K0. }
      lra. }
    assert (N : (pow2 (-1022) <= q)%Q).
    { apply Qle_trans with (/ inject_Z d); [|exact Qlo].
      apply Qle_trans with (/ 1000)%Q; [vm_compute; discriminate|].
      apply Qle_shift_inv_l; [exact Dq|].
      assert (X : (/ 1000 * inject_Z d == inject_Z d / 1000)%Q) by field.
      rewrite X. apply Qle_shift_div_r; [reflexivity|].
      change (1 * 1000)%Q with (inject_Z 1000). rewrite <- Zle_Qle. lia. }
    pose proof (fl_error q N) as Er.
    assert (Qhi : (q * pow2 (-53) < / inject_Z d)%Q).
    { assert (Y : (q < inject_Z (2 ^ 53) / inject_Z d)%Q).
      { unfold q, Qdiv. apply Qmult_lt_compat_r; [exact I|].
        rewrite <- Zlt_Qlt. exact A1. }
      assert (P : (0 < pow2 (-53))%Q) by apply pow2_pos.
      assert (Z1 : (q * pow2 (-53)
                    < inject_Z (2 ^ 53) / inject_Z d * pow2 (-53))%Q)
        by (apply Qmult_lt_compat_r; assumption).
      assert (Z2 : (inject_Z (2 ^ 53) / inject_Z d * pow2 (-53)
                    == / inject_Z d)%Q).
      { assert (V : (inject_Z (2 ^ 53) * pow2 (-53) == 1)%Q) by reflexivity.
        rewrite <- (Qmult_1_l (/ inject_Z d)), <- V. field. lra. }
      lra. }
    apply Qabs_Qle_condition in Er. destruct Er as [E1 E2].
    split; lra.
Qed.

Lemma mathCeil_fl_div (a d : Z) :
  0 <= a < 2 ^ 53 -> 1 <= d <= 1000 ->
  Qceiling (fl (inject_Z a / inject_Z d)) = Qceiling (inject_Z a / inject_Z d).
Proof.
  intros Ha Hd. destruct (fl_div_between a d Ha Hd) as [B0 B1].
  assert (Dq : (0 < inject_Z d)%Q).
  { change 0%Q with (inject_Z 0). rewrite <- Zlt_Qlt. lia. }
  pose proof (Z.div_mod a d ltac:(lia)) as DM.
  pose proof (Z.mod_pos_bound a d ltac:(lia)) as MB.
  assert (Eq : (inject_Z a / inject_Z d
                == inject_Z (a / d) + inject_Z (a mod d) / inject_Z d)%Q).
  { rewrite DM at 1. rewrite inject_Z_plus, inject_Z_mult. field. lra. }
  destruct (Z.eq_dec (a mod d) 0) as [R|R].
  - rewrite (B0 R). rewrite R in Eq.
    assert (E : (inject_Z a / inject_Z d == inject_Z (a / d))%Q).
    { rewrite Eq. change (inject_Z 0) with 0%Q. field. lra. }
    rewrite E. reflexivity.
  - destruct (B1 R) as [L U].
    assert (C : forall x : Q,
               (inject_Z (a / d) < x)%Q -> (x <= inject_Z (a / d) + 1)%Q ->
               Qceiling x = a / d + 1).
    { intros x X1 X2.
      pose proof (Qle_ceiling x) as C1. pose proof (Qceiling_lt x) as C2.
      unfold Z.sub in C2. rewrite inject_Z_plus in C2.
      change (inject_Z (- (1))) with (- (1))%Q in C2.
      assert (G1 : a / d < Qceiling x) by (rewrite Zlt_Qlt; lra).
      assert (G2 : Qceiling x < a / d + 2).
      { rewrite Zlt_Qlt, inject_Z_plus.
        change (inject_Z 2) with 2%Q. lra. }
      lia. }
    rewrite (C _ L (Qlt_le_weak _ _ U)).
    symmetry. apply C.
    + assert (P : (0 < inject_Z (a mod d) / inject_Z d)%Q).
      { apply Qlt_shift_div_l; [exact Dq|].
        rewrite Qmult_0_l. change 0%Q with (inject_Z 0).
        rewrite <- Zlt_Qlt. lia. }
      lra.
    + assert (P : (inject_Z (a mod d) / inject_Z d <= 1)%Q).
      { apply Qle_shift_div_r; [exact Dq|].
        rewrite Qmult_1_l. rewrite <- Zle_Qle. lia. }
      lra.
Qed.

Lemma mathFloor_fl_div (a d : Z) :
  0 <= a < 2 ^ 53 -> 1 <= d <= 1000 ->
  Qfloor (fl (inject_Z a / inject_Z d)) = a / d.
Proof.
  intros Ha Hd. destruct (fl_div_between a d Ha Hd) as [B0 B1].
  destruct (Z.eq_dec (a mod d) 0) as [R|R].
  - rewrite (B0 R). apply Qfloor_Z.
  - destruct (B1 R) as [L U].
    pose proof (Qfloor_le (fl (inject_Z a / inject_Z d))) as F1.
    pose proof (Qlt_floor (fl (inject_Z a / inject_Z d))) as F2.
    rewrite inject_Z_plus in F2. change (inject_Z 1) with 1%Q in F2.
    assert (G1 : Qfloor (fl (inject_Z a / inject_Z d)) < a / d + 1).
    { rewrite Zlt_Qlt, inject_Z_plus. change (inject_Z 1) with 1%Q. lra. }
    assert (G2 : a / d - 1 < Qfloor (fl (inject_Z a / inject_Z d))).
    { rewrite Zlt_Qlt. unfold Z.sub. rewrite inject_Z_plus.
      change (inject_Z (- (1))) with (- (1))%Q. lra. }
    lia.
Qed.

(** Values of [fl]: one tenth; the ties at [2^53 + 1] and [2^53 + 3],
    which go to the even neighbour; 1.005; and below the normal range,
    where the doubles are the multiples of [2^(-1074)]. *)
Example fl_values :
  fl (1 # 10) = (3602879701896397 # 36028797018963968)%Q /\
  fl (inject_Z (2 ^ 53 + 1)) = inject_Z (2 ^ 53) /\
  fl (inject_Z (2 ^ 53 + 3)) = inject_Z (2 ^ 53 + 4) /\
  fl (1005 / 1000) = (1131529406376837 # 1125899906842624)%Q /\
  (fl (3 * pow2 (-1075)) == pow2 (-1073))%Q /\
  (fl (pow2 (-1075)) == 0)%Q /\
  (fl (- (1 # 10)) == - fl (1 # 10))%Q.
Proof. repeat split; vm_compute; reflexivity. Qed.

(** Printed integers, as [Number::toString] gives them. *)
Example toStringInt_values :
  toStringInt (2 ^ 53 + 2) = "9007199254740994"%string /\
  toStringInt (2 ^ 63) = "9223372036854776000"%string /\
  toStringInt (2 ^ 70) = "1.1805916207174113e+21"%string /\
  toStringInt 99999999999999991611392 = "1e+23"%string /\
  toStringInt 49999999999999995805696 = "5e+22"%string /\
  toStringInt (10 ^ 21) = "1e+21"%string /\
  toStringInt (- 42) = "-42"%string.
Proof. repeat split; vm_compute; reflexivity. Qed.

Lemma mathCeil_nonneg (x : Q) : (0 <= x)%Q -> 0 <= Js.mathCeil x.
Proof.
  intros H. unfold Js.mathCeil.
  change 0 with (Qceiling 0). apply Qceiling_resp_le. exact H.
Qed.

Lemma twoDigits_length (k : Z) : String.length (twoDigits k) = 2%nat.
Proof. reflexivity. Qed.

Lemma twoDigits_value (k : Z) :
  0 <= k < 100 -> decimalValue (twoDigits k) = Some k.
Proof. intros H. unfold decimalValue, twoDigits. now apply decimalValue_twoDigits. Qed.

Lemma mathRound_nonneg (x : Q) : (0 <= x)%Q -> 0 <= Js.mathRound x.
Proof.
  intros H. unfold Js.mathRound.
  change 0 with (Qfloor 0). apply Qfloor_resp_le. lra.
Qed.

Lemma mathRound_lower (x : Q) (k : Z) :
  (inject_Z k <= x)%Q -> k <= Js.mathRound x.
Proof.
  intros H. unfold Js.mathRound.
  rewrite <- (Qfloor_Z k) at 1. apply Qfloor_resp_le. lra.
Qed.

Lemma mathRound_upper (x : Q) (k : Z) :
  (x < inject_Z k)%Q -> Js.mathRound x <= k.
Proof.
  intros H. destruct (mathRound_nearest x) as [H1 _].
  destruct (Z_le_gt_dec (Js.mathRound x) k) as [L|G]; [exact L|].
  assert (Hk : k + 1 <= Js.mathRound x) by lia.
  rewrite Zle_Qle in Hk. rewrite inject_Z_plus in Hk.
  change (inject_Z 1) with 1%Q in Hk. lra.
Qed.

Lemma digits_length_three (n : Z) :
  100 <= n -> (3 <= String.length (Js.digits n))%nat.
Proof.
  intros H. rewrite digits_split2 by exact H. rewrite length_app.
  assert (0 <= n / 100) by (apply Z.div_pos; lia).
  pose proof (digits_length_pos (n / 100)). simpl. lia.
Qed.

(** [x % 360] for a non-negative [x] is the remainder of the floored
    division. *)
Lemma Qrem_360 (x : Q) :
  (0 <= x)%Q ->
  (0 <= Js.Qrem x 360 /\ Js.Qrem x 360 < 360)%Q /\
  (Js.Qrem x 360 == x - 360 * inject_Z (Qfloor (x / 360)))%Q.
Proof.
  intros Hx. unfold Js.Qrem.
  assert (Ht : (0 <= x / 360)%Q) by (apply Qle_shift_div_l; lra).
  unfold Js.Qtrunc. apply Qle_bool_iff in Ht as Hb. rewrite Hb.
  rewrite Qred_correct.
  pose proof (Qfloor_le (x / 360)) as H1.
  pose proof (Qlt_floor (x / 360)) as H2.
  rewrite inject_Z_plus in H2. change (inject_Z 1) with 1%Q in H2.
  assert (X : (x == x / 360 * 360)%Q) by field.
  remember (x / 360)%Q as t eqn:Et. clear Et Hb.
  remember (inject_Z (Qfloor t)) as f eqn:Ef. clear Ef.
  split; [split|]; lra.
Qed.

End JsFacts.

(** ** The countdown timer *)

Module TimerProofs.

Import Timer Spec JsFacts.

(** The seconds count of a whole number of milliseconds below 2^53 is at
    most that number. *)
Lemma seconds_bound (ms : Z) :
  0 <= ms -> 0 <= Js.mathCeil (inject_Z ms / 1000) <= ms.
Proof.
  intros H.
  assert (Q0 : (0 <= inject_Z ms / 1000)%Q).
  { apply Qle_shift_div_l; [reflexivity|]. rewrite Qmult_0_l.
    change 0%Q with (inject_Z 0). rewrite <- Zle_Qle. exact H. }
  split; [apply mathCeil_nonneg; exact Q0|].
  destruct (mathCeil_spec (inject_Z ms / 1000)) as [C1 _].
  assert (Q1 : (inject_Z ms / 1000 <= inject_Z ms)%Q).
  { apply Qle_shift_div_r; [reflexivity|].
    assert (M : (0 <= inject_Z ms)%Q)
      by (change 0%Q with (inject_Z 0); rewrite <- Zle_Qle; exact H).
    lra. }
  assert (L : Js.mathCeil (inject_Z ms / 1000) - 1 < ms).
  { rewrite Zlt_Qlt. unfold Z.sub. rewrite inject_Z_plus.
    change (inject_Z (- (1))) with (- (1))%Q. lra. }
  lia.
Qed.

(** The fields of [formatMMSS] for a whole number of milliseconds below
    2^53, in terms of the exact seconds count: both quotients, rounded to
    doubles, give the integers that the exact quotients give. *)
Lemma formatMMSS_fields (ms : Z) :
  0 <= ms < 2 ^ 53 ->
  formatMMSS (inject_Z ms) =
  (Js.padStart 2 "0" (Js.digits (Js.mathCeil (inject_Z ms / 1000) / 60)%Z)
   ++ ":" ++ twoDigits (Js.mathCeil (inject_Z ms / 1000) mod 60)%Z)%string.
Proof.
  intros Hms. unfold formatMMSS.
  assert (Ec : Js.mathCeil (Js.fl (inject_Z ms / 1000))
               = Js.mathCeil (inject_Z ms / 1000)).
  { unfold Js.mathCeil. change 1000%Q with (inject_Z 1000).
    apply mathCeil_fl_div; [exact Hms | lia]. }
  rewrite Ec.
  pose proof (seconds_bound ms (proj1 Hms)) as Hs.
  set (s := Js.mathCeil (inject_Z ms / 1000)) in *.
  assert (Hr : 0 <= s mod 60 < 60) by (apply Z.mod_pos_bound; lia).
  assert (Hm : 0 <= s / 60 <= s).
  { split; [apply Z.div_pos; lia|].
    apply Z.div_le_upper_bound; lia. }
  assert (Ef : Js.mathFloor (Js.fl (inject_Z s / 60)) = s / 60).
  { unfold Js.mathFloor. change 60%Q with (inject_Z 60).
    apply mathFloor_fl_div; lia. }
  rewrite Ef.
  rewrite Z.rem_mod_nonneg by lia.
  rewrite (toStringInt_plain (s / 60)) by lia.
  rewrite (toStringInt_plain (s mod 60)) by lia.
  rewrite (padStart2_digits (s mod 60)) by lia.
  assert (E : (s mod 60 <? 100) = true) by (apply Z.ltb_lt; lia).
  rewrite E. reflexivity.
Qed.

(** *** [startCountdown] *)

Example startCountdown_ten_minutes (now : Z) :
  startCountdown now now 10 = mkCountdown (Some (now + 600000)) 600000.
Proof.
  unfold startCountdown. change (Js.mathRound (10 * 60000)) with 600000.
  f_equal. lia.
Qed.

Example idle_before_start : App.phaseOf (mkCountdown None 0) = App.Idle.
Proof. reflexivity. Qed.

(** C2, as stated, fails: the lower bound that [Math.max(1, ...)] puts on
    the duration is one millisecond.  [startCountdown(0)] ends one
    millisecond after its start and [startCountdown(0.5)] thirty seconds
    after it, both less than a minute. *)
Lemma startCountdown_minute_floor_fails :
  endsAt (startCountdown 1000 1000 0) = Some (1000 + 1) /\
  endsAt (startCountdown 1000 1000 (1 # 2)) = Some (1000 + 30000) /\
  ~ (forall (now : Z) (minutes : Q) (e : Z),
        endsAt (startCountdown now now minutes) = Some e -> now + 60000 <= e).
Proof.
  split; [reflexivity|]. split; [reflexivity|].
  intros H. specialize (H 1000 0%Q 1001 eq_refl). lia.
Qed.

(** C2, amended.  [startCountdown(minutes)] returns
    [endsAt = now + max(1, round(minutes * 60000))]: the duration is the
    rounded number of milliseconds and is never below one millisecond.
    The state it returns is Running (end time set, time remaining) as long
    as the second clock read of the function comes before that end time,
    which it does when both reads return the same instant. *)
Theorem startCountdown_duration (now1 now2 : Z) (minutes : Q) :
  let d := Z.max 1 (Js.mathRound (minutes * 60000)) in
  startCountdown now1 now2 minutes
    = mkCountdown (Some (now1 + d)) (now1 + d - now2) /\
  1 <= d /\
  (0 <= now1 -> now2 < now1 + d ->
   App.phaseOf (startCountdown now1 now2 minutes) = App.Running).
Proof.
  intros d. split; [reflexivity|]. split; [lia|].
  intros Hnow Hlt. unfold App.phaseOf, startCountdown. fold d.
  cbn [endsAt remainingMs truthy].
  assert (E1 : (now1 + d =? 0) = false) by (apply Z.eqb_neq; lia).
  assert (E2 : (now1 + d - now2 <=? 0) = false) by (apply Z.leb_gt; lia).
  rewrite E1, E2. reflexivity.
Qed.

Lemma startCountdown_duration_witness :
  0 <= 1700000000000 /\
  1700000000000 < 1700000000000 + Z.max 1 (Js.mathRound (10 * 60000)) /\
  App.phaseOf (startCountdown 1700000000000 1700000000000 10) = App.Running.
Proof.
  split; [lia|]. split; [vm_compute; reflexivity|].
  apply (proj2 (proj2 (startCountdown_duration 1700000000000 1700000000000 10))).
  - lia.
  - vm_compute; reflexivity.
Defined.

(** *** [readCountdown] *)

Lemma readCountdown_nonneg (now : Z) (c : Countdown) :
  0 <= remainingMs (readCountdown now c).
Proof.
  unfold readCountdown.
  destruct (negb (truthy (endsAt c))); [simpl; lia|].
  destruct (endsAt c); simpl; lia.
Qed.

(** An end time of [0] is falsy and reads as "not running". *)
Lemma readCountdown_zero_endsAt (now r : Z) :
  readCountdown now (mkCountdown (Some 0) r) = mkCountdown None 0.
Proof. reflexivity. Qed.

(** C7.  For a countdown whose [endsAt] is set and every clock value
    [now], [readCountdown] returns [remainingMs = max(0, endsAt - now)],
    whatever [remainingMs] the state held before: the value is recomputed
    from the clock.  It is never negative, and it is [0] once [now] has
    reached [endsAt].  "Set" is the test the code makes, [endsAt] neither
    [null] nor [0]; an [endsAt] of [0] reads as not running, which gives the
    same [remainingMs] at every clock value from the epoch on. *)
Theorem readCountdown_recomputes (now e : Z) (c : Countdown) :
  endsAt c = Some e -> e <> 0 \/ 0 <= now ->
  remainingMs (readCountdown now c) = Z.max 0 (e - now) /\
  0 <= remainingMs (readCountdown now c) /\
  (e <= now -> remainingMs (readCountdown now c) = 0) /\
  (e <> 0 ->
   readCountdown now c = mkCountdown (Some e) (Z.max 0 (e - now))).
Proof.
  intros He Hset.
  assert (E : e <> 0 ->
              readCountdown now c = mkCountdown (Some e) (Z.max 0 (e - now))).
  { intros Hz. unfold readCountdown. rewrite He. cbn [truthy].
    apply Z.eqb_neq in Hz. rewrite Hz. reflexivity. }
  assert (R : remainingMs (readCountdown now c) = Z.max 0 (e - now)).
  { destruct (Z.eq_dec e 0) as [Hz | Hz].
    - subst e. unfold readCountdown. rewrite He. cbn. lia.
    - rewrite (E Hz). reflexivity. }
  rewrite R. repeat split; try lia. exact E.
Qed.

Lemma readCountdown_recomputes_witness :
  endsAt (mkCountdown (Some 600000) 77) = Some 600000 /\
  (600000 <> 0 \/ 0 <= 600500) /\
  remainingMs (readCountdown 600500 (mkCountdown (Some 600000) 77)) = 0 /\
  remainingMs (readCountdown 599000 (mkCountdown (Some 600000) 77)) = 1000.
Proof.
  assert (H : 600000 <> 0) by discriminate.
  split; [reflexivity|]. split; [left; exact H|]. split.
  - exact (proj1 (readCountdown_recomputes 600500 600000
                    (mkCountdown (Some 600000) 77) eq_refl (or_introl H))).
  - exact (proj1 (readCountdown_recomputes 599000 600000
                    (mkCountdown (Some 600000) 77) eq_refl (or_introl H))).
Defined.

(** *** [formatMMSS] *)

(** C8, as stated, fails for large counts.  At 142631754911635008 ms the
    quotient by 1000 is rounded to a double below the exact quotient: the
    text shows 55 seconds where the ceiling of [ms / 1000] has 56.  At
    [60000 * 2^70] ms the minutes, 2^70, are at least 10^21 and print in
    exponent notation, not as a decimal numeral.  Both counts are doubles. *)
Lemma formatMMSS_large_counts :
  0 <= 142631754911635008 /\
  Js.mathCeil (inject_Z 142631754911635008 / 1000) mod 60 = 56 /\
  formatMMSS (inject_Z 142631754911635008) = "2377195915193:55"%string /\
  0 <= 60000 * 2 ^ 70 /\
  formatMMSS (inject_Z (60000 * 2 ^ 70))
  = "1.1805916207174113e+21:00"%string /\
  decimalValue "1.1805916207174113e+21" = None.
Proof.
  split; [lia|]. split; [vm_compute; reflexivity|].
  split; [vm_compute; reflexivity|]. split; [lia|].
  split; vm_compute; reflexivity.
Qed.

Lemma padStart2_minutes (m : Z) :
  0 <= m ->
  Js.padStart 2 "0" (Js.digits m)
  = if m <? 10 then String "0" (Js.digits m) else Js.digits m.
Proof.
  intros H. destruct (m <? 10) eqn:E.
  - apply Z.ltb_lt in E. rewrite digits_small by lia. reflexivity.
  - apply Z.ltb_ge in E. apply padStart_long. apply digits_length_two. exact E.
Qed.

(** C8, amended.  For a whole number of milliseconds from 0 up to, not
    including, 2^53: the seconds count [s] is the ceiling of [ms / 1000],
    and the text is the minutes [s / 60], a colon and the seconds
    [s mod 60].  The seconds are two decimal digits.  The minutes are
    their decimal numeral without leading zeros, with one zero put before
    a single digit.  One millisecond shows as 00:01, not 00:00, and zero as
    00:00. *)
Theorem formatMMSS_ceiling_padded (ms : Z) :
  0 <= ms < 2 ^ 53 ->
  let s := Js.mathCeil (inject_Z ms / 1000) in
  (s - 1) * 1000 < ms <= s * 1000 /\
  (exists dm : string,
      formatMMSS (inject_Z ms)
      = ((if (s / 60 <? 10)%Z then String "0" dm else dm)
         ++ ":" ++ twoDigits (s mod 60)%Z)%string /\
      numeral dm (s / 60) /\
      decimalValue (twoDigits (s mod 60)) = Some (s mod 60) /\
      String.length (twoDigits (s mod 60)) = 2%nat) /\
  formatMMSS 1 = "00:01"%string /\
  formatMMSS 0 = "00:00"%string.
Proof.
  intros Hms s.
  pose proof (seconds_bound ms (proj1 Hms)) as Hs. fold s in Hs.
  assert (Hm : 0 <= s / 60) by (apply Z.div_pos; lia).
  assert (Hr : 0 <= s mod 60 < 60) by (apply Z.mod_pos_bound; lia).
  split; [|split; [|split; vm_compute; reflexivity]].
  - destruct (mathCeil_spec (inject_Z ms / 1000)) as [H1 H2]. fold s in H1, H2.
    assert (X : (inject_Z ms == inject_Z ms / 1000 * 1000)%Q) by field.
    split.
    + rewrite Zlt_Qlt, inject_Z_mult. unfold Z.sub. rewrite inject_Z_plus.
      change (inject_Z (- (1))) with (- (1))%Q.
      change (inject_Z 1000) with 1000%Q.
      clearbody s. remember (inject_Z ms / 1000)%Q as y eqn:Ey. clear Ey. lra.
    + rewrite Zle_Qle, inject_Z_mult. change (inject_Z 1000) with 1000%Q.
      clearbody s. remember (inject_Z ms / 1000)%Q as y eqn:Ey. clear Ey. lra.
  - exists (Js.digits (s / 60)).
    split.
    { rewrite (formatMMSS_fields ms Hms). fold s.
      rewrite (padStart2_minutes (s / 60) Hm). reflexivity. }
    split; [apply numeral_digits; exact Hm|].
    split; [apply twoDigits_value; lia | reflexivity].
Qed.

Lemma formatMMSS_ceiling_padded_witness :
  0 <= 90001 < 2 ^ 53 /\
  ((91 - 1) * 1000 < 90001 <= 91 * 1000) /\
  formatMMSS (inject_Z 90001) = "01:31"%string.
Proof.
  assert (H1 : 0 <= 90001 < 2 ^ 53) by (split; [lia | reflexivity]).
  split; [exact H1|]. split; [|vm_compute; reflexivity].
  exact (proj1 (formatMMSS_ceiling_padded 90001 H1)).
Defined.

End TimerProofs.

(** ** Distance formatting *)

Module GeoProofs.

Import Geo Spec JsFacts.

(** [toFixed(2)] of a value that rounds to one hundredth or more, below
    10^21: the digits of the hundredths count, with the point before the
    last two. *)
Lemma toFixed2_shape (x : Q) :
  (199 # 200 <= x)%Q -> (x < inject_Z (10 ^ 21))%Q ->
  Js.toFixed 2 x =
  (Js.digits (Js.mathRound (x * 100) / 100)%Z
   ++ String "." (twoDigits (Js.mathRound (x * 100) mod 100)%Z))%string.
Proof.
  intros H1 H2. unfold Js.toFixed.
  assert (E0 : Qle_bool 0 x = true) by (apply Qle_bool_iff; lra).
  rewrite E0. cbn [append].
  assert (Ea : (Qabs x == x)%Q) by (apply Qabs_pos; lra).
  assert (E1 : Qle_bool (inject_Z (10 ^ 21)) (Qabs x) = false).
  { apply Qle_bool_false. rewrite Ea. exact H2. }
  rewrite E1. cbn [Nat.eqb].
  change (10 ^ Z.of_nat 2) with 100.
  assert (En : Qfloor (Qabs x * inject_Z 100 + (1 # 2)) = Js.mathRound (x * 100)).
  { unfold Js.mathRound. apply Qfloor_comp. rewrite Ea. reflexivity. }
  rewrite En. clear En E1 E0 Ea.
  set (n := Js.mathRound (x * 100)).
  assert (Hn : 100 <= n).
  { unfold n, Js.mathRound. rewrite <- (Qfloor_Z 100) at 1.
    apply Qfloor_resp_le. change (inject_Z 100) with 100%Q. lra. }
  rewrite padStart_long by (apply digits_length_three; exact Hn).
  rewrite (digits_split2 n Hn).
  rewrite length_app. rewrite twoDigits_length.
  replace (String.length (Js.digits (n / 100)) + 2 - 2)%nat
    with (String.length (Js.digits (n / 100))) by lia.
  rewrite substring_prefix. do 2 f_equal.
  apply (substring_suffix (Js.digits (n / 100)) (twoDigits (n mod 100))).
Qed.

Lemma string_app_assoc (a b c : string) :
  ((a ++ b) ++ c = a ++ (b ++ c))%string.
Proof. apply JsFacts.app_assoc. Qed.

(** The kilometre value that the code computes: the double nearest to
    [meters / 1000]. *)
Lemma kilometres_close (meters : Q) :
  (1000 <= meters)%Q ->
  (Qabs (Js.fl (meters / 1000) - meters / 1000)
   <= meters / 1000 * Js.pow2 (-53))%Q.
Proof.
  intros H. apply fl_error.
  apply Qle_trans with 1%Q; [vm_compute; discriminate|].
  apply Qle_shift_div_l; [reflexivity | lra].
Qed.

(** C9, as stated, fails for large distances.  The double 1e24 is the
    number 999999999999999983222784; its quotient by 1000 is rounded to the
    double 10^21, which [toFixed] prints as [Number::toString] does: the
    text is "1e+21 km", without a decimal point and two decimal digits. *)
Lemma formatDistance_beyond_fixed_notation :
  (0 <= inject_Z 999999999999999983222784)%Q /\
  (Js.fl (inject_Z 999999999999999983222784 / 1000) == inject_Z (10 ^ 21))%Q /\
  formatDistance (inject_Z 999999999999999983222784)
  = "1e+21 km"%string /\
  ~ (exists ip fp : string,
        formatDistance (inject_Z 999999999999999983222784)
        = (ip ++ "." ++ fp ++ " km")%string).
Proof.
  split; [vm_compute; discriminate|]. split; [vm_compute; reflexivity|].
  assert (E : formatDistance (inject_Z 999999999999999983222784)
              = "1e+21 km"%string) by (vm_compute; reflexivity).
  split; [exact E|]. rewrite E. intros (ip & fp & H).
  repeat (destruct ip as [|? ip]; cbn [append] in H;
          [discriminate H | injection H as _ H]).
  destruct ip; discriminate H.
Qed.

(** C9, amended.  For a non-negative distance: below 1000 m the text is
    the nearest integer number of metres followed by " m".  From 1000 m on
    the kilometre value is the double nearest to [meters / 1000]; as long
    as that is below 10^21, which it is for every distance up to 10^23 m,
    the text is the kilometre value rounded to hundredths, printed as
    integer part, point and exactly two digits, followed by " km".  At the
    boundary: 999 gives "999 m", 1000 gives "1.00 km", 1500 gives
    "1.50 km".  The hundredths are those of the double: 1005 gives
    "1.00 km", the double nearest to 1.005 being below it. *)
Theorem formatDistance_units (meters : Q) :
  (0 <= meters)%Q ->
  ((meters < 1000)%Q ->
   let r := Js.mathRound meters in
   (inject_Z r - (1 # 2) <= meters /\ meters < inject_Z r + (1 # 2))%Q /\
   exists ds : string,
     formatDistance meters = (ds ++ " m")%string /\
     numeral ds r) /\
  ((1000 <= meters)%Q ->
   let km := Js.fl (meters / 1000) in
   (Qabs (km - meters / 1000) <= meters / 1000 * Js.pow2 (-53))%Q /\
   ((meters <= inject_Z (10 ^ 23))%Q -> (km < inject_Z (10 ^ 21))%Q) /\
   ((km < inject_Z (10 ^ 21))%Q ->
    exists (n : Z) (ip fp : string),
      (inject_Z n - (1 # 2) <= km * 100
       /\ km * 100 < inject_Z n + (1 # 2))%Q /\
      formatDistance meters = (ip ++ "." ++ fp ++ " km")%string /\
      numeral ip (n / 100) /\
      decimalValue fp = Some (n mod 100) /\
      String.length fp = 2%nat)) /\
  formatDistance 999 = "999 m"%string /\
  formatDistance 1000 = "1.00 km"%string /\
  formatDistance 1500 = "1.50 km"%string /\
  formatDistance 1005 = "1.00 km"%string.
Proof.
  intros H0.
  split; [|split; [|repeat split; vm_compute; reflexivity]].
  - intros Hlt r. split; [apply mathRound_nearest|].
    exists (Js.digits r). unfold formatDistance.
    assert (E : Js.Qlt_bool meters 1000 = true) by (apply Qlt_bool_iff; exact Hlt).
    rewrite E. fold r.
    assert (Hr0 : 0 <= r) by (apply mathRound_nonneg; exact H0).
    assert (Hr1 : r <= 1000).
    { apply mathRound_upper. change (inject_Z 1000) with 1000%Q. exact Hlt. }
    rewrite toStringInt_plain by lia.
    split; [reflexivity | apply numeral_digits; exact Hr0].
  - intros Hge km.
    pose proof (kilometres_close meters Hge) as Er. fold km in Er.
    assert (Hq : (1 <= meters / 1000)%Q) by (apply Qle_shift_div_l; lra).
    assert (P1 : (0 < Js.pow2 (-53))%Q) by apply pow2_pos.
    assert (P2 : (Js.pow2 (-53) <= 1 # 200)%Q) by (vm_compute; discriminate).
    apply Qabs_Qle_condition in Er. destruct Er as [Er1 Er2].
    split; [apply Qabs_Qle_condition; split; assumption|].
    set (q := (meters / 1000)%Q) in *.
    assert (M : (q * Js.pow2 (-53) <= q * (1 # 200))%Q)
      by (apply Qmult_le_l; lra).
    split.
    + intros Hb.
      assert (B : (q <= inject_Z (10 ^ 20))%Q).
      { unfold q. apply Qle_shift_div_r; [reflexivity|].
        assert (X : (inject_Z (10 ^ 20) * 1000 == inject_Z (10 ^ 23))%Q)
          by reflexivity.
        rewrite X. exact Hb. }
      assert (T : (inject_Z (10 ^ 20) * 2 < inject_Z (10 ^ 21))%Q)
        by (vm_compute; reflexivity).
      lra.
    + intros Hrange. set (n := Js.mathRound (km * 100)).
      exists n, (Js.digits (n / 100)), (twoDigits (n mod 100)).
      split; [apply mathRound_nearest|].
      unfold formatDistance.
      assert (E : Js.Qlt_bool meters 1000 = false)
        by (apply Qlt_bool_false; exact Hge).
      rewrite E. fold q. fold km.
      assert (Hkm : (199 # 200 <= km)%Q) by lra.
      rewrite (toFixed2_shape km Hkm Hrange). fold n.
      assert (Hn : 100 <= n).
      { unfold n, Js.mathRound. rewrite <- (Qfloor_Z 100) at 1.
        apply Qfloor_resp_le. change (inject_Z 100) with 100%Q. lra. }
      split; [|split; [|split]].
      * rewrite string_app_assoc. reflexivity.
      * apply numeral_digits. apply Z.div_pos; lia.
      * apply twoDigits_value. apply Z.mod_pos_bound. lia.
      * reflexivity.
Qed.

Lemma formatDistance_units_witness :
  (0 <= 2469 # 2)%Q /\ (1000 <= 2469 # 2)%Q /\
  (Js.fl ((2469 # 2) / 1000) < inject_Z (10 ^ 21))%Q /\
  (exists (n : Z) (ip fp : string),
      (inject_Z n - (1 # 2) <= Js.fl ((2469 # 2) / 1000) * 100
       /\ Js.fl ((2469 # 2) / 1000) * 100 < inject_Z n + (1 # 2))%Q /\
      formatDistance (2469 # 2) = (ip ++ "." ++ fp ++ " km")%string /\
      numeral ip (n / 100) /\
      decimalValue fp = Some (n mod 100) /\
      String.length fp = 2%nat) /\
  formatDistance (2469 # 2) = "1.23 km"%string.
Proof.
  assert (H0 : (0 <= 2469 # 2)%Q) by (vm_compute; discriminate).
  assert (H1 : (1000 <= 2469 # 2)%Q) by (vm_compute; discriminate).
  assert (H2 : (Js.fl ((2469 # 2) / 1000) < inject_Z (10 ^ 21))%Q)
    by (vm_compute; reflexivity).
  split; [exact H0|]. split; [exact H1|]. split; [exact H2|].
  split; [|vm_compute; reflexivity].
  exact (proj2 (proj2 (proj1 (proj2 (formatDistance_units (2469 # 2) H0)) H1))
           H2).
Defined.

End GeoProofs.

(** ** The heading source *)

Module CompassProofs.

Import Js Compass Spec.

(** *** Heading normalisation *)

Example reading_direct_37 (a : value) :
  reading (mkOrientationEvent (VNum (Fin 37)) a)
  = mkHeadingState (Some (Fin 37)) false None.
Proof. reflexivity. Qed.

Example reading_alpha_37 :
  reading (mkOrientationEvent VUndefined (VNum (Fin 37)))
  = mkHeadingState (Some (Fin 323)) false None.
Proof. reflexivity. Qed.

Example reading_neither :
  reading (mkOrientationEvent VUndefined VNull) = noHeadingData.
Proof. reflexivity. Qed.

(** C3, as stated, fails where a field is infinite: the handler tests
    [typeof x === "number" && !Number.isNaN(x)], which an infinity passes.
    An infinite direct heading is emitted as it is although [alpha] is
    finite, and an infinite [alpha] yields the heading [NaN] instead of
    the "No heading data" reading. *)
Lemma reading_infinite_field_counterexample :
  let ev1 := mkOrientationEvent (VNum PosInf) (VNum (Fin 37)) in
  let ev2 := mkOrientationEvent VUndefined (VNum PosInf) in
  reading ev1 = mkHeadingState (Some PosInf) false None /\
  readingAsSpecified ev1 = mkHeadingState (Some (Fin 323)) false None /\
  reading ev2 = mkHeadingState (Some NaN) false None /\
  readingAsSpecified ev2 = noHeadingData /\
  ~ (forall ev, reading ev = readingAsSpecified ev).
Proof.
  repeat split. intros H.
  specialize (H (mkOrientationEvent (VNum PosInf) (VNum (Fin 37)))).
  discriminate H.
Qed.

Lemma numberNotNaN_some (v : value) (n : num) :
  v = VNum n -> n <> NaN -> numberNotNaN v = Some n.
Proof. intros -> H. destruct n; [reflexivity | contradiction | reflexivity ..]. Qed.

Lemma numberNotNaN_none (v : value) :
  (forall n, v = VNum n -> n = NaN) -> numberNotNaN v = None.
Proof.
  intros H. destruct v as [| | b | s | n]; try reflexivity.
  rewrite (H n eq_refl). reflexivity.
Qed.

(** C3, amended.  The fallback is ordered as stated, with the test the
    handler makes: a field counts when it is a number other than [NaN].
    A direct heading that counts is emitted as it is (37 gives 37);
    otherwise an [alpha] that counts gives [(360 - alpha) % 360] (37 gives
    323); otherwise the reading is [{heading: null, error: "No heading
    data"}].  On events without an infinite field this is the fallback on
    finite numbers that the specification words describe. *)
Theorem reading_fallback_order (ev : OrientationEvent) :
  (forall h, webkitCompassHeading ev = VNum h -> h <> NaN ->
     reading ev = mkHeadingState (Some h) false None) /\
  ((forall h, webkitCompassHeading ev = VNum h -> h = NaN) ->
   forall a, alpha ev = VNum a -> a <> NaN ->
     reading ev
     = mkHeadingState (Some (rem (sub (Fin 360) a) (Fin 360))) false None) /\
  ((forall h, webkitCompassHeading ev = VNum h -> h = NaN) ->
   (forall a, alpha ev = VNum a -> a = NaN) ->
     reading ev = noHeadingData) /\
  (webkitCompassHeading ev <> VNum PosInf ->
   webkitCompassHeading ev <> VNum NegInf ->
   alpha ev <> VNum PosInf -> alpha ev <> VNum NegInf ->
     reading ev = readingAsSpecified ev).
Proof.
  split; [|split; [|split]].
  - intros h Hh Hn. unfold reading.
    rewrite (numberNotNaN_some _ h Hh Hn). reflexivity.
  - intros Hd a Ha Hn. unfold reading.
    rewrite (numberNotNaN_none _ Hd), (numberNotNaN_some _ a Ha Hn).
    reflexivity.
  - intros Hd Ha. unfold reading.
    rewrite (numberNotNaN_none _ Hd), (numberNotNaN_none _ Ha). reflexivity.
  - intros H1 H2 H3 H4. destruct ev as [d a]. cbn in H1, H2, H3, H4.
    unfold reading, readingAsSpecified; cbn.
    destruct d as [| | b | s | [q| | |]]; cbn; try congruence;
      destruct a as [| | b' | s' | [q'| | |]]; cbn; congruence.
Qed.

Lemma reading_fallback_order_witness :
  let ev := mkOrientationEvent (VNum NaN) (VNum (Fin (75 # 2))) in
  (forall h, webkitCompassHeading ev = VNum h -> h = NaN) /\
  alpha ev = VNum (Fin (75 # 2)) /\ Fin (75 # 2) <> NaN /\
  reading ev = mkHeadingState (Some (Fin (645 # 2))) false None.
Proof.
  intros ev.
  assert (Hd : forall h, webkitCompassHeading ev = VNum h -> h = NaN)
    by (intros h H; injection H as <-; reflexivity).
  assert (Hn : Fin (75 # 2) <> NaN) by discriminate.
  split; [exact Hd|]. split; [reflexivity|]. split; [exact Hn|].
  exact (proj1 (proj2 (reading_fallback_order ev)) Hd (Fin (75 # 2)) eq_refl Hn).
Defined.

(** For [alpha] in its documented range the converted heading is the
    clockwise angle in [0, 360). *)
Lemma reading_alpha_in_range (d : value) (a : Q) :
  (forall h, d = VNum h -> h = NaN) ->
  (0 <= a)%Q -> (a <= 360)%Q ->
  exists r : Q,
    reading (mkOrientationEvent d (VNum (Fin a)))
    = mkHeadingState (Some (Fin r)) false None /\
    (0 <= r)%Q /\ (r < 360)%Q /\
    (r == 360 - a \/ (a == 0 /\ r == 0))%Q.
Proof.
  intros Hd H0 H1. exists (Qrem (Qred (360 - a)) 360).
  split.
  - unfold reading. cbn [webkitCompassHeading alpha].
    rewrite (numberNotNaN_none _ Hd). reflexivity.
  - assert (Hx : (0 <= Qred (360 - a))%Q) by (rewrite Qred_correct; lra).
    destruct (JsFacts.Qrem_360 _ Hx) as [[R0 R1] R2].
    split; [exact R0|]. split; [exact R1|].
    pose proof (Qfloor_le (Qred (360 - a) / 360)) as F1.
    pose proof (Qlt_floor (Qred (360 - a) / 360)) as F2.
    rewrite inject_Z_plus in F2. change (inject_Z 1) with 1%Q in F2.
    assert (X : (Qred (360 - a) == Qred (360 - a) / 360 * 360)%Q) by field.
    pose proof (Qred_correct (360 - a)) as C.
    remember (Qred (360 - a)) as x eqn:Ex. clear Ex.
    remember (x / 360)%Q as t eqn:Et. clear Et.
    destruct (Z_le_gt_dec (Qfloor t) 0) as [L|G].
    + assert (Qfloor t = 0).
      { assert (0 <= Qfloor t); [|lia].
        change 0 with (Qfloor 0). apply Qfloor_resp_le. lra. }
      rewrite H in R2. change (inject_Z 0) with 0%Q in R2. left. lra.
    + assert (HG : 1 <= Qfloor t) by lia.
      rewrite Zle_Qle in HG. change (inject_Z 1) with 1%Q in HG.
      right. split; lra.
Qed.

(** *** Stopping *)

Lemma handler_inactive (ev : OrientationEvent) (l : Listener) :
  active l = false -> handler ev l = l.
Proof. intros H. unfold handler. rewrite H. reflexivity. Qed.

Lemma step_stopped (l : Listener) (a : action) :
  step (stop l) a = stop l.
Proof. destruct a as [ev | ev |]; reflexivity. Qed.

Lemma run_stopped (l : Listener) (acts : list action) :
  run (stop l) acts = stop l.
Proof.
  unfold run. induction acts as [|a acts IH]; simpl.
  - reflexivity.
  - rewrite step_stopped. exact IH.
Qed.

Example handler_delivers_while_active (ev : OrientationEvent) :
  updates (run startCompass [Dispatch ev]) = [reading ev].
Proof. reflexivity. Qed.

(** C6.  The stop function is idempotent, and from its first call on the
    listener stays as that call left it whatever comes next: a dispatched
    event, an event already in flight that still reaches the handler, or
    another stop.  No call of [onUpdate] is added, and the listener stays
    inactive and unregistered.  This holds from every state, also one
    whose listener was already removed. *)
Theorem stop_idempotent_and_final (l : Listener) (before after : list action) :
  stop (stop l) = stop l /\
  run l (before ++ Stop :: after) = stop (run l before) /\
  updates (run l (before ++ Stop :: after)) = updates (run l before) /\
  active (run l (before ++ Stop :: after)) = false /\
  registered (run l (before ++ Stop :: after)) = false.
Proof.
  assert (E : run l (before ++ Stop :: after) = stop (run l before)).
  { unfold run. rewrite fold_left_app. cbn [fold_left step].
    apply run_stopped. }
  rewrite E. repeat split.
Qed.

End CompassProofs.

(** ** Navigation fusion and position acquisition *)

Module AppProofs.

Import Js App Spec JsFacts.

(** *** [arrowRotation] *)

(** With a finite heading no larger than [bearing + 360], the rotation is
    the angle from the heading to the bearing, brought into [0, 360). *)
Lemma arrowRotation_in_range (bearing : Z) (h : Q) :
  (h <= inject_Z bearing + 360)%Q ->
  exists r : Q,
    arrowRotation (Some bearing) (Some (Fin h)) = Fin r /\
    (0 <= r)%Q /\ (r < 360)%Q /\
    exists k : Z, (r == inject_Z bearing - h + 360 * inject_Z k)%Q.
Proof.
  intros Hh.
  exists (Qrem (Qred (Qred (inject_Z bearing - h) + 360)) 360).
  split; [reflexivity|].
  assert (C : (Qred (Qred (inject_Z bearing - h) + 360)
               == inject_Z bearing - h + 360)%Q)
    by (rewrite !Qred_correct; reflexivity).
  assert (Hx : (0 <= Qred (Qred (inject_Z bearing - h) + 360))%Q)
    by (rewrite C; lra).
  destruct (Qrem_360 _ Hx) as [[R0 R1] R2].
  split; [exact R0|]. split; [exact R1|].
  exists (1 - Qfloor (Qred (Qred (inject_Z bearing - h) + 360) / 360)).
  unfold Z.sub. rewrite inject_Z_plus, inject_Z_opp.
  change (inject_Z 1) with 1%Q. lra.
Qed.

(** C4.  For an integer bearing in [0, 360): without a heading the arrow
    rotation is the bearing; with a heading it is
    [(bearing - heading + 360) % 360], whatever the heading.  For a finite
    heading up to [bearing + 360], so for every heading below 360, that
    is the angle in [0, 360) that differs from [bearing - heading] by whole
    turns.  In particular (90, null) gives 90, (90, 45) gives 45 and
    (10, 350) gives 20. *)
Theorem arrowRotation_fusion (bearing : Z) :
  0 <= bearing < 360 ->
  arrowRotation (Some bearing) None = Fin (inject_Z bearing) /\
  (forall heading : num,
      arrowRotation (Some bearing) (Some heading)
      = rem (add (sub (Fin (inject_Z bearing)) heading) (Fin 360)) (Fin 360)) /\
  (forall h : Q, (h <= inject_Z bearing + 360)%Q ->
      exists r : Q,
        arrowRotation (Some bearing) (Some (Fin h)) = Fin r /\
        (0 <= r)%Q /\ (r < 360)%Q /\
        exists k : Z, (r == inject_Z bearing - h + 360 * inject_Z k)%Q) /\
  arrowRotation (Some 90) None = Fin 90 /\
  arrowRotation (Some 90) (Some (Fin 45)) = Fin 45 /\
  arrowRotation (Some 10) (Some (Fin 350)) = Fin 20.
Proof.
  intros [Hb0 Hb1].
  split; [reflexivity|]. split; [reflexivity|].
  split; [|repeat split].
  intros h Hh. apply arrowRotation_in_range. exact Hh.
Qed.

Lemma arrowRotation_fusion_witness :
  0 <= 10 < 360 /\
  arrowRotation (Some 10) None = Fin 10 /\
  arrowRotation (Some 10) (Some (Fin (3505 # 10))) = Fin (39 # 2).
Proof.
  assert (H : 0 <= 10 < 360) by lia.
  split; [exact H|]. split.
  - exact (proj1 (arrowRotation_fusion 10 H)).
  - exact (proj1 (proj2 (arrowRotation_fusion 10 H)) (Fin (3505 # 10))).
Defined.

(** *** [getBestPosition] *)

(** The success callback has three outcomes: accurate enough, late, or
    neither. *)
Ltac onPosition_cases :=
  unfold onPosition;
  match goal with
  | |- context [Qle_bool ?acc ?desired] => destruct (Qle_bool acc desired)
  end;
  [| match goal with
     | |- context [Z.ltb ?wait ?elapsed] => destruct (Z.ltb wait elapsed)
     end ].

Section Run.

Variables (o : Options) (start : Z).

Lemma onPosition_best (now : Z)
    (pos : GeolocationPosition) (a : Acquisition) :
  best (onPosition o start now pos a) = Some (keepBest (best a) pos).
Proof.
  unfold keepBest. onPosition_cases;
    cbn [best]; destruct (best a) as [b|]; try reflexivity;
    destruct (Qlt_bool (accuracyOf pos) (accuracyOf b)); reflexivity.
Qed.

Lemma onPosition_waiting (s : Z * GeolocationPosition) (a : Acquisition) :
  keepsWaiting o start s ->
  onPosition o start (fst s) (snd s) a
  = mkAcquisition (Some (keepBest (best a) (snd s))) (watching a) (result a).
Proof.
  intros [Hacc Htime].
  pose proof (onPosition_best (fst s) (snd s) a) as Hb.
  unfold onPosition in *.
  apply Qle_bool_false in Hacc. rewrite Hacc in *.
  assert (E : (maxWaitMs o <? fst s - start) = false) by (apply Z.ltb_ge; lia).
  rewrite E in *. cbn [best] in Hb. rewrite Hb. reflexivity.
Qed.

Lemma onPosition_accurate (now : Z)
    (pos : GeolocationPosition) (a : Acquisition) :
  (accuracyOf pos <= desiredAccuracyM o)%Q ->
  onPosition o start now pos a
  = mkAcquisition (Some (keepBest (best a) pos)) false
      (settle (result a) (Resolved pos)).
Proof.
  intros Hacc.
  pose proof (onPosition_best now pos a) as Hb.
  unfold onPosition in *.
  apply Qle_bool_iff in Hacc. rewrite Hacc in *.
  cbn [best] in Hb. rewrite Hb. reflexivity.
Qed.

Lemma onPosition_late (now : Z)
    (pos : GeolocationPosition) (a : Acquisition) :
  (desiredAccuracyM o < accuracyOf pos)%Q -> maxWaitMs o < now - start ->
  onPosition o start now pos a
  = mkAcquisition (Some (keepBest (best a) pos)) false
      (settle (result a) (Resolved (keepBest (best a) pos))).
Proof.
  intros Hacc Htime.
  pose proof (onPosition_best now pos a) as Hb.
  unfold onPosition in *.
  apply Qle_bool_false in Hacc. rewrite Hacc in *.
  apply Z.ltb_lt in Htime. rewrite Htime in *.
  cbn [best] in Hb. rewrite Hb. reflexivity.
Qed.

(** After [clearWatch] nothing is delivered. *)
Lemma deliver_cleared (a : Acquisition)
    (events : list event) :
  watching a = false -> fold_left (deliver o start) events a = a.
Proof.
  intros H. induction events as [|e events IH]; simpl.
  - reflexivity.
  - unfold deliver at 2. rewrite H. exact IH.
Qed.

Lemma bestSeen_snoc (l : list GeolocationPosition) (pos : GeolocationPosition) :
  bestSeen (l ++ [pos]) = Some (keepBest (bestSeen l) pos).
Proof. unfold bestSeen. rewrite fold_left_app. reflexivity. Qed.

(** While the samples keep the acquisition waiting, the promise is pending
    and [best] is the best of the samples seen. *)
Lemma waiting_state (pre : list (Z * GeolocationPosition)) :
  Forall (keepsWaiting o start) pre ->
  getBestPosition true o start (positions pre)
  = mkAcquisition (bestSeen (map snd pre)) true Pending.
Proof.
  unfold getBestPosition. cbn [negb].
  induction pre as [|s pre IH] using rev_ind; intros H.
  - reflexivity.
  - apply Forall_app in H as [Hpre Hs]. inversion Hs as [|? ? Hw _]; subst.
    unfold positions in *. rewrite map_app, fold_left_app, (IH Hpre).
    cbn [map fold_left]. unfold deliver. cbn [watching].
    rewrite onPosition_waiting by exact Hw.
    rewrite map_app. cbn [map]. rewrite bestSeen_snoc. reflexivity.
Qed.

Lemma bestSeen_nonempty (l : list GeolocationPosition) :
  l <> [] -> exists b, bestSeen l = Some b.
Proof.
  destruct l as [|p l] using rev_ind; [congruence|].
  intros _. rewrite bestSeen_snoc. eexists. reflexivity.
Qed.

Lemma bestSeen_nil_inv (l : list GeolocationPosition) :
  bestSeen l = None -> l = [].
Proof.
  intros H. destruct l as [|p l]; [reflexivity|].
  destruct (bestSeen_nonempty (p :: l)) as [b Hb]; congruence.
Qed.

Lemma bestSeen_earliestBest (l : list GeolocationPosition) :
  forall b, bestSeen l = Some b -> earliestBest b l.
Proof.
  induction l as [|p l IH] using rev_ind; intros b Hb.
  - discriminate Hb.
  - rewrite bestSeen_snoc in Hb. injection Hb as Hb.
    destruct (bestSeen l) as [b0|] eqn:E.
    + destruct (IH b0 eq_refl) as (l1 & l2 & Hl & H1 & H2).
      unfold keepBest in Hb.
      destruct (Qlt_bool (accuracyOf p) (accuracyOf b0)) eqn:C; subst b.
      * apply Qlt_bool_iff in C.
        exists l, []. split; [reflexivity|]. split; [|constructor].
        rewrite Hl. apply Forall_app. split.
        -- eapply Forall_impl; [|exact H1]. cbn. intros s Hs. lra.
        -- constructor; [exact C|].
           eapply Forall_impl; [|exact H2]. cbn. intros s Hs. lra.
      * apply Qlt_bool_false in C.
        exists l1, (l2 ++ [p]). split.
        -- rewrite Hl, <- List.app_assoc. reflexivity.
        -- split; [exact H1|]. apply Forall_app. split; [exact H2|].
           constructor; [exact C | constructor].
    + apply bestSeen_nil_inv in E. subst l. cbn in Hb. subst b.
      exists [], []. repeat split; constructor.
Qed.

Lemma earliestBest_In (b : GeolocationPosition) (l : list GeolocationPosition) :
  earliestBest b l ->
  In b l /\ Forall (fun s => (accuracyOf b <= accuracyOf s)%Q) l.
Proof.
  intros (l1 & l2 & -> & H1 & H2). split.
  - apply in_or_app. right. left. reflexivity.
  - apply Forall_app. split.
    + eapply Forall_impl; [|exact H1]. cbn. intros s Hs. lra.
    + constructor; [lra | exact H2].
Qed.

(** The first sample that is accurate enough settles the call. *)
Lemma accurate_resolves (pre : list (Z * GeolocationPosition))
    (now : Z) (pos : GeolocationPosition) (post : list event) :
  Forall (keepsWaiting o start) pre ->
  (accuracyOf pos <= desiredAccuracyM o)%Q ->
  getBestPosition true o start (positions pre ++ Position now pos :: post)
  = mkAcquisition (bestSeen (map snd pre ++ [pos])) false (Resolved pos).
Proof.
  intros Hpre Hacc.
  pose proof (waiting_state pre Hpre) as W.
  unfold getBestPosition in *. cbn [negb] in *.
  rewrite fold_left_app, W. cbn [fold_left].
  unfold deliver at 2. cbn [watching].
  rewrite onPosition_accurate by exact Hacc. cbn [best result settle].
  rewrite deliver_cleared by reflexivity.
  rewrite bestSeen_snoc. reflexivity.
Qed.

(** The first sample that arrives after the wait is over settles the call
    with the best position seen. *)
Lemma late_resolves (pre : list (Z * GeolocationPosition))
    (now : Z) (pos : GeolocationPosition) (post : list event) :
  Forall (keepsWaiting o start) pre ->
  (desiredAccuracyM o < accuracyOf pos)%Q -> maxWaitMs o < now - start ->
  exists b,
    bestSeen (map snd pre ++ [pos]) = Some b /\
    getBestPosition true o start (positions pre ++ Position now pos :: post)
    = mkAcquisition (Some b) false (Resolved b).
Proof.
  intros Hpre Hacc Htime.
  exists (keepBest (bestSeen (map snd pre)) pos).
  split; [apply bestSeen_snoc|].
  pose proof (waiting_state pre Hpre) as W.
  unfold getBestPosition in *. cbn [negb] in *.
  rewrite fold_left_app, W. cbn [fold_left].
  unfold deliver at 2. cbn [watching].
  rewrite onPosition_late by assumption. cbn [best result settle].
  apply deliver_cleared. reflexivity.
Qed.

Lemma deliver_live (a : Acquisition) (e : event) :
  live a -> live (deliver o start a e).
Proof.
  intros H. unfold deliver.
  destruct (watching a) eqn:W; [|exact H].
  assert (P : result a = Pending) by (apply H; exact W).
  destruct e as [now pos | now err].
  - onPosition_cases;
      unfold live; cbn [watching result]; rewrite ?P, ?W; cbn [settle];
      split; congruence.
  - unfold onError, live. cbn [watching result]. rewrite P. cbn [settle].
    split; congruence.
Qed.

Lemma run_live (events : list event) :
  forall a, live a -> live (fold_left (deliver o start) events a).
Proof.
  induction events as [|e events IH]; intros a H; simpl.
  - exact H.
  - apply IH. apply deliver_live. exact H.
Qed.

Lemma initial_live : live (mkAcquisition None true Pending).
Proof. split; reflexivity. Qed.

(** A callback rejects only in the error callback, with its error. *)
Lemma deliver_rejected (a : Acquisition) (e : event)
    (r : rejection) :
  result (deliver o start a e) = Rejected r ->
  result a = Rejected r \/
  exists now err, r = WatchError err /\ e = Failure now err.
Proof.
  unfold deliver. destruct (watching a); [|auto].
  destruct e as [now pos | now err].
  - onPosition_cases;
      cbn [result]; destruct (result a); cbn [settle];
      intros H; try discriminate H; auto.
  - unfold onError. cbn [result]. destruct (result a); cbn [settle];
      intros H; try discriminate H; auto.
    injection H as <-. right. exists now, err. auto.
Qed.

Lemma run_rejected (events : list event) (r : rejection) :
  forall a,
    result (fold_left (deliver o start) events a) = Rejected r ->
    result a = Rejected r \/
    exists now err, r = WatchError err /\ In (Failure now err) events.
Proof.
  induction events as [|e events IH]; intros a H; simpl in H.
  - left. exact H.
  - destruct (IH _ H) as [H1 | (now & err & -> & Hin)].
    + destruct (deliver_rejected _ _ _ H1) as [H2 | (now & err & -> & ->)].
      * left. exact H2.
      * right. exists now, err. split; [reflexivity | left; reflexivity].
    + right. exists now, err. split; [reflexivity | right; exact Hin].
Qed.

End Run.

(** *** The claims on [getBestPosition] *)

(** A first sample of accuracy 10 with [desiredAccuracyM = 25] settles
    the call at once, whatever follows. *)
Example first_sample_accurate (now : Z) (post : list event) :
  result (getBestPosition true defaultOptions 0
            (Position now (pos_with 10) :: post))
  = Resolved (pos_with 10).
Proof.
  unfold getBestPosition. cbn [negb fold_left].
  rewrite deliver_cleared; reflexivity.
Qed.

(** Accuracies 80, 50, 60, the last sample after the wait: the call
    settles with the middle one, neither the first nor the last. *)
Example best_is_not_first_or_last :
  result (getBestPosition true defaultOptions 0
            [Position 1000 (pos_with 80);
             Position 2000 (pos_with 50);
             Position 12001 (pos_with 60)])
  = Resolved (pos_with 50).
Proof. reflexivity. Qed.

(** A sample of unknown accuracy counts as 99999 metres: any reading
    below that replaces it. *)
Example unknown_accuracy_is_replaced :
  result (getBestPosition true defaultOptions 0
            [Position 1000 pos_unknown;
             Position 12001 (pos_with 5000)])
  = Resolved (pos_with 5000).
Proof. reflexivity. Qed.

(** Without a sample after the wait is over the call stays pending: the
    wait is checked in the success callback only. *)
Example pending_without_late_sample :
  result (getBestPosition true defaultOptions 0
            [Position 1000 (pos_with 80);
             Position 12000 (pos_with 50)])
  = Pending.
Proof. reflexivity. Qed.

(** C1, as stated, fails in its second half: the call sets no timer, the
    wait is checked in the success callback only.  After one sample of
    accuracy 50 at 1000 ms and no further report, no code of the call runs:
    the call is pending when [maxWaitMs] (12000 ms) has elapsed, and stays
    so; it is not resolved with the best sample.  An error that the watch
    reports at 16000 ms then rejects it. *)
Lemma getBestPosition_wait_without_timer :
  let p := pos_with 50 in
  let err := mkPositionError 3 "Timeout expired" in
  (desiredAccuracyM defaultOptions < accuracyOf p)%Q /\
  result (getBestPosition true defaultOptions 0 [Position 1000 p]) = Pending /\
  ~ (exists b,
        result (getBestPosition true defaultOptions 0 [Position 1000 p])
        = Resolved b) /\
  maxWaitMs defaultOptions < 16000 - 0 /\
  result (getBestPosition true defaultOptions 0
            [Position 1000 p; Failure 16000 err])
  = Rejected (WatchError err).
Proof.
  intros p err. split; [vm_compute; reflexivity|].
  split; [reflexivity|]. split; [|split; [vm_compute; reflexivity | reflexivity]].
  intros (b & H). discriminate H.
Qed.

(** C1, amended.  As long as the samples are neither accurate enough nor
    late the call is pending.  The first sample whose accuracy (99999 when
    unknown) is at or below [desiredAccuracyM] resolves the call with that
    sample, at whatever time it arrives and whatever follows.  The wait is
    checked when a sample arrives: if the first sample that arrives after
    [maxWaitMs] has elapsed is still not accurate enough, the call resolves
    at that sample, with a sample seen so far whose accuracy is the lowest
    of all samples seen. *)
Theorem getBestPosition_early_exit_else_best (o : Options) (start : Z)
    (pre : list (Z * GeolocationPosition)) (now : Z)
    (pos : GeolocationPosition) (post : list event) :
  Forall (keepsWaiting o start) pre ->
  result (getBestPosition true o start (positions pre)) = Pending /\
  ((accuracyOf pos <= desiredAccuracyM o)%Q ->
   result (getBestPosition true o start
             (positions pre ++ Position now pos :: post))
   = Resolved pos) /\
  ((desiredAccuracyM o < accuracyOf pos)%Q -> maxWaitMs o < now - start ->
   exists b,
     result (getBestPosition true o start
               (positions pre ++ Position now pos :: post))
     = Resolved b /\
     In b (map snd pre ++ [pos]) /\
     Forall (fun s => (accuracyOf b <= accuracyOf s)%Q) (map snd pre ++ [pos])).
Proof.
  intros Hpre. split; [|split].
  - rewrite (waiting_state o start pre Hpre). reflexivity.
  - intros Hacc. rewrite (accurate_resolves o start pre now pos post Hpre Hacc).
    reflexivity.
  - intros Hacc Htime.
    destruct (late_resolves o start pre now pos post Hpre Hacc Htime)
      as (b & Hb & E).
    exists b. rewrite E. split; [reflexivity|].
    apply earliestBest_In. apply bestSeen_earliestBest. exact Hb.
Qed.

Lemma getBestPosition_early_exit_else_best_witness :
  let pre := [(1000, pos_with 80); (2000, pos_with 50)] in
  Forall (keepsWaiting defaultOptions 0) pre /\
  (accuracyOf (pos_with 10) <= desiredAccuracyM defaultOptions)%Q /\
  result (getBestPosition true defaultOptions 0
            (positions pre ++ Position 3000 (pos_with 10) :: []))
  = Resolved (pos_with 10).
Proof.
  intros pre.
  assert (Hpre : Forall (keepsWaiting defaultOptions 0) pre).
  { repeat constructor; cbn; lia || (vm_compute; reflexivity). }
  assert (Hacc : (accuracyOf (pos_with 10)
                  <= desiredAccuracyM defaultOptions)%Q)
    by (vm_compute; discriminate).
  split; [exact Hpre|]. split; [exact Hacc|].
  exact (proj1 (proj2 (getBestPosition_early_exit_else_best
                         defaultOptions 0 pre 3000 (pos_with 10) []
                         Hpre)) Hacc).
Defined.

(** C5, as stated, fails in its last part, for the reason C1 does: the
    call sets no timer.  With a sample of unknown accuracy at 1000 ms and
    one of accuracy 80 at 5000 ms the run is short of the desired accuracy
    when [maxWaitMs] (12000 ms) elapses, and the call is not resolved with
    the best sample: it is pending, and the error that the watch reports at
    14000 ms rejects it. *)
Lemma getBestPosition_shortfall_not_resolved :
  let run := [Position 1000 pos_unknown; Position 5000 (pos_with 80)] in
  let err := mkPositionError 2 "Position unavailable" in
  best (getBestPosition true defaultOptions 0 run) = Some (pos_with 80) /\
  result (getBestPosition true defaultOptions 0 run) = Pending /\
  maxWaitMs defaultOptions < 14000 - 0 /\
  result (getBestPosition true defaultOptions 0 (run ++ [Failure 14000 err]))
  = Rejected (WatchError err) /\
  result (getBestPosition true defaultOptions 0 (run ++ [Failure 14000 err]))
  <> Resolved (pos_with 80).
Proof.
  intros run err. split; [reflexivity|]. split; [reflexivity|].
  split; [vm_compute; reflexivity|]. split; [reflexivity | discriminate].
Qed.

(** C5, amended.  The call is rejected with the "Geolocation not
    supported" error exactly when the platform has no geolocation.  With
    geolocation, an error that the watch reports while the call is pending
    rejects it with that error, and nothing else rejects it: every rejection
    is an error reported by the watch, so a shortfall of accuracy is never
    itself a failure.  The sample at which the wait is found to be over,
    still short of the desired accuracy, resolves the call, with the best
    position seen. *)
Theorem getBestPosition_failures (o : Options) (start : Z) :
  (forall supported events,
      result (getBestPosition supported o start events)
      = Rejected (JsError "Geolocation not supported")
      <-> supported = false) /\
  (forall pre now err post,
      result (getBestPosition true o start pre) = Pending ->
      result (getBestPosition true o start (pre ++ Failure now err :: post))
      = Rejected (WatchError err)) /\
  (forall events r,
      result (getBestPosition true o start events) = Rejected r ->
      exists now err, r = WatchError err /\ In (Failure now err) events) /\
  (forall pre now pos post,
      Forall (keepsWaiting o start) pre ->
      (desiredAccuracyM o < accuracyOf pos)%Q -> maxWaitMs o < now - start ->
      exists b,
        bestSeen (map snd pre ++ [pos]) = Some b /\
        result (getBestPosition true o start
                  (positions pre ++ Position now pos :: post))
        = Resolved b).
Proof.
  split; [|split; [|split]].
  - intros supported events. destruct supported; cbn.
    + split; [|discriminate]. intros H.
      apply run_rejected in H.
      destruct H as [H | (now & err & H & _)]; discriminate H.
    + split; reflexivity.
  - intros pre now err post Hp. unfold getBestPosition in *. cbn [negb] in *.
    rewrite fold_left_app. cbn [fold_left].
    pose proof (run_live o start pre _ initial_live) as [_ L].
    unfold deliver at 2. rewrite (L Hp).
    rewrite deliver_cleared by reflexivity.
    unfold onError. cbn [result]. rewrite Hp. reflexivity.
  - intros events r H. unfold getBestPosition in H. cbn [negb] in H.
    apply run_rejected in H. destruct H as [H | H]; [discriminate H | exact H].
  - intros pre now pos post Hpre Hacc Htime.
    destruct (late_resolves o start pre now pos post Hpre Hacc Htime)
      as (b & Hb & E).
    exists b. rewrite E. split; [exact Hb | reflexivity].
Qed.

Lemma getBestPosition_failures_witness :
  let pre := [Position 1000 (pos_with 80)] in
  let err := mkPositionError 2 "Position unavailable" in
  result (getBestPosition true defaultOptions 0 pre) = Pending /\
  result (getBestPosition true defaultOptions 0
            (pre ++ Failure 5000 err :: [Position 6000 (pos_with 10)]))
  = Rejected (WatchError err).
Proof.
  intros pre err.
  assert (Hp : result (getBestPosition true defaultOptions 0 pre) = Pending)
    by reflexivity.
  split; [exact Hp|].
  exact (proj1 (proj2 (getBestPosition_failures defaultOptions 0))
           pre 5000 err [Position 6000 (pos_with 10)] Hp).
Defined.

(** C10.  A sample whose accuracy equals that of the current best leaves
    the best as it is (the comparison is a strict less-than).  So when the
    call resolves on a late sample, every sample that arrived before the
    one returned is strictly less accurate and none after it is more
    accurate: of the equally most accurate samples the earliest is
    returned. *)
Theorem getBestPosition_tie_keeps_earliest (o : Options) (start : Z)
    (pre : list (Z * GeolocationPosition)) (now : Z)
    (pos : GeolocationPosition) (post : list event) :
  Forall (keepsWaiting o start) pre ->
  (desiredAccuracyM o < accuracyOf pos)%Q -> maxWaitMs o < now - start ->
  (forall a b t p,
      best a = Some b -> (accuracyOf p == accuracyOf b)%Q ->
      best (onPosition o start t p a) = Some b) /\
  exists b l1 l2,
    result (getBestPosition true o start
              (positions pre ++ Position now pos :: post))
    = Resolved b /\
    map snd pre ++ [pos] = l1 ++ b :: l2 /\
    Forall (fun s => (accuracyOf b < accuracyOf s)%Q) l1 /\
    Forall (fun s => (accuracyOf b <= accuracyOf s)%Q) l2.
Proof.
  intros Hpre Hacc Htime. split.
  - intros a b t p Hb Heq. rewrite onPosition_best, Hb. cbn [keepBest].
    assert (E : Qlt_bool (accuracyOf p) (accuracyOf b) = false)
      by (apply Qlt_bool_false; lra).
    rewrite E. reflexivity.
  - destruct (late_resolves o start pre now pos post Hpre Hacc Htime)
      as (b & Hb & E).
    destruct (bestSeen_earliestBest _ b Hb) as (l1 & l2 & Hl & H1 & H2).
    exists b, l1, l2. rewrite E. repeat split; assumption.
Qed.

Lemma getBestPosition_tie_keeps_earliest_witness :
  let p1 := mkPosition (mkCoords 1 1 (Some 50%Q)) 1000 in
  let p2 := mkPosition (mkCoords 2 2 (Some 50%Q)) 2000 in
  let p3 := mkPosition (mkCoords 3 3 (Some 50%Q)) 12001 in
  Forall (keepsWaiting defaultOptions 0) [(1000, p1); (2000, p2)] /\
  (desiredAccuracyM defaultOptions < accuracyOf p3)%Q /\
  maxWaitMs defaultOptions < 12001 - 0 /\
  (exists b l1 l2,
      result (getBestPosition true defaultOptions 0
                (positions [(1000, p1); (2000, p2)] ++ Position 12001 p3 :: []))
      = Resolved b /\
      map snd [(1000, p1); (2000, p2)] ++ [p3] = l1 ++ b :: l2 /\
      Forall (fun s => (accuracyOf b < accuracyOf s)%Q) l1 /\
      Forall (fun s => (accuracyOf b <= accuracyOf s)%Q) l2) /\
  result (getBestPosition true defaultOptions 0
            (positions [(1000, p1); (2000, p2)] ++ Position 12001 p3 :: []))
  = Resolved p1.
Proof.
  intros p1 p2 p3.
  assert (Hpre : Forall (keepsWaiting defaultOptions 0) [(1000, p1); (2000, p2)]).
  { repeat constructor; cbn; lia || (vm_compute; reflexivity). }
  assert (Hacc : (desiredAccuracyM defaultOptions < accuracyOf p3)%Q)
    by (vm_compute; reflexivity).
  assert (Htime : maxWaitMs defaultOptions < 12001 - 0)
    by (vm_compute; reflexivity).
  split; [exact Hpre|]. split; [exact Hacc|]. split; [exact Htime|].
  split; [|reflexivity].
  exact (proj2 (getBestPosition_tie_keeps_earliest defaultOptions 0
                  [(1000, p1); (2000, p2)] 12001 p3 [] Hpre Hacc Htime)).
Defined.

End AppProofs.

(** * Further properties of the sources *)

(** ** The countdown functions *)

Module TimerMore.

Import Timer Spec JsFacts.

(** X1.  Reading a countdown twice is reading it once at the later clock
    value: the state carries nothing of the earlier read, so ticks that were
    skipped (a suspended page) change nothing. *)
Theorem readCountdown_twice (now1 now2 : Z) (c : Countdown) :
  readCountdown now2 (readCountdown now1 c) = readCountdown now2 c.
Proof.
  unfold readCountdown. destruct (endsAt c) as [e|]; cbn [truthy negb].
  - destruct (e =? 0) eqn:E; cbn [negb endsAt truthy].
    + reflexivity.
    + rewrite E. reflexivity.
  - reflexivity.
Qed.

(** X2.  With a clock that does not go back, the remaining time never
    grows from one read to the next. *)
Theorem readCountdown_monotone (now1 now2 : Z) (c : Countdown) :
  now1 <= now2 ->
  remainingMs (readCountdown now2 c) <= remainingMs (readCountdown now1 c).
Proof.
  intros H. unfold readCountdown.
  destruct (negb (truthy (endsAt c))); [cbn; lia|].
  destruct (endsAt c) as [e|]; cbn [remainingMs]; lia.
Qed.

Lemma readCountdown_monotone_witness :
  1000 <= 1500 /\
  remainingMs (readCountdown 1500 (mkCountdown (Some 2000) 0))
  <= remainingMs (readCountdown 1000 (mkCountdown (Some 2000) 0)).
Proof.
  assert (H : 1000 <= 1500) by lia.
  split; [exact H|].
  exact (readCountdown_monotone 1000 1500 (mkCountdown (Some 2000) 0) H).
Defined.

(** X3.  A countdown started at a clock value from the epoch on, read at
    any later or earlier clock value [now], keeps its end time; it is
    Running strictly before the end time and Expired from the end time on.
    Reading never makes it Idle. *)
Theorem started_countdown_phases (now1 now2 now : Z) (minutes : Q) :
  0 <= now1 ->
  endsAt (readCountdown now (startCountdown now1 now2 minutes))
  = endsAt (startCountdown now1 now2 minutes) /\
  (forall e, endsAt (startCountdown now1 now2 minutes) = Some e ->
     (now < e ->
      App.phaseOf (readCountdown now (startCountdown now1 now2 minutes))
      = App.Running) /\
     (e <= now ->
      App.phaseOf (readCountdown now (startCountdown now1 now2 minutes))
      = App.Expired)) /\
  App.phaseOf (readCountdown now (startCountdown now1 now2 minutes))
  <> App.Idle.
Proof.
  intros Hnow. unfold startCountdown, readCountdown.
  set (e := now1 + Z.max 1 (Js.mathRound (minutes * 60000))).
  assert (He : (e =? 0) = false) by (apply Z.eqb_neq; subst e; lia).
  cbn [endsAt truthy]. rewrite He. cbn [negb endsAt].
  split; [reflexivity|].
  unfold App.phaseOf. cbn [endsAt truthy remainingMs]. rewrite He. cbn [negb].
  split.
  - intros e' E. injection E as <-. split; intros H.
    + assert (X : (Z.max 0 (e - now) <=? 0) = false) by (apply Z.leb_gt; lia).
      rewrite X. reflexivity.
    + assert (X : (Z.max 0 (e - now) <=? 0) = true) by (apply Z.leb_le; lia).
      rewrite X. reflexivity.
  - destruct (Z.max 0 (e - now) <=? 0); discriminate.
Qed.

Lemma started_countdown_phases_witness :
  0 <= 5000 /\
  App.phaseOf (readCountdown 65000 (startCountdown 5000 5000 1)) = App.Expired /\
  App.phaseOf (readCountdown 64999 (startCountdown 5000 5000 1)) = App.Running.
Proof.
  assert (H : 0 <= 5000) by lia.
  split; [exact H|]. split.
  - exact (proj2 (proj1 (proj2 (started_countdown_phases 5000 5000 65000 1 H))
                    65000 eq_refl) ltac:(lia)).
  - exact (proj1 (proj1 (proj2 (started_countdown_phases 5000 5000 64999 1 H))
                    65000 eq_refl) ltac:(lia)).
Defined.

Lemma digitChar_inj (a b : Z) :
  0 <= a < 10 -> 0 <= b < 10 -> Js.digitChar a = Js.digitChar b -> a = b.
Proof.
  intros Ha Hb E.
  pose proof (digitValue_digitChar a Ha) as Va.
  pose proof (digitValue_digitChar b Hb) as Vb.
  rewrite E in Va. congruence.
Qed.

Lemma twoDigits_zero (k : Z) :
  0 <= k < 100 -> twoDigits k = "00"%string -> k = 0.
Proof.
  intros H E. unfold twoDigits in E. injection E as E1 E2.
  change "0"%char with (Js.digitChar 0) in E1, E2.
  assert (Hq : 0 <= k / 10 < 10)
    by (split; [apply Z.div_pos; lia | apply Z.div_lt_upper_bound; lia]).
  assert (Hr : 0 <= k mod 10 < 10) by (apply Z.mod_pos_bound; lia).
  assert (A : k / 10 = 0).
  { apply digitChar_inj; [exact Hq | lia |].
    apply Ascii.eqb_eq. apply Ascii.eqb_eq in E1. exact E1. }
  assert (B : k mod 10 = 0).
  { apply digitChar_inj; [exact Hr | lia |].
    apply Ascii.eqb_eq. apply Ascii.eqb_eq in E2. exact E2. }
  rewrite (Z.div_mod k 10) by lia. lia.
Qed.

Lemma minutes_field_zero (m : Z) :
  0 <= m -> Js.padStart 2 "0" (Js.digits m) = "00"%string -> m = 0.
Proof.
  intros Hm E. rewrite padStart2_digits in E by lia.
  destruct (m <? 100) eqn:C.
  - apply Z.ltb_lt in C. apply twoDigits_zero; [lia | exact E].
  - apply Z.ltb_ge in C. pose proof (digits_length_three m C) as D.
    rewrite E in D. cbn in D. lia.
Qed.

(** X4.  For a whole number of milliseconds from 0 up to, not including,
    2^53 the text is 00:00 exactly when the number is zero: while any time
    remains the display shows at least 00:01. *)
Theorem formatMMSS_zero_only_at_zero (ms : Z) :
  0 <= ms < 2 ^ 53 ->
  (formatMMSS (inject_Z ms) = "00:00"%string <-> ms = 0).
Proof.
  intros Hms. rewrite (TimerProofs.formatMMSS_fields ms Hms).
  pose proof (TimerProofs.seconds_bound ms (proj1 Hms)) as Hs.
  destruct (mathCeil_spec (inject_Z ms / 1000)) as [_ C2].
  set (s := Js.mathCeil (inject_Z ms / 1000)) in *.
  assert (Hm : 0 <= s / 60) by (apply Z.div_pos; lia).
  assert (Hr : 0 <= s mod 60 < 60) by (apply Z.mod_pos_bound; lia).
  split.
  - intros E.
    pose proof (padStart_length 2 "0" (Js.digits (s / 60))) as L.
    remember (Js.padStart 2 "0" (Js.digits (s / 60))) as mm eqn:Emm.
    assert (Hmm : mm = "00"%string /\ twoDigits (s mod 60) = "00"%string).
    { destruct mm as [|a [|b [|c mm]]]; cbn in L; try lia.
      - cbn in E. injection E as -> -> E1 E2.
        split; [reflexivity | unfold twoDigits; rewrite E1, E2; reflexivity].
      - apply (f_equal String.length) in E. rewrite !length_app in E.
        cbn in E. lia. }
    destruct Hmm as [M S]. rewrite Emm in M.
    apply minutes_field_zero in M; [|exact Hm].
    apply twoDigits_zero in S; [|lia].
    assert (Z0 : s = 0) by (rewrite (Z.div_mod s 60) by lia; lia).
    rewrite Z0 in C2. change (inject_Z 0) with 0%Q in C2.
    assert (X : (inject_Z ms == inject_Z ms / 1000 * 1000)%Q) by field.
    assert (Y : (inject_Z ms <= 0)%Q).
    { remember (inject_Z ms / 1000)%Q as y eqn:Ey. clear Ey. lra. }
    change 0%Q with (inject_Z 0) in Y. rewrite <- Zle_Qle in Y. lia.
  - intros E. subst ms. reflexivity.
Qed.

Lemma formatMMSS_zero_only_at_zero_witness :
  0 <= 1 < 2 ^ 53 /\
  (formatMMSS (inject_Z 1) = "00:00"%string <-> 1 = 0).
Proof.
  assert (H : 0 <= 1 < 2 ^ 53) by (split; [lia | reflexivity]).
  split; [exact H|]. exact (formatMMSS_zero_only_at_zero 1 H).
Defined.

End TimerMore.

(** ** Distance formatting *)

Module GeoMore.

Import Geo Spec JsFacts.

(** X5.  The unit is chosen before the rounding: a distance from 999.5 m up
    to, not including, 1000 m is shown as "1000 m", not as "1.00 km". *)
Theorem formatDistance_1000_m (meters : Q) :
  (1999 # 2 <= meters)%Q -> (meters < 1000)%Q ->
  formatDistance meters = "1000 m"%string.
Proof.
  intros Hlo Hhi. unfold formatDistance.
  assert (E : Js.Qlt_bool meters 1000 = true) by (apply Qlt_bool_iff; exact Hhi).
  rewrite E.
  assert (R : Js.mathRound meters = 1000).
  { apply Z.le_antisymm.
    - apply mathRound_upper. change (inject_Z 1000) with 1000%Q. exact Hhi.
    - unfold Js.mathRound. rewrite <- (Qfloor_Z 1000) at 1.
      apply Qfloor_resp_le. change (inject_Z 1000) with 1000%Q. lra. }
  rewrite R. reflexivity.
Qed.

Lemma formatDistance_1000_m_witness :
  (1999 # 2 <= 9997 # 10)%Q /\ (9997 # 10 < 1000)%Q /\
  formatDistance (9997 # 10) = "1000 m"%string.
Proof.
  assert (H1 : (1999 # 2 <= 9997 # 10)%Q) by (vm_compute; discriminate).
  assert (H2 : (9997 # 10 < 1000)%Q) by (vm_compute; reflexivity).
  split; [exact H1|]. split; [exact H2|].
  exact (formatDistance_1000_m (9997 # 10) H1 H2).
Defined.

End GeoMore.

(** ** The heading source *)

Module CompassMore.

Import Js Compass Spec Notions JsFacts.

(** X6.  Every reading has [permissionNeeded] false, and carries the error
    "No heading data" exactly when it carries no heading. *)
Theorem reading_error_iff_no_heading (ev : OrientationEvent) :
  permissionNeeded (reading ev) = false /\
  (heading (reading ev) = None
   <-> error (reading ev) = Some "No heading data"%string) /\
  (heading (reading ev) <> None <-> error (reading ev) = None).
Proof.
  unfold reading.
  destruct (numberNotNaN (webkitCompassHeading ev)) as [h|];
    [|destruct (numberNotNaN (alpha ev)) as [a|]];
    cbn; repeat split; intros; congruence.
Qed.

(** [x % 360] for a dividend that is not positive. *)
Lemma Qrem_360_neg (x : Q) :
  (x <= 0)%Q -> (- (360) < Qrem x 360 /\ Qrem x 360 <= 0)%Q.
Proof.
  intros Hx. unfold Qrem, Qtrunc. rewrite Qred_correct.
  assert (X : (x == x / 360 * 360)%Q) by field.
  destruct (Qle_bool 0 (x / 360)) eqn:B.
  - apply Qle_bool_iff in B.
    assert (T : (x / 360 == 0)%Q).
    { apply Qle_antisym; [|exact B]. apply Qle_shift_div_r; lra. }
    assert (F : Qfloor (x / 360) = 0) by (rewrite T; reflexivity).
    rewrite F. change (inject_Z 0) with 0%Q.
    remember (x / 360)%Q as t eqn:Et. clear Et. split; lra.
  - pose proof (Qle_ceiling (x / 360)) as C1.
    pose proof (Qceiling_lt (x / 360)) as C2.
    unfold Z.sub in C2. rewrite inject_Z_plus in C2.
    change (inject_Z (- (1))) with (- (1))%Q in C2.
    assert (T : (x / 360 <= 0)%Q) by (apply Qle_shift_div_r; lra).
    assert (C0 : (inject_Z (Qceiling (x / 360)) <= 0)%Q).
    { change 0%Q with (inject_Z 0). rewrite <- Zle_Qle.
      change 0 with (Qceiling 0). apply Qceiling_resp_le. exact T. }
    remember (x / 360)%Q as t eqn:Et. clear Et B.
    remember (inject_Z (Qceiling t)) as c eqn:Ec. clear Ec.
    split; lra.
Qed.

(** X7.  From a finite [alpha], with no usable direct heading, the heading
    is a finite number strictly between -360 and 360; it is not negative for
    [alpha] up to 360 and not positive for [alpha] from 360 on, so an
    [alpha] above its documented range gives a heading outside [0, 360).
    The arrow rotation computed from such a heading and a bearing that is
    not negative is in [0, 360) all the same. *)
Theorem reading_alpha_sign (d : value) (a : Q) :
  (forall h, d = VNum h -> h = NaN) ->
  exists r : Q,
    reading (mkOrientationEvent d (VNum (Fin a)))
    = mkHeadingState (Some (Fin r)) false None /\
    (- (360) < r)%Q /\ (r < 360)%Q /\
    ((a <= 360)%Q -> (0 <= r)%Q) /\
    ((360 <= a)%Q -> (r <= 0)%Q) /\
    (forall bearing : Z, 0 <= bearing ->
       exists q : Q,
         App.arrowRotation (Some bearing) (Some (Fin r)) = Fin q /\
         (0 <= q)%Q /\ (q < 360)%Q).
Proof.
  intros Hd. exists (Qrem (Qred (360 - a)) 360).
  split.
  - unfold reading. cbn [webkitCompassHeading alpha].
    rewrite (CompassProofs.numberNotNaN_none _ Hd). reflexivity.
  - assert (B : (- (360) < Qrem (Qred (360 - a)) 360)%Q /\
                (Qrem (Qred (360 - a)) 360 < 360)%Q /\
                ((a <= 360)%Q -> (0 <= Qrem (Qred (360 - a)) 360)%Q) /\
                ((360 <= a)%Q -> (Qrem (Qred (360 - a)) 360 <= 0)%Q));
      [|destruct B as (B1 & B2 & B3 & B4);
        split; [exact B1|]; split; [exact B2|]; split; [exact B3|];
        split; [exact B4|];
        intros bearing Hb;
        assert (Hq : (0 <= inject_Z bearing)%Q)
          by (change 0%Q with (inject_Z 0); rewrite <- Zle_Qle; exact Hb);
        destruct (AppProofs.arrowRotation_in_range bearing
                    (Qrem (Qred (360 - a)) 360)) as (q & E & Q0 & Q1 & _);
        [lra | exists q; split; [exact E | split; assumption]]].
    pose proof (Qred_correct (360 - a)) as C.
    destruct (Qlt_le_dec 360 a) as [L|L].
    + assert (Hx : (Qred (360 - a) <= 0)%Q) by (rewrite C; lra).
      destruct (Qrem_360_neg _ Hx) as [R0 R1].
      repeat split; lra.
    + assert (Hx : (0 <= Qred (360 - a))%Q) by (rewrite C; lra).
      destruct (Qrem_360 _ Hx) as [[R0 R1] R2].
      repeat split; try lra. intros H.
      assert (E : (a == 360)%Q) by lra.
      assert (Hx' : (Qred (360 - a) <= 0)%Q) by (rewrite C; lra).
      destruct (Qrem_360_neg _ Hx') as [_ R3]. exact R3.
Qed.

Lemma reading_alpha_sign_witness :
  (forall h, VNull = VNum h -> h = NaN) /\
  exists r : Q,
    reading (mkOrientationEvent VNull (VNum (Fin 400)))
    = mkHeadingState (Some (Fin r)) false None /\
    (- (360) < r)%Q /\ (r < 360)%Q /\
    ((400 <= 360)%Q -> (0 <= r)%Q) /\
    ((360 <= 400)%Q -> (r <= 0)%Q) /\
    (forall bearing : Z, 0 <= bearing ->
       exists q : Q,
         App.arrowRotation (Some bearing) (Some (Fin r)) = Fin q /\
         (0 <= q)%Q /\ (q < 360)%Q).
Proof.
  assert (H : forall h, VNull = VNum h -> h = NaN) by (intros h E; discriminate E).
  split; [exact H|]. exact (reading_alpha_sign VNull 400 H).
Defined.

Lemma run_active_log (acts : list action) : forall l,
  active l = true -> registered l = true ->
  updates (run l acts) = updates l ++ map reading (reachedBeforeStop acts).
Proof.
  unfold run.
  induction acts as [|a acts IH]; intros l Ha Hr; cbn [fold_left].
  - cbn. rewrite app_nil_r. reflexivity.
  - destruct a as [ev | ev |]; cbn [step reachedBeforeStop map].
    + rewrite Hr. unfold handler. rewrite Ha, Hr. cbn [negb].
      rewrite IH by reflexivity. cbn [updates].
      rewrite <- List.app_assoc. reflexivity.
    + unfold handler. rewrite Ha, Hr. cbn [negb].
      rewrite IH by reflexivity. cbn [updates].
      rewrite <- List.app_assoc. reflexivity.
    + fold (run (stop l) acts). rewrite CompassProofs.run_stopped.
      cbn. rewrite app_nil_r. reflexivity.
Qed.

(** X8.  The calls of [onUpdate] that a listener makes are the readings of
    the events that reach its handler before the first stop, one call per
    event, in the order of the events. *)
Theorem startCompass_log (acts : list action) :
  updates (run startCompass acts) = map reading (reachedBeforeStop acts).
Proof. apply (run_active_log acts startCompass); reflexivity. Qed.

End CompassMore.

(** ** The acquisition of a position *)

Module AcquisitionMore.

Import Js App Spec JsFacts AppProofs.

Lemma keepsWaiting_dec (o : Options) (start : Z) (s : Z * GeolocationPosition) :
  {keepsWaiting o start s} + {~ keepsWaiting o start s}.
Proof.
  unfold keepsWaiting.
  destruct (Qlt_le_dec (desiredAccuracyM o) (accuracyOf (snd s))) as [A|A].
  - destruct (Z_le_gt_dec (fst s - start) (maxWaitMs o)) as [T|T].
    + left. split; assumption.
    + right. intros [_ T']. lia.
  - right. intros [A' _]. lra.
Qed.

(** Every sequence of events either consists of samples that keep the call
    waiting, or has a first event that does not: an error, or a sample that
    is accurate enough or late. *)
Lemma first_decisive (o : Options) (start : Z) (events : list event) :
  (exists pre, events = positions pre /\ Forall (keepsWaiting o start) pre) \/
  (exists pre now err post,
      events = positions pre ++ Failure now err :: post /\
      Forall (keepsWaiting o start) pre) \/
  (exists pre now pos post,
      events = positions pre ++ Position now pos :: post /\
      Forall (keepsWaiting o start) pre /\
      ~ keepsWaiting o start (now, pos)).
Proof.
  induction events as [|e events IH].
  - left. exists []. split; [reflexivity | constructor].
  - destruct e as [now pos | now err].
    + destruct (keepsWaiting_dec o start (now, pos)) as [K|K].
      * destruct IH as [(pre & E & F) | [(pre & n & err & post & E & F)
                                        | (pre & n & p & post & E & F & D)]].
        -- left. exists ((now, pos) :: pre). split.
           ++ rewrite E. reflexivity.
           ++ constructor; assumption.
        -- right. left. exists ((now, pos) :: pre), n, err, post. split.
           ++ rewrite E. reflexivity.
           ++ constructor; assumption.
        -- right. right. exists ((now, pos) :: pre), n, p, post.
           split; [rewrite E; reflexivity|]. split; [|exact D].
           constructor; assumption.
      * right. right. exists [], now, pos, events.
        split; [reflexivity|]. split; [constructor | exact K].
    + right. left. exists [], now, err, events.
      split; [reflexivity | constructor].
Qed.

Lemma failure_rejects (o : Options) (start : Z)
    (pre : list (Z * GeolocationPosition)) (now : Z)
    (err : GeolocationPositionError) (post : list event) :
  Forall (keepsWaiting o start) pre ->
  getBestPosition true o start (positions pre ++ Failure now err :: post)
  = mkAcquisition (bestSeen (map snd pre)) false (Rejected (WatchError err)).
Proof.
  intros Hpre. pose proof (waiting_state o start pre Hpre) as W.
  unfold getBestPosition in *. cbn [negb] in *.
  rewrite fold_left_app, W. cbn [fold_left].
  unfold deliver at 2. cbn [watching]. unfold onError. cbn [best result settle].
  apply deliver_cleared. reflexivity.
Qed.

(** A sample that does not keep the call waiting resolves it, with the
    earliest of the most accurate samples delivered so far. *)
Lemma decisive_resolves (o : Options) (start : Z)
    (pre : list (Z * GeolocationPosition)) (now : Z)
    (pos : GeolocationPosition) (post : list event) :
  Forall (keepsWaiting o start) pre ->
  ~ keepsWaiting o start (now, pos) ->
  exists b,
    getBestPosition true o start (positions pre ++ Position now pos :: post)
    = mkAcquisition (bestSeen (map snd pre ++ [pos])) false (Resolved b) /\
    earliestBest b (map snd pre ++ [pos]) /\
    ((accuracyOf pos <= desiredAccuracyM o)%Q -> b = pos).
Proof.
  intros Hpre D.
  destruct (Qlt_le_dec (desiredAccuracyM o) (accuracyOf pos)) as [A|A].
  - assert (T : maxWaitMs o < now - start).
    { destruct (Z_le_gt_dec (now - start) (maxWaitMs o)) as [T|T]; [|lia].
      exfalso. apply D. split; assumption. }
    destruct (late_resolves o start pre now pos post Hpre A T) as (b & Hb & E).
    exists b. rewrite E, Hb. split; [reflexivity|]. split.
    + apply bestSeen_earliestBest. exact Hb.
    + intros A'. lra.
  - exists pos. split; [|split; [|reflexivity]].
    + apply accurate_resolves; assumption.
    + exists (map snd pre), []. split; [reflexivity|]. split; [|constructor].
      apply Forall_map. eapply Forall_impl; [|exact Hpre].
      intros s [K _]. lra.
Qed.

(** X9.  With geolocation, the call is pending after exactly those event
    sequences that consist of samples each less accurate than desired and
    each delivered within the wait. *)
Theorem getBestPosition_pending_iff (o : Options) (start : Z)
    (events : list event) :
  result (getBestPosition true o start events) = Pending
  <-> exists pre, events = positions pre /\ Forall (keepsWaiting o start) pre.
Proof.
  split.
  - intros H.
    destruct (first_decisive o start events)
      as [P | [(pre & n & err & post & E & F)
              | (pre & n & p & post & E & F & D)]].
    + exact P.
    + rewrite E, (failure_rejects o start pre n err post F) in H.
      discriminate H.
    + destruct (decisive_resolves o start pre n p post F D) as (b & R & _).
      rewrite E, R in H. discriminate H.
  - intros (pre & -> & F). rewrite (waiting_state o start pre F). reflexivity.
Qed.

(** X10.  A position that the call resolves with is always the earliest of
    the most accurate samples delivered up to the sample that resolved it;
    that sample is the first one that is accurate enough or late, and it is
    itself the value when it is accurate enough.  No sample delivered later
    has a part in the value. *)
Theorem getBestPosition_resolved_inv (o : Options) (start : Z)
    (events : list event) (b : GeolocationPosition) :
  result (getBestPosition true o start events) = Resolved b ->
  exists pre now pos post,
    events = positions pre ++ Position now pos :: post /\
    Forall (keepsWaiting o start) pre /\
    ~ keepsWaiting o start (now, pos) /\
    earliestBest b (map snd pre ++ [pos]) /\
    ((accuracyOf pos <= desiredAccuracyM o)%Q -> b = pos).
Proof.
  intros H.
  destruct (first_decisive o start events)
    as [(pre & E & F) | [(pre & n & err & post & E & F)
                        | (pre & n & p & post & E & F & D)]].
  - rewrite E, (waiting_state o start pre F) in H. discriminate H.
  - rewrite E, (failure_rejects o start pre n err post F) in H.
    discriminate H.
  - destruct (decisive_resolves o start pre n p post F D) as (b' & R & EB & A).
    rewrite E, R in H. cbn [result] in H. injection H as <-.
    exists pre, n, p, post. repeat split; assumption.
Qed.

Lemma getBestPosition_resolved_inv_witness :
  let events := [Position 1000 (pos_with 50); Position 2000 (pos_with 10);
                 Position 3000 (pos_with 5)] in
  result (getBestPosition true defaultOptions 0 events)
  = Resolved (pos_with 10) /\
  exists pre now pos post,
    events = positions pre ++ Position now pos :: post /\
    Forall (keepsWaiting defaultOptions 0) pre /\
    ~ keepsWaiting defaultOptions 0 (now, pos) /\
    earliestBest (pos_with 10) (map snd pre ++ [pos]) /\
    ((accuracyOf pos <= desiredAccuracyM defaultOptions)%Q
     -> pos_with 10 = pos).
Proof.
  intros events.
  assert (H : result (getBestPosition true defaultOptions 0 events)
              = Resolved (pos_with 10)) by reflexivity.
  split; [exact H|].
  exact (getBestPosition_resolved_inv defaultOptions 0 events (pos_with 10) H).
Defined.

(** X11.  Once the call is settled nothing that the platform reports later
    changes its state: the outcome, the best position and the cleared watch
    stay as they are. *)
Theorem getBestPosition_settled_final (supported : bool) (o : Options)
    (start : Z) (pre post : list event) :
  result (getBestPosition supported o start pre) <> Pending ->
  getBestPosition supported o start (pre ++ post)
  = getBestPosition supported o start pre.
Proof.
  unfold getBestPosition. destruct supported; cbn [negb]; [|reflexivity].
  intros H. rewrite fold_left_app. apply deliver_cleared.
  pose proof (run_live o start pre _ initial_live) as L.
  destruct (watching (fold_left (deliver o start) pre
                        (mkAcquisition None true Pending))) eqn:W;
    [|reflexivity].
  exfalso. apply H. apply L. exact W.
Qed.

Lemma getBestPosition_settled_final_witness :
  let err := mkPositionError 1 "denied" in
  let pre := [Position 1000 (pos_with 50); Position 2000 (pos_with 10)] in
  let post := [Failure 3000 err; Position 4000 (pos_with 1)] in
  result (getBestPosition true defaultOptions 0 pre) <> Pending /\
  getBestPosition true defaultOptions 0 (pre ++ post)
  = getBestPosition true defaultOptions 0 pre.
Proof.
  intros err pre post.
  assert (H : result (getBestPosition true defaultOptions 0 pre) <> Pending)
    by (intros E; discriminate E).
  split; [exact H|].
  exact (getBestPosition_settled_final true defaultOptions 0 pre post H).
Defined.

(** X12.  After any events, with or without geolocation, the watch is
    installed exactly when the promise is pending: every path that settles
    the promise clears the watch, and no path clears it otherwise. *)
Theorem getBestPosition_watch_iff_pending (supported : bool) (o : Options)
    (start : Z) (events : list event) :
  watching (getBestPosition supported o start events) = true
  <-> result (getBestPosition supported o start events) = Pending.
Proof.
  unfold getBestPosition. destruct supported; cbn [negb].
  - apply (run_live o start events _ initial_live).
  - cbn. split; discriminate.
Qed.

End AcquisitionMore.

(** ** The meter of the component *)

Module MeterMore.

Import Timer App Meter Notions.

Lemma stopTicker_oneTicker (s : state) :
  oneTicker s ->
  stopTicker s = mkState (timer s) None [] (nextId s) (alerts s).
Proof.
  intros [Hn H]. unfold stopTicker.
  destruct (tickRef s) as [id|] eqn:E.
  - destruct H as [Hid Hi]. unfold truthy.
    assert (Z : (id =? 0) = false) by (apply Z.eqb_neq; lia).
    rewrite Z. cbn [negb]. rewrite Hi. unfold clearInterval. cbn [filter].
    rewrite Z.eqb_refl. reflexivity.
  - destruct s as [t r i n a]. cbn in *. subst. reflexivity.
Qed.

Lemma setTimer_oneTicker (c : Countdown) (s : state) :
  oneTicker s -> oneTicker (setTimer c s).
Proof. intros H. exact H. Qed.

Lemma startTicker_oneTicker (s : state) :
  oneTicker s ->
  startTicker s
  = mkState (timer s) (Some (nextId s)) [nextId s] (nextId s + 1) (alerts s).
Proof.
  intros H. unfold startTicker. rewrite (stopTicker_oneTicker s H).
  reflexivity.
Qed.

Lemma effect_cases (s : state) :
  oneTicker s ->
  effect s = s \/
  (phaseOf (timer s) = Expired /\
   effect s = mkState (timer s) None [] (nextId s) (S (alerts s))).
Proof.
  intros H. unfold effect, phaseOf.
  destruct (negb (truthy (endsAt (timer s)))); [left; reflexivity|].
  destruct (remainingMs (timer s) <=? 0); [|left; reflexivity].
  right. split; [reflexivity|].
  rewrite (stopTicker_oneTicker s H). reflexivity.
Qed.

Lemma effect_oneTicker (s : state) : oneTicker s -> oneTicker (effect s).
Proof.
  intros H. destruct (effect_cases s H) as [E | [_ E]]; rewrite E.
  - exact H.
  - split; [exact (proj1 H) | reflexivity].
Qed.

Lemma render_oneTicker (old : Countdown) (s : state) :
  oneTicker s -> oneTicker (render old s).
Proof.
  intros H. unfold render. destruct (sameDeps old (timer s)).
  - exact H.
  - apply effect_oneTicker. exact H.
Qed.

Lemma step_oneTicker (s : state) (e : event) :
  oneTicker s -> oneTicker (step s e).
Proof.
  intros H. destruct e as [now1 now2 minutes | | id now]; cbn [step].
  - unfold startMeter. apply render_oneTicker.
    rewrite (startTicker_oneTicker _ (setTimer_oneTicker _ s H)).
    destruct H as [Hn _]. unfold oneTicker. cbn.
    split; [lia | split; [lia | reflexivity]].
  - unfold clearMeter. apply render_oneTicker.
    rewrite (stopTicker_oneTicker s H).
    split; [exact (proj1 H) | reflexivity].
  - unfold tick. destruct (existsb _ (intervals s)); [|exact H].
    apply render_oneTicker. exact H.
Qed.

Lemma run_oneTicker (events : list event) :
  forall s, oneTicker s -> oneTicker (run s events).
Proof.
  unfold run. induction events as [|e events IH]; intros s H; cbn [fold_left].
  - exact H.
  - apply IH. apply step_oneTicker. exact H.
Qed.

Lemma init_oneTicker (first : Z) : 0 < first -> oneTicker (init first).
Proof. intros H. split; [exact H | reflexivity]. Qed.

(** X13.  Whatever the user and the clock do, the window holds no interval
    of the component besides the one in [tickRef]: starting a ticker
    clears the one before, so at most one interval is installed at any
    time.  (The ids of a window's intervals are positive.) *)
Theorem meter_single_ticker (first : Z) (events : list event) :
  0 < first ->
  intervals (run (init first) events)
  = match tickRef (run (init first) events) with
    | Some id => [id]
    | None => []
    end.
Proof.
  intros H.
  destruct (run_oneTicker events _ (init_oneTicker first H)) as [_ I].
  destruct (tickRef (run (init first) events)) as [id|].
  - exact (proj2 I).
  - exact I.
Qed.

Lemma meter_single_ticker_witness :
  let events := [StartMeter 1000 1000 10; Tick 1 1500;
                 StartMeter 2000 2001 20; Tick 1 2500; Tick 2 2500] in
  0 < 1 /\
  intervals (run (init 1) events)
  = match tickRef (run (init 1) events) with
    | Some id => [id]
    | None => []
    end.
Proof.
  intros events. assert (H : 0 < 1) by lia.
  split; [exact H|]. exact (meter_single_ticker 1 events H).
Defined.

Lemma render_alerts (old : Countdown) (s : state) :
  oneTicker s ->
  render old s = s \/
  (phaseOf (timer s) = Expired /\
   render old s = mkState (timer s) None [] (nextId s) (S (alerts s))).
Proof.
  intros H. unfold render. destruct (sameDeps old (timer s)); [left; reflexivity|].
  exact (effect_cases s H).
Qed.

Lemma installed_ticking (s : state) (id : Z) :
  oneTicker s ->
  existsb (fun x => x =? id) (intervals s) = true -> ticking s = 1%nat.
Proof.
  intros [_ H] E. unfold ticking. destruct (tickRef s); [reflexivity|].
  rewrite H in E. discriminate E.
Qed.

Lemma step_alerts (s : state) (e : event) (n : nat) :
  oneTicker s ->
  (alerts s + ticking s <= n)%nat ->
  (alerts (step s e) + ticking (step s e) <= n + started [e])%nat.
Proof.
  intros H Hn. destruct e as [now1 now2 minutes | | id now]; cbn [step started].
  - unfold startMeter.
    pose proof (startTicker_oneTicker _ (setTimer_oneTicker
                  (startCountdown now1 now2 minutes) s H)) as E.
    assert (O1 : oneTicker (startTicker
                   (setTimer (startCountdown now1 now2 minutes) s))).
    { rewrite E. destruct H as [Hp _]. unfold oneTicker. cbn.
      split; [lia | split; [lia | reflexivity]]. }
    destruct (render_alerts (timer s) _ O1) as [R | [_ R]]; rewrite R, E;
      unfold ticking; cbn; lia.
  - unfold clearMeter.
    assert (O1 : oneTicker (setTimer (mkCountdown None 0) (stopTicker s))).
    { rewrite (stopTicker_oneTicker s H).
      split; [exact (proj1 H) | reflexivity]. }
    destruct (render_alerts (timer s) _ O1) as [R | [P _]].
    + rewrite R, (stopTicker_oneTicker s H). unfold ticking. cbn. lia.
    + discriminate P.
  - unfold tick. destruct (existsb _ (intervals s)) eqn:I; [|lia].
    pose proof (installed_ticking s id H I) as T.
    destruct (render_alerts (timer s)
                (setTimer (readCountdown now (timer s)) s) H) as [R | [_ R]];
      rewrite R; unfold ticking in *; cbn [tickRef alerts setTimer]; lia.
Qed.

Lemma started_app (l1 l2 : list event) :
  started (l1 ++ l2) = (started l1 + started l2)%nat.
Proof.
  induction l1 as [|e l1 IH]; [reflexivity|].
  destruct e; cbn [app started]; rewrite IH; reflexivity.
Qed.

Lemma run_alerts (events : list event) :
  forall s n,
    oneTicker s ->
    (alerts s + ticking s <= n)%nat ->
    (alerts (run s events) + ticking (run s events) <= n + started events)%nat.
Proof.
  unfold run. induction events as [|e events IH]; intros s n H Hn;
    cbn [fold_left].
  - cbn. lia.
  - change (e :: events) with ([e] ++ events). rewrite started_app.
    rewrite Nat.add_assoc. apply IH.
    + apply step_oneTicker. exact H.
    + apply step_alerts; assumption.
Qed.

(** X14.  The alert is raised at most once for each countdown that was
    started: the number of alerts raised, plus one while a ticker is
    installed, never exceeds the number of calls of [startMeter]. *)
Theorem meter_alerts_bounded (first : Z) (events : list event) :
  0 < first ->
  (alerts (run (init first) events) + ticking (run (init first) events)
   <= started events)%nat.
Proof.
  intros H.
  apply (run_alerts events (init first) O (init_oneTicker first H)).
  cbn. lia.
Qed.

Lemma meter_alerts_bounded_witness :
  let events := [StartMeter 1000 1000 1; Tick 1 30000; Tick 1 61000;
                 Tick 1 61500; ClearMeter; StartMeter 70000 70000 1] in
  0 < 1 /\
  (alerts (run (init 1) events) + ticking (run (init 1) events)
   <= started events)%nat.
Proof.
  intros events. assert (H : 0 < 1) by lia.
  split; [exact H|]. exact (meter_alerts_bounded 1 events H).
Defined.

Lemma sameOption_eq (a b : option Z) : sameOption a b = true -> a = b.
Proof.
  destruct a as [x|], b as [y|]; cbn; try discriminate; try reflexivity.
  intros E. apply Z.eqb_eq in E. congruence.
Qed.

Lemma sameDeps_eq (old new : Countdown) :
  sameDeps old new = true ->
  remainingMs old = remainingMs new /\ endsAt old = endsAt new.
Proof.
  unfold sameDeps. intros E. apply andb_prop in E. destruct E as [E1 E2].
  split; [apply Z.eqb_eq; exact E1 | apply sameOption_eq; exact E2].
Qed.

Lemma effect_coherent (t : Z) (s : state) (e : Z) :
  oneTicker s ->
  endsAt (timer s) = Some e -> 0 < e ->
  (remainingMs (timer s) <= 0 -> e <= t) ->
  tickRef s <> None ->
  coherent t (effect s).
Proof.
  intros O E He Hr Ht. unfold effect, coherent. rewrite E. unfold truthy.
  assert (Z : (e =? 0) = false) by (apply Z.eqb_neq; lia).
  rewrite Z. cbn [negb].
  destruct (remainingMs (timer s) <=? 0) eqn:R.
  - apply Z.leb_le in R. rewrite (stopTicker_oneTicker s O).
    cbn [timer tickRef]. rewrite E.
    split; [exact He|]. split; [intros _; split; [auto | reflexivity] | lia].
  - apply Z.leb_gt in R. rewrite E.
    split; [exact He|]. split; [lia | intros _; exact Ht].
Qed.

Lemma coherent_later (t t' : Z) (s : state) :
  t <= t' -> coherent t s -> coherent t' s.
Proof.
  unfold coherent. intros L H. destruct (endsAt (timer s)) as [e|]; [|exact H].
  destruct H as (H0 & H1 & H2). split; [exact H0|]. split; [|exact H2].
  intros R. destruct (H1 R) as [H3 H4]. split; [lia | exact H4].
Qed.

Lemma startMeter_coherent (t now1 now2 : Z) (minutes : Q) (s : state) :
  oneTicker s -> coherent t s -> 0 <= t -> t <= now1 -> now1 <= now2 ->
  coherent now2 (startMeter now1 now2 minutes s).
Proof.
  intros O C Ht H1 H2. unfold startMeter.
  pose proof (startTicker_oneTicker _ (setTimer_oneTicker
                (startCountdown now1 now2 minutes) s O)) as E.
  assert (O1 : oneTicker (startTicker
                 (setTimer (startCountdown now1 now2 minutes) s))).
  { rewrite E. destruct O as [Hp _]. unfold oneTicker. cbn.
    split; [lia | split; [lia | reflexivity]]. }
  set (e := now1 + Z.max 1 (Js.mathRound (minutes * 60000))).
  assert (He : now1 < e) by (unfold e; lia).
  unfold render.
  destruct (sameDeps _ _) eqn:D.
  - apply sameDeps_eq in D. rewrite E in D |- *.
    cbn [timer setTimer startCountdown remainingMs endsAt] in D.
    destruct D as [D1 D2]. fold e in D1, D2.
    unfold coherent in *. cbn [timer tickRef setTimer startCountdown endsAt
                                 remainingMs]. fold e.
    rewrite D2 in C. destruct C as (C0 & C1 & C2).
    split; [lia|]. split; [|intros _; discriminate].
    intros R. rewrite D1 in C1. destruct (C1 R) as [C3 _]. lia.
  - apply (effect_coherent now2 _ e O1).
    + rewrite E. reflexivity.
    + lia.
    + rewrite E. cbn [timer setTimer startCountdown remainingMs]. fold e. lia.
    + rewrite E. discriminate.
Qed.

Lemma clearMeter_state (s : state) :
  oneTicker s ->
  clearMeter s = mkState (mkCountdown None 0) None [] (nextId s) (alerts s).
Proof.
  intros O. unfold clearMeter, render. rewrite (stopTicker_oneTicker s O).
  destruct (sameDeps _ _); reflexivity.
Qed.

Lemma tick_coherent (t id now : Z) (s : state) :
  oneTicker s -> coherent t s -> t <= now -> coherent now (tick id now s).
Proof.
  intros O C H. unfold tick.
  destruct (existsb _ (intervals s)) eqn:I;
    [|exact (coherent_later t now s H C)].
  pose proof (installed_ticking s id O I) as T. unfold ticking in T.
  destruct (tickRef s) as [i|] eqn:Ei; [|discriminate T].
  unfold coherent in C. rewrite Ei in C.
  destruct (endsAt (timer s)) as [e|] eqn:Ee; [|discriminate C].
  destruct C as (C0 & C1 & C2).
  assert (R : 0 < remainingMs (timer s)).
  { destruct (Z_le_gt_dec (remainingMs (timer s)) 0) as [L|L]; [|lia].
    destruct (C1 L) as [_ C3]. discriminate C3. }
  assert (Z : (e =? 0) = false) by (apply Z.eqb_neq; lia).
  assert (RC : readCountdown now (timer s)
               = mkCountdown (Some e) (Z.max 0 (e - now))).
  { unfold readCountdown, truthy. rewrite Ee, Z. reflexivity. }
  rewrite RC. unfold render.
  destruct (sameDeps _ _) eqn:D.
  - apply sameDeps_eq in D. cbn in D. destruct D as [D1 _].
    unfold coherent. cbn [timer tickRef setTimer endsAt remainingMs].
    rewrite Ei. split; [exact C0|]. split; [lia | intros _; discriminate].
  - apply (effect_coherent now _ e).
    + exact O.
    + reflexivity.
    + exact C0.
    + cbn. lia.
    + cbn. rewrite Ei. discriminate.
Qed.

Lemma last_cons_default (l : list Z) :
  forall x d, last (x :: l) d = last l x.
Proof.
  induction l as [|a l IH]; intros x d; [reflexivity|].
  change (last (a :: l) d = last (a :: l) x). rewrite !IH. reflexivity.
Qed.

Lemma run_coherent (events : list event) :
  forall s t,
    oneTicker s -> coherent t s -> 0 <= t ->
    nondecreasingFrom t (clockReads events) ->
    coherent (lastRead t (clockReads events)) (run s events).
Proof.
  unfold run, lastRead.
  induction events as [|e events IH]; intros s t O C Ht M; cbn [fold_left].
  - exact C.
  - pose proof (step_oneTicker s e O) as O'.
    destruct e as [now1 now2 minutes | | id now];
      cbn [clockReads nondecreasingFrom] in M |- *.
    + destruct M as (M1 & M2 & M3).
      assert (L : last (now1 :: now2 :: clockReads events) t
                  = last (clockReads events) now2).
      { rewrite !last_cons_default. reflexivity. }
      rewrite L. apply IH; [exact O' | | lia | exact M3].
      apply (startMeter_coherent t); assumption.
    + apply IH; [exact O' | | exact Ht | exact M].
      cbn [step]. rewrite (clearMeter_state s O). reflexivity.
    + destruct M as (M1 & M2).
      assert (L : last (now :: clockReads events) t
                  = last (clockReads events) now).
      { apply last_cons_default. }
      rewrite L. apply IH; [exact O' | | lia | exact M2].
      apply (tick_coherent t); assumption.
Qed.

(** X15.  With a clock that is not negative and does not go back, the
    ticker is installed exactly while the countdown is running: a running
    countdown is always being refreshed, and an idle or expired one is
    never ticked. *)
Theorem meter_ticker_iff_running (first t0 : Z) (events : list event) :
  0 < first -> 0 <= t0 ->
  nondecreasingFrom t0 (clockReads events) ->
  (phaseOf (timer (run (init first) events)) = Running
   <-> tickRef (run (init first) events) <> None).
Proof.
  intros Hf Ht M.
  pose proof (run_coherent events (init first) t0 (init_oneTicker first Hf)
                (eq_refl : coherent t0 (init first)) Ht M) as C.
  unfold coherent in C. unfold phaseOf, truthy.
  destruct (endsAt (timer (run (init first) events))) as [e|].
  - destruct C as (C0 & C1 & C2).
    assert (Z : (e =? 0) = false) by (apply Z.eqb_neq; lia).
    rewrite Z. cbn [negb].
    destruct (remainingMs (timer (run (init first) events)) <=? 0) eqn:R.
    + apply Z.leb_le in R. destruct (C1 R) as [_ C3].
      split; [discriminate | intros N; contradiction].
    + apply Z.leb_gt in R. split; [intros _; exact (C2 R) | reflexivity].
  - cbn [negb]. split; [discriminate | intros N; contradiction].
Qed.

Lemma meter_ticker_iff_running_witness :
  let events := [StartMeter 1000 1000 1; Tick 1 30000; Tick 1 61000] in
  0 < 1 /\ 0 <= 0 /\ nondecreasingFrom 0 (clockReads events) /\
  (phaseOf (timer (run (init 1) events)) = Running
   <-> tickRef (run (init 1) events) <> None).
Proof.
  intros events.
  assert (H1 : 0 < 1) by lia. assert (H2 : 0 <= 0) by lia.
  assert (H3 : nondecreasingFrom 0 (clockReads events))
    by (cbn; repeat split; lia).
  split; [exact H1|]. split; [exact H2|]. split; [exact H3|].
  exact (meter_ticker_iff_running 1 0 events H1 H2 H3).
Defined.

Lemma quiet_run (more : list event) :
  forall s,
    tickRef s = None -> intervals s = [] -> started more = O ->
    alerts (run s more) = alerts s.
Proof.
  unfold run. induction more as [|e more IH]; intros s T I S;
    cbn [fold_left]; [reflexivity|].
  destruct e as [now1 now2 minutes | | id now]; cbn [started] in S;
    [discriminate S | |]; cbn [step].
  - assert (E : clearMeter s
                = mkState (mkCountdown None 0) None [] (nextId s) (alerts s)).
    { unfold clearMeter, stopTicker, render. rewrite T.
      unfold setTimer. rewrite T, I. cbn [timer].
      destruct (sameDeps _ _); reflexivity. }
    rewrite E. rewrite IH; [reflexivity | reflexivity | reflexivity | exact S].
  - unfold tick. rewrite I. cbn [existsb]. apply IH; assumption.
Qed.

(** X16.  When the first tick at or after the end of a running countdown
    arrives, the timer shows zero, the ticker is stopped and the alert is
    raised, once: whatever follows, short of a new countdown, raises no
    further alert. *)
Theorem meter_expiry_alerts_once (first : Z) (events more : list event)
    (id e now : Z) :
  0 < first ->
  phaseOf (timer (run (init first) events)) = Running ->
  tickRef (run (init first) events) = Some id ->
  endsAt (timer (run (init first) events)) = Some e ->
  e <= now ->
  started more = O ->
  timer (step (run (init first) events) (Tick id now)) = mkCountdown (Some e) 0
  /\ tickRef (step (run (init first) events) (Tick id now)) = None
  /\ alerts (run (step (run (init first) events) (Tick id now)) more)
     = S (alerts (run (init first) events)).
Proof.
  intros Hf P T E L Sm.
  pose proof (run_oneTicker events _ (init_oneTicker first Hf)) as O.
  remember (run (init first) events) as s eqn:Es. clear Es.
  destruct O as [On Oi]. rewrite T in Oi. destruct Oi as [Oid Oi].
  unfold phaseOf in P. rewrite E in P.
  destruct (truthy (Some e)) eqn:Tr; [|discriminate P]. cbn [negb] in P.
  destruct (remainingMs (timer s) <=? 0) eqn:R; [discriminate P|].
  apply Z.leb_gt in R.
  assert (St : step s (Tick id now)
               = mkState (mkCountdown (Some e) 0) None [] (nextId s)
                   (S (alerts s))).
  { cbn [step]. unfold tick. rewrite Oi. cbn [existsb].
    rewrite Z.eqb_refl. cbn [orb].
    unfold readCountdown. rewrite E, Tr. cbn [negb].
    replace (Z.max 0 (e - now)) with 0 by lia.
    unfold render, sameDeps. cbn [timer setTimer remainingMs].
    assert (N : (remainingMs (timer s) =? 0) = false)
      by (apply Z.eqb_neq; lia).
    rewrite N. cbn [andb].
    set (s1 := setTimer (mkCountdown (Some e) 0) s).
    assert (O1 : oneTicker s1).
    { split; [exact On|]. unfold s1. cbn [tickRef setTimer intervals nextId].
      rewrite T. split; assumption. }
    unfold effect.
    change (endsAt (timer s1)) with (Some e).
    change (remainingMs (timer s1)) with 0.
    rewrite Tr. cbn [negb]. change (0 <=? 0) with true. cbv iota.
    rewrite (stopTicker_oneTicker s1 O1). reflexivity. }
  rewrite St. cbn [timer tickRef]. split; [reflexivity|].
  split; [reflexivity|].
  rewrite (quiet_run more (mkState (mkCountdown (Some e) 0) None []
                             (nextId s) (S (alerts s)))
             eq_refl eq_refl Sm).
  reflexivity.
Qed.

Lemma meter_expiry_alerts_once_witness :
  let events := [StartMeter 1000 1000 1; Tick 1 30000] in
  let more := [Tick 1 62000; ClearMeter; Tick 1 63000] in
  0 < 1 /\
  phaseOf (timer (run (init 1) events)) = Running /\
  tickRef (run (init 1) events) = Some 1 /\
  endsAt (timer (run (init 1) events)) = Some 61000 /\
  61000 <= 61500 /\
  started more = O /\
  timer (step (run (init 1) events) (Tick 1 61500)) = mkCountdown (Some 61000) 0
  /\ tickRef (step (run (init 1) events) (Tick 1 61500)) = None
  /\ alerts (run (step (run (init 1) events) (Tick 1 61500)) more)
     = S (alerts (run (init 1) events)).
Proof.
  intros events more.
  assert (H1 : 0 < 1) by lia.
  assert (H2 : phaseOf (timer (run (init 1) events)) = Running)
    by (vm_compute; reflexivity).
  assert (H3 : tickRef (run (init 1) events) = Some 1)
    by (vm_compute; reflexivity).
  assert (H4 : endsAt (timer (run (init 1) events)) = Some 61000)
    by (vm_compute; reflexivity).
  assert (H5 : 61000 <= 61500) by lia.
  assert (H6 : started more = O) by reflexivity.
  split; [exact H1|]. split; [exact H2|]. split; [exact H3|].
  split; [exact H4|]. split; [exact H5|]. split; [exact H6|].
  exact (meter_expiry_alerts_once 1 events more 1 61000 61500
           H1 H2 H3 H4 H5 H6).
Defined.

End MeterMore.

(** ** The compass of the component *)

Module CompassUIMore.

Import Js CompassUI Notions.

Lemma stopAt_last (pre : list Compass.Listener) (l : Compass.Listener) :
  stopAt (List.length pre) (pre ++ [l])%list = (pre ++ [Compass.stop l])%list.
Proof.
  induction pre as [|p pre IH]; [reflexivity|].
  cbn [List.length app stopAt]. rewrite IH. reflexivity.
Qed.

Lemma dispatch_stopped (ev : Compass.OrientationEvent)
    (ls : list Compass.Listener) :
  Forall stopped ls ->
  map (fun l => Compass.step l (Compass.Dispatch ev)) ls = ls /\
  existsb delivers ls = false /\
  filter Compass.registered ls = [].
Proof.
  induction 1 as [|l ls [Ha Hr] _ (IH1 & IH2 & IH3)]; [repeat split|].
  cbn [map existsb filter]. rewrite IH1, IH2, IH3.
  unfold delivers. cbn [Compass.step]. rewrite Hr. repeat split.
Qed.

Lemma dispatch_live (ev : Compass.OrientationEvent) (l : Compass.Listener) :
  Compass.active l = true -> Compass.registered l = true ->
  Compass.active (Compass.step l (Compass.Dispatch ev)) = true /\
  Compass.registered (Compass.step l (Compass.Dispatch ev)) = true.
Proof.
  intros Ha Hr. cbn [Compass.step]. rewrite Hr. unfold Compass.handler.
  rewrite Ha. cbn. rewrite ?Ha, ?Hr. split; reflexivity.
Qed.

Lemma step_oneListener (s : state) (e : event) :
  oneListener s -> oneListener (step s e).
Proof.
  unfold oneListener. intros H.
  destruct e as [p | | ev]; cbn [step].
  - unfold enableCompass.
    destruct (negb (requestOrientationPermissionIfNeeded p)).
    + exact H.
    + destruct (compassStopRef s) as [i|] eqn:E.
      * rewrite E. exact H.
      * cbn. destruct H as [_ H]. split; [reflexivity|].
        exists (listeners s), Compass.startCompass. repeat split. exact H.
  - unfold disableCompass. cbn. split; [reflexivity|].
    destruct (compassStopRef s) as [i|].
    + destruct H as (_ & pre & l & -> & -> & Hp & _).
      rewrite stopAt_last. apply Forall_app. split; [exact Hp|].
      constructor; [split; reflexivity | constructor].
    + exact (proj2 H).
  - unfold orientation. cbn [compassStopRef compassOn listeners].
    destruct (compassStopRef s) as [i|].
    + destruct H as (Hon & pre & l & El & -> & Hp & Ha & Hr).
      split; [exact Hon|]. rewrite El, map_app.
      destruct (dispatch_stopped ev pre Hp) as (M & _ & _). rewrite M.
      cbn [map].
      destruct (dispatch_live ev l Ha Hr) as [Ha' Hr'].
      exists pre, (Compass.step l (Compass.Dispatch ev)).
      repeat split; assumption.
    + destruct H as [Hon Hs]. split; [exact Hon|].
      destruct (dispatch_stopped ev _ Hs) as (M & _ & _). rewrite M. exact Hs.
Qed.

Lemma run_oneListener (events : list event) :
  forall s, oneListener s -> oneListener (run s events).
Proof.
  unfold run. induction events as [|e events IH]; intros s H; cbn [fold_left].
  - exact H.
  - apply IH. apply step_oneListener. exact H.
Qed.

Lemma init_oneListener (st : string) : oneListener (init st).
Proof. split; [reflexivity | constructor]. Qed.

(** X17.  However often the compass is enabled and disabled, and however
    the permission requests end, one listener is registered while
    [compassOn] is true and none while it is false; [compassOn] is true
    exactly when [compassStopRef] holds a stop function. *)
Theorem compass_single_listener (st : string) (events : list event) :
  List.length (filter Compass.registered (listeners (run (init st) events)))
  = (if compassOn (run (init st) events) then 1%nat else 0%nat) /\
  (compassOn (run (init st) events) = true
   <-> compassStopRef (run (init st) events) <> None).
Proof.
  pose proof (run_oneListener events _ (init_oneListener st)) as H.
  unfold oneListener in H.
  destruct (compassStopRef (run (init st) events)) as [i|].
  - destruct H as (Hon & pre & l & El & _ & Hp & _ & Hr).
    rewrite Hon, El, filter_app.
    destruct (dispatch_stopped (Compass.mkOrientationEvent VNull VNull) pre Hp)
      as (_ & _ & F).
    rewrite F. cbn [filter app]. rewrite Hr.
    split; [reflexivity|]. split; [discriminate | reflexivity].
  - destruct H as [Hon Hs]. rewrite Hon.
    destruct (dispatch_stopped (Compass.mkOrientationEvent VNull VNull) _ Hs)
      as (_ & _ & F).
    rewrite F. split; [reflexivity|].
    split; [discriminate | intros N; contradiction].
Qed.

(** X18.  The heading of the component changes only when an orientation
    event arrives while the compass is on, and then it becomes the heading
    of that event's reading ([null] when the event has no heading data).
    Disabling the compass keeps the last heading, and no event changes it
    while the compass is off. *)
Theorem compass_heading_follows (st : string) (events : list event)
    (e : event) :
  heading (step (run (init st) events) e)
  = match e with
    | Orientation ev =>
        if compassOn (run (init st) events)
        then Compass.heading (Compass.reading ev)
        else heading (run (init st) events)
    | _ => heading (run (init st) events)
    end.
Proof.
  pose proof (run_oneListener events _ (init_oneListener st)) as H.
  unfold oneListener in H.
  destruct e as [p | | ev]; cbn [step].
  - unfold enableCompass.
    destruct (negb (requestOrientationPermissionIfNeeded p)); [reflexivity|].
    destruct (compassStopRef (run (init st) events)); reflexivity.
  - reflexivity.
  - unfold orientation. cbn [heading].
    destruct (compassStopRef (run (init st) events)) as [i|].
    + destruct H as (Hon & pre & l & El & _ & Hp & Ha & Hr).
      rewrite Hon, El, existsb_app. cbn [existsb]. unfold delivers at 2.
      rewrite Ha, Hr. cbn [andb orb]. rewrite orb_true_r. reflexivity.
    + destruct H as [Hon Hs]. rewrite Hon.
      destruct (dispatch_stopped ev _ Hs) as (_ & X & _). rewrite X.
      reflexivity.
Qed.

End CompassUIMore.

(** ** The arrow and the status of a save *)

Module AppMore.

Import Js App Park Spec JsFacts.

(** X19.  With a bearing, the arrow rotation is a finite number exactly
    when the heading is one: a heading that is [NaN] or infinite makes the
    rotation [NaN].  The handler emits such headings: an infinite direct
    heading is passed on as it is, and an infinite [alpha] gives the
    heading [NaN]. *)
Theorem arrowRotation_finite_iff (bearing : Z) (h : num) :
  (arrowRotation (Some bearing) (Some h) = NaN <-> isFinite h = false) /\
  ((exists r, arrowRotation (Some bearing) (Some h) = Fin r)
   <-> isFinite h = true) /\
  (forall a : value, h = PosInf \/ h = NegInf ->
     Compass.heading
       (Compass.reading (Compass.mkOrientationEvent (VNum h) a)) = Some h /\
     Compass.heading
       (Compass.reading (Compass.mkOrientationEvent VNull (VNum h)))
     = Some NaN).
Proof.
  split; [|split].
  - destruct h as [q | | |]; cbn; split; try discriminate; reflexivity.
  - destruct h as [q | | |]; cbn.
    + split; [reflexivity | intros _; eexists; reflexivity].
    + split; [intros [r E]; discriminate E | discriminate].
    + split; [intros [r E]; discriminate E | discriminate].
    + split; [intros [r E]; discriminate E | discriminate].
  - intros a [-> | ->]; split; reflexivity.
Qed.

Lemma arrowRotation_finite_iff_witness :
  (PosInf = PosInf \/ PosInf = NegInf) /\
  Compass.heading
    (Compass.reading (Compass.mkOrientationEvent VNull (VNum PosInf)))
  = Some NaN /\
  arrowRotation (Some 90) (Some NaN) = NaN.
Proof.
  assert (H : PosInf = PosInf \/ PosInf = NegInf) by (left; reflexivity).
  split; [exact H|]. split.
  - exact (proj2 (proj2 (proj2 (arrowRotation_finite_iff 90 PosInf)) VNull H)).
  - exact (proj2 (proj1 (arrowRotation_finite_iff 90 NaN)) eq_refl).
Defined.

Lemma mathRound_zero_iff (a : Q) :
  Js.mathRound a = 0 <-> (- (1 # 2) <= a /\ a < 1 # 2)%Q.
Proof.
  destruct (mathRound_nearest a) as [H1 H2]. split.
  - intros E. rewrite E in H1, H2. change (inject_Z 0) with 0%Q in *.
    split; lra.
  - intros [L U]. apply Z.le_antisymm.
    + destruct (Z_le_gt_dec (Js.mathRound a) 0) as [X|X]; [exact X|].
      assert (Y : 1 <= Js.mathRound a) by lia.
      rewrite Zle_Qle in Y. change (inject_Z 1) with 1%Q in Y. lra.
    + destruct (Z_le_gt_dec 0 (Js.mathRound a)) as [X|X]; [exact X|].
      assert (Y : Js.mathRound a <= -1) by lia.
      rewrite Zle_Qle in Y. change (inject_Z (-1)) with (- (1))%Q in Y. lra.
Qed.

Lemma toStringInt_signed (r : Z) :
  Z.abs r < 2 ^ 53 ->
  Js.toStringInt r
  = ((if (r <? 0)%Z then String "-" EmptyString else EmptyString)
     ++ Js.digits (Z.abs r))%string.
Proof.
  intros H. unfold Js.toStringInt, Js.shortest.
  assert (E1 : (Z.abs r <? 2 ^ 53) = true) by (apply Z.ltb_lt; exact H).
  assert (E2 : (10 ^ 21 <=? Z.abs r) = false) by (apply Z.leb_gt; lia).
  rewrite E1, E2. reflexivity.
Qed.

(** X20.  After a save the status is the plain "Saved!" exactly when the
    position has no accuracy or one that rounds to zero; a position without
    accuracy, which the acquisition ranks as the least accurate, is reported
    without any figure.  Otherwise the status names the accuracy rounded to
    the nearest whole number, halves upwards: for a rounded accuracy [r]
    other than zero and below [2^53] in size, the text is "Saved with ±",
    the sign "-" if [r] is negative, the decimal digits of the size of [r]
    without a leading zero, and " m accuracy". *)
Theorem savedStatus_text (pos : GeolocationPosition) :
  (savedStatus pos = "Saved!"%string
   <-> match accuracy (coords pos) with
       | None => True
       | Some a => (- (1 # 2) <= a /\ a < 1 # 2)%Q
       end) /\
  (forall a : Q, accuracy (coords pos) = Some a ->
     let r := Js.mathRound a in
     (inject_Z r - (1 # 2) <= a /\ a < inject_Z r + (1 # 2))%Q /\
     (r <> 0 -> Z.abs r < 2 ^ 53 ->
      exists ds : string,
        savedStatus pos
        = ("Saved with ±"
           ++ (if (r <? 0)%Z then String "-" EmptyString else EmptyString)
           ++ ds ++ " m accuracy")%string /\
        numeral ds (Z.abs r))).
Proof.
  split.
  - unfold savedStatus.
    destruct (accuracy (coords pos)) as [a|].
    + rewrite <- mathRound_zero_iff.
      destruct (Js.mathRound a =? 0) eqn:E.
      * apply Z.eqb_eq in E. split; [intros _; exact E | reflexivity].
      * apply Z.eqb_neq in E. split; [|contradiction].
        intros H. cbn in H. discriminate H.
    + split; [intros _; exact I | reflexivity].
  - intros a Ha r. split; [exact (mathRound_nearest a)|].
    intros Hr Hb. exists (Js.digits (Z.abs r)). split.
    + unfold savedStatus. rewrite Ha. fold r.
      assert (E : (r =? 0) = false) by (apply Z.eqb_neq; exact Hr).
      rewrite E, (toStringInt_signed r Hb).
      destruct (r <? 0); reflexivity.
    + apply numeral_digits. apply Z.abs_nonneg.
Qed.

Lemma savedStatus_text_witness :
  accuracy (coords (pos_with (62 # 5))) = Some (62 # 5) /\
  Js.mathRound (62 # 5) <> 0 /\
  Z.abs (Js.mathRound (62 # 5)) < 2 ^ 53 /\
  savedStatus (pos_with (62 # 5)) = "Saved with ±12 m accuracy"%string /\
  exists ds : string,
    savedStatus (pos_with (62 # 5))
    = ("Saved with ±" ++ ds ++ " m accuracy")%string /\
    numeral ds 12.
Proof.
  assert (Ha : accuracy (coords (pos_with (62 # 5))) = Some (62 # 5))
    by reflexivity.
  assert (Hr : Js.mathRound (62 # 5) <> 0) by (vm_compute; discriminate).
  assert (Hb : Z.abs (Js.mathRound (62 # 5)) < 2 ^ 53)
    by (vm_compute; reflexivity).
  split; [exact Ha|]. split; [exact Hr|]. split; [exact Hb|].
  split; [vm_compute; reflexivity|].
  exact (proj2 (proj2 (savedStatus_text (pos_with (62 # 5))) (62 # 5) Ha)
           Hr Hb).
Defined.

End AppMore.

(** ** Distance and bearing over the real numbers *)

Module GeoRealMore.

Import Reals Lra GeoReal.
Local Open Scope R_scope.

Lemma toRad_sub (x y : R) : toRad (x - y) = toRad x - toRad y.
Proof. unfold toRad. field. Qed.

Lemma toRad_0 : toRad 0 = 0.
Proof. unfold toRad. field. Qed.

Lemma toRad_range (x : R) : -90 <= x <= 90 -> - (PI / 2) <= toRad x <= PI / 2.
Proof.
  intros [H1 H2]. unfold toRad. pose proof PI_RGT_0. split; nra.
Qed.

Lemma asin_nonneg (x : R) : 0 <= x <= 1 -> 0 <= asin x.
Proof.
  intros [H0 H1]. destruct (Rle_lt_dec 0 (asin x)) as [L|L]; [exact L|].
  exfalso. destruct (asin_bound x) as [B _].
  assert (S : sin (asin x) < 0).
  { apply sin_lt_0_var; [|exact L]. pose proof PI_RGT_0. lra. }
  rewrite sin_asin in S by lra. lra.
Qed.

Lemma s1_range (p1 p2 dl : R) :
  - (PI / 2) <= p1 <= PI / 2 -> - (PI / 2) <= p2 <= PI / 2 ->
  0 <= sin ((p2 - p1) / 2) ^ 2 + cos p1 * cos p2 * sin (dl / 2) ^ 2 <= 1.
Proof.
  intros [A1 A2] [B1 B2].
  pose proof (cos_ge_0 p1 A1 A2) as C1.
  pose proof (cos_ge_0 p2 B1 B2) as C2.
  pose proof (SIN_bound (dl / 2)) as [S1 S2].
  pose proof (cos_2a_sin ((p2 - p1) / 2)) as D.
  replace (2 * ((p2 - p1) / 2)) with (p2 - p1) in D by field.
  rewrite cos_minus in D.
  pose proof (COS_bound (p1 + p2)) as [_ E]. rewrite cos_plus in E.
  set (a := sin ((p2 - p1) / 2)) in *.
  set (b := sin (dl / 2)) in *.
  set (c1 := cos p1) in *. set (c2 := cos p2) in *.
  set (s1 := sin p1) in *. set (s2 := sin p2) in *.
  assert (P : 0 <= c1 * c2) by (apply Rmult_le_pos; assumption).
  assert (B : 0 <= b ^ 2 <= 1) by (split; nra).
  assert (PB : 0 <= c1 * c2 * b ^ 2 <= c1 * c2) by (split; nra).
  split; nra.
Qed.

Lemma mathSqrt_nonneg (x : R) : 0 <= x -> mathSqrt x = Some (sqrt x).
Proof.
  intros H. unfold mathSqrt. destruct (Rlt_dec x 0) as [L|L]; [lra | reflexivity].
Qed.

Lemma mathAsin_unit (x : R) : -1 <= x <= 1 -> mathAsin x = Some (asin x).
Proof.
  intros [H0 H1]. unfold mathAsin.
  destruct (Rlt_dec x (-1)) as [L|L]; [lra|].
  destruct (Rlt_dec 1 x) as [M|M]; [lra | reflexivity].
Qed.

(** X21.  The distance from a point to itself is zero, at every
    coordinates. *)
Theorem haversine_same (a : LatLng) : haversine a a = Some 0.
Proof.
  unfold haversine. cbv zeta.
  replace (lat a - lat a) with 0 by ring.
  replace (lon a - lon a) with 0 by ring.
  rewrite toRad_0. replace (0 / 2) with 0 by field. rewrite sin_0.
  replace (0 ^ 2 + cos (toRad (lat a)) * cos (toRad (lat a)) * 0 ^ 2)
    with 0 by ring.
  rewrite mathSqrt_nonneg by lra. rewrite sqrt_0.
  rewrite mathAsin_unit by lra. rewrite asin_0.
  f_equal. ring.
Qed.

Lemma haversine_arg_sym (a b : LatLng) :
  sin (toRad (lat b - lat a) / 2) ^ 2 +
  cos (toRad (lat a)) * cos (toRad (lat b)) *
  sin (toRad (lon b - lon a) / 2) ^ 2
  = sin (toRad (lat a - lat b) / 2) ^ 2 +
    cos (toRad (lat b)) * cos (toRad (lat a)) *
    sin (toRad (lon a - lon b) / 2) ^ 2.
Proof.
  replace (toRad (lat a - lat b) / 2) with (- (toRad (lat b - lat a) / 2))
    by (unfold toRad; field).
  replace (toRad (lon a - lon b) / 2) with (- (toRad (lon b - lon a) / 2))
    by (unfold toRad; field).
  rewrite !sin_neg. ring.
Qed.

(** X22.  The distance is the same in both directions. *)
Theorem haversine_sym (a b : LatLng) : haversine a b = haversine b a.
Proof.
  unfold haversine. cbv zeta. rewrite (haversine_arg_sym a b). reflexivity.
Qed.

(** X23.  For latitudes between -90 and 90 degrees the distance is a
    number (the argument of the square root and of the arcsine is in
    range), it is not negative, and it is at most half the circumference
    of the sphere, [PI * R]. *)
Theorem haversine_range (a b : LatLng) :
  -90 <= lat a <= 90 -> -90 <= lat b <= 90 ->
  exists d, haversine a b = Some d /\ 0 <= d <= PI * earthRadius.
Proof.
  intros Ha Hb.
  pose proof (s1_range (toRad (lat a)) (toRad (lat b))
                (toRad (lon b - lon a)) (toRad_range _ Ha) (toRad_range _ Hb))
    as [S0 S1].
  rewrite <- toRad_sub in S0, S1.
  unfold haversine. cbv zeta.
  set (s := sin (toRad (lat b - lat a) / 2) ^ 2 + _) in *.
  rewrite (mathSqrt_nonneg s S0).
  assert (Q0 : 0 <= sqrt s) by apply sqrt_pos.
  assert (Q1 : sqrt s <= 1).
  { rewrite <- sqrt_1. apply sqrt_le_1_alt. exact S1. }
  rewrite mathAsin_unit by lra.
  exists (2 * earthRadius * asin (sqrt s)). split; [reflexivity|].
  pose proof (asin_nonneg (sqrt s) (conj Q0 Q1)) as A0.
  destruct (asin_bound (sqrt s)) as [_ A1].
  unfold earthRadius. split; lra.
Qed.

Lemma haversine_range_witness :
  let a := mkLatLng 10 20 in
  let b := mkLatLng (-30) 170 in
  -90 <= lat a <= 90 /\ -90 <= lat b <= 90 /\
  exists d, haversine a b = Some d /\ 0 <= d <= PI * earthRadius.
Proof.
  intros a b.
  assert (Ha : -90 <= lat a <= 90) by (cbn; lra).
  assert (Hb : -90 <= lat b <= 90) by (cbn; lra).
  split; [exact Ha|]. split; [exact Hb|].
  exact (haversine_range a b Ha Hb).
Defined.

Lemma Rrem_360_nonneg (x : R) :
  0 <= x -> 0 <= Rrem x 360 < 360.
Proof.
  intros H. unfold Rrem, Rtrunc.
  assert (T : 0 <= x / 360) by lra.
  destruct (Rle_dec 0 (x / 360)) as [L|L]; [|contradiction].
  destruct (base_Int_part (x / 360)) as [B1 B2].
  split; lra.
Qed.

Lemma Rrem_360_small (x : R) : 0 <= x < 360 -> Rrem x 360 = x.
Proof.
  intros [H0 H1]. unfold Rrem, Rtrunc.
  destruct (Rle_dec 0 (x / 360)) as [L|L]; [|lra].
  rewrite <- (Int_part_spec (x / 360) 0) by (simpl; lra).
  simpl. ring.
Qed.

Lemma Rrem_360_wrap (x : R) : 360 <= x < 720 -> Rrem x 360 = x - 360.
Proof.
  intros [H0 H1]. unfold Rrem, Rtrunc.
  destruct (Rle_dec 0 (x / 360)) as [L|L]; [|lra].
  rewrite <- (Int_part_spec (x / 360) 1) by (simpl; lra).
  simpl. ring.
Qed.

Lemma mathAtan2_bound (y x : R) :
  - (3 * PI / 2) < mathAtan2 y x < 3 * PI / 2.
Proof.
  pose proof PI_RGT_0 as P. unfold mathAtan2.
  destruct (atan_bound (y / x)) as [A1 A2].
  destruct (Rlt_dec 0 x) as [X|X]; [split; lra|].
  destruct (Rlt_dec x 0) as [X'|X'].
  - destruct (Rle_dec 0 y) as [Y|Y]; split; lra.
  - destruct (Rlt_dec 0 y) as [Y|Y]; [split; lra|].
    destruct (Rlt_dec y 0) as [Y'|Y']; split; lra.
Qed.

Lemma toDeg_shift (t : R) : toDeg t + 360 = (t + 2 * PI) * (180 / PI).
Proof. unfold toDeg. field. apply PI_neq0. Qed.

Lemma turned_nonneg (y x : R) : 0 <= toDeg (mathAtan2 y x) + 360.
Proof.
  rewrite toDeg_shift. pose proof PI_RGT_0 as P.
  destruct (mathAtan2_bound y x) as [B _].
  apply Rmult_le_pos; [lra|].
  apply Rlt_le. apply Rdiv_lt_0_compat; lra.
Qed.

(** X24.  The bearing is in [0, 360) for all coordinates. *)
Theorem bearingFromTo_range (a b : LatLng) :
  0 <= bearingFromTo a b < 360.
Proof.
  unfold bearingFromTo. cbv zeta. apply Rrem_360_nonneg. apply turned_nonneg.
Qed.

Lemma atan_zero_div (x : R) : atan (0 / x) = 0.
Proof. unfold Rdiv. rewrite Rmult_0_l. exact atan_0. Qed.

Lemma toDeg_0 : toDeg 0 = 0.
Proof. unfold toDeg. field. apply PI_neq0. Qed.

Lemma toDeg_PI : toDeg PI = 180.
Proof. unfold toDeg. field. apply PI_neq0. Qed.

Lemma toDeg_PI2 : toDeg (PI / 2) = 90.
Proof. unfold toDeg. field. apply PI_neq0. Qed.

Lemma toDeg_PI2_neg : toDeg (- (PI / 2)) = -90.
Proof. unfold toDeg. field. apply PI_neq0. Qed.

(** On a meridian the two terms of [x] are the sine of the difference of
    the latitudes, and [y] is zero. *)
Lemma meridian_xy (a b : LatLng) :
  lon a = lon b ->
  sin (toRad (lon b) - toRad (lon a)) * cos (toRad (lat b)) = 0 /\
  cos (toRad (lat a)) * sin (toRad (lat b))
  - sin (toRad (lat a)) * cos (toRad (lat b))
    * cos (toRad (lon b) - toRad (lon a))
  = sin (toRad (lat b - lat a)).
Proof.
  intros E. rewrite E.
  replace (toRad (lon b) - toRad (lon b)) with 0 by ring.
  rewrite sin_0, cos_0, toRad_sub, sin_minus. split; ring.
Qed.

(** X25.  Along a meridian the bearing is 0 toward the north and 180
    toward the south. *)
Theorem bearingFromTo_meridian (a b : LatLng) :
  lon a = lon b ->
  (0 < lat b - lat a <= 180 -> bearingFromTo a b = 0) /\
  (-180 < lat b - lat a < 0 -> bearingFromTo a b = 180).
Proof.
  intros E. destruct (meridian_xy a b E) as [Y X].
  pose proof PI_RGT_0 as P.
  unfold bearingFromTo. cbv zeta. rewrite Y, X.
  split; intros [H1 H2].
  - assert (T : 0 < toRad (lat b - lat a) <= PI)
      by (unfold toRad; split; nra).
    assert (Th : mathAtan2 0 (sin (toRad (lat b - lat a))) = 0).
    { unfold mathAtan2.
      destruct (Rlt_dec 0 (sin (toRad (lat b - lat a)))) as [S|S];
        [apply atan_zero_div|].
      destruct (Rlt_dec (sin (toRad (lat b - lat a))) 0) as [S'|S'].
      - exfalso. pose proof (sin_ge_0 (toRad (lat b - lat a))). lra.
      - destruct (Rlt_dec 0 0) as [Z|Z]; [lra|].
        destruct (Rlt_dec 0 0) as [Z'|Z']; [lra | reflexivity]. }
    rewrite Th, toDeg_0, Rrem_360_wrap by lra. ring.
  - assert (T : - PI < toRad (lat b - lat a) < 0)
      by (unfold toRad; split; nra).
    pose proof (sin_lt_0_var _ (proj1 T) (proj2 T)) as S.
    assert (Th : mathAtan2 0 (sin (toRad (lat b - lat a))) = PI).
    { unfold mathAtan2.
      destruct (Rlt_dec 0 (sin (toRad (lat b - lat a)))) as [S'|S']; [lra|].
      destruct (Rlt_dec (sin (toRad (lat b - lat a))) 0) as [S2|S2]; [|lra].
      destruct (Rle_dec 0 0) as [Z|Z]; [|lra].
      rewrite atan_zero_div. ring. }
    rewrite Th, toDeg_PI, Rrem_360_wrap by lra. ring.
Qed.

Lemma bearingFromTo_meridian_witness :
  let a := mkLatLng 10 20 in
  let b := mkLatLng 30 20 in
  lon a = lon b /\ 0 < lat b - lat a <= 180 /\ -180 < lat a - lat b < 0 /\
  bearingFromTo a b = 0 /\ bearingFromTo b a = 180.
Proof.
  intros a b.
  assert (E : lon a = lon b) by reflexivity.
  assert (N : 0 < lat b - lat a <= 180) by (cbn; lra).
  assert (S : -180 < lat a - lat b < 0) by (cbn; lra).
  split; [exact E|]. split; [exact N|]. split; [exact S|]. split.
  - exact (proj1 (bearingFromTo_meridian a b E) N).
  - exact (proj2 (bearingFromTo_meridian b a (eq_sym E)) S).
Defined.

Lemma equator_xy (a b : LatLng) :
  lat a = 0 -> lat b = 0 ->
  sin (toRad (lon b) - toRad (lon a)) * cos (toRad (lat b))
  = sin (toRad (lon b - lon a)) /\
  cos (toRad (lat a)) * sin (toRad (lat b))
  - sin (toRad (lat a)) * cos (toRad (lat b))
    * cos (toRad (lon b) - toRad (lon a))
  = 0.
Proof.
  intros Ea Eb. rewrite Ea, Eb, toRad_0, sin_0, cos_0, toRad_sub.
  split; ring.
Qed.

(** X26.  Along the equator the bearing is 90 toward the east and 270
    toward the west. *)
Theorem bearingFromTo_equator (a b : LatLng) :
  lat a = 0 -> lat b = 0 ->
  (0 < lon b - lon a < 180 -> bearingFromTo a b = 90) /\
  (-180 < lon b - lon a < 0 -> bearingFromTo a b = 270).
Proof.
  intros Ea Eb. destruct (equator_xy a b Ea Eb) as [Y X].
  pose proof PI_RGT_0 as P.
  unfold bearingFromTo. cbv zeta. rewrite Y, X.
  split; intros [H1 H2].
  - assert (T : 0 < toRad (lon b - lon a) < PI)
      by (unfold toRad; split; nra).
    pose proof (sin_gt_0 _ (proj1 T) (proj2 T)) as S.
    assert (Th : mathAtan2 (sin (toRad (lon b - lon a))) 0 = PI / 2).
    { unfold mathAtan2.
      destruct (Rlt_dec 0 0) as [Z|Z]; [lra|].
      destruct (Rlt_dec 0 (sin (toRad (lon b - lon a)))) as [S'|S'];
        [reflexivity | lra]. }
    rewrite Th, toDeg_PI2, Rrem_360_wrap by lra. ring.
  - assert (T : - PI < toRad (lon b - lon a) < 0)
      by (unfold toRad; split; nra).
    pose proof (sin_lt_0_var _ (proj1 T) (proj2 T)) as S.
    assert (Th : mathAtan2 (sin (toRad (lon b - lon a))) 0 = - (PI / 2)).
    { unfold mathAtan2.
      destruct (Rlt_dec 0 0) as [Z|Z]; [lra|].
      destruct (Rlt_dec 0 (sin (toRad (lon b - lon a)))) as [S'|S']; [lra|].
      destruct (Rlt_dec (sin (toRad (lon b - lon a))) 0) as [S2|S2];
        [reflexivity | lra]. }
    rewrite Th, toDeg_PI2_neg, Rrem_360_small by lra. ring.
Qed.

Lemma bearingFromTo_equator_witness :
  let a := mkLatLng 0 20 in
  let b := mkLatLng 0 50 in
  lat a = 0 /\ lat b = 0 /\
  0 < lon b - lon a < 180 /\ -180 < lon a - lon b < 0 /\
  bearingFromTo a b = 90 /\ bearingFromTo b a = 270.
Proof.
  intros a b.
  assert (Ea : lat a = 0) by reflexivity.
  assert (Eb : lat b = 0) by reflexivity.
  assert (E : 0 < lon b - lon a < 180) by (cbn; lra).
  assert (W : -180 < lon a - lon b < 0) by (cbn; lra).
  split; [exact Ea|]. split; [exact Eb|]. split; [exact E|].
  split; [exact W|]. split.
  - exact (proj1 (bearingFromTo_equator a b Ea Eb) E).
  - exact (proj2 (bearingFromTo_equator b a Eb Ea) W).
Defined.

Lemma mathRound_range (x : R) :
  0 <= x < 360 -> (0 <= mathRound x <= 360)%Z.
Proof.
  intros [H0 H1]. unfold mathRound.
  destruct (base_Int_part (x + 1 / 2)) as [B1 B2]. split.
  - assert (L : (-1 < Int_part (x + 1 / 2))%Z) by (apply lt_IZR; lra). lia.
  - assert (L : (Int_part (x + 1 / 2) < 361)%Z) by (apply lt_IZR; lra). lia.
Qed.

Lemma atan_sin_bound (t : R) :
  - (PI / 2) < t < 0 -> t <= atan (sin t) < 0.
Proof.
  intros [T1 T2]. pose proof PI_RGT_0 as P.
  assert (S : sin t < 0) by (apply sin_lt_0_var; lra).
  assert (C : 0 < cos t) by (apply cos_gt_0; lra).
  pose proof (COS_bound t) as [_ C1].
  split.
  - rewrite <- (atan_tan t) at 1 by lra.
    assert (L : tan t <= sin t).
    { unfold tan.
      assert (E : sin t - sin t / cos t = (- sin t) * ((1 - cos t) / cos t))
        by (field; lra).
      assert (N : 0 <= (- sin t) * ((1 - cos t) / cos t)).
      { apply Rmult_le_pos; [lra|].
        apply Rmult_le_pos; [lra|]. apply Rlt_le, Rinv_0_lt_compat. exact C. }
      lra. }
    destruct L as [L|L]; [apply Rlt_le, atan_increasing; exact L|].
    rewrite L. apply Rle_refl.
  - rewrite <- atan_0. apply atan_increasing. exact S.
Qed.

(** X27.  The bearing of the component is a whole number from 0 to 360,
    both included.  With a finite heading of at most 360 the arrow rotation
    made from it is in [0, 360). *)
Theorem bearing_range (spot live : LatLng) :
  exists b : Z,
    bearing (Some spot) (Some live) = Some b /\ (0 <= b <= 360)%Z /\
    forall h : Q, (h <= 360)%Q ->
      exists r : Q,
        App.arrowRotation (Some b) (Some (Js.Fin h)) = Js.Fin r /\
        (0 <= r)%Q /\ (r < 360)%Q.
Proof.
  exists (mathRound (bearingFromTo live spot)). split; [reflexivity|].
  assert (B : (0 <= mathRound (bearingFromTo live spot) <= 360)%Z).
  { apply mathRound_range. unfold bearingFromTo. cbv zeta.
    apply Rrem_360_nonneg. apply turned_nonneg. }
  split; [exact B|]. intros h Hh.
  destruct (AppProofs.arrowRotation_in_range
              (mathRound (bearingFromTo live spot)) h) as (r & E & R0 & R1 & _).
  - assert (Q0 : (0 <= inject_Z (mathRound (bearingFromTo live spot)))%Q).
    { change 0%Q with (inject_Z 0). rewrite <- Zle_Qle. exact (proj1 B). }
    apply Qle_trans with 360%Q; [exact Hh|].
    rewrite <- (Qplus_0_l 360) at 1. apply Qplus_le_l. exact Q0.
  - exists r. split; [exact E | split; assumption].
Qed.

Lemma bearing_range_witness :
  let spot := mkLatLng 30 20 in
  let live := mkLatLng 10 20 in
  exists b : Z,
    bearing (Some spot) (Some live) = Some b /\ (0 <= b <= 360)%Z /\
    (90 <= 360)%Q /\
    exists r : Q,
      App.arrowRotation (Some b) (Some (Js.Fin 90)) = Js.Fin r /\
      (0 <= r)%Q /\ (r < 360)%Q.
Proof.
  intros spot live.
  destruct (bearing_range spot live) as (b & E & B & A).
  assert (H : (90 <= 360)%Q) by (vm_compute; discriminate).
  exists b. split; [exact E|]. split; [exact B|]. split; [exact H|].
  exact (A 90%Q H).
Defined.

(** X28.  Over the real numbers the bound 360 is reached: with longitudes
    in [-180, 180], seen from the equator, a spot at latitude 45 and
    between a millionth of a degree and half a degree to the west has the
    bearing 360, not 0, since the bearing is rounded after it was brought
    into [0, 360).  Without a heading the arrow is then rotated by 360.
    The offsets are kept away from zero: below about [3e-14] degrees the
    sum of the angle and 360 is the double 360 itself, and the code gives
    the bearing 0. *)
Theorem bearing_360 (spot live : LatLng) :
  lat live = 0 -> lat spot = 45 ->
  - 180 <= lon live <= 180 -> - 180 <= lon spot <= 180 ->
  - (1 / 2) <= lon spot - lon live <= - (1 / 1000000) ->
  bearing (Some spot) (Some live) = Some 360%Z /\
  App.arrowRotation (bearing (Some spot) (Some live)) None = Js.Fin 360.
Proof.
  intros El Es _ _ [D1 D2]. pose proof PI_RGT_0 as P.
  assert (G0 : bearing (Some spot) (Some live) = Some 360%Z);
    [|rewrite G0; split; reflexivity].
  unfold bearing, bearingFromTo. cbv zeta. rewrite El, Es, toRad_0.
  replace (toRad 45) with (PI / 4) by (unfold toRad; field).
  rewrite <- toRad_sub, sin_0, cos_0, <- sin_cos_PI4.
  set (c := sin (PI / 4)).
  assert (Hc : 0 < c) by (apply sin_gt_0; lra).
  set (t := toRad (lon spot - lon live)).
  assert (Ht : - (PI / 360) <= t < 0) by (unfold t, toRad; split; nra).
  replace (1 * c - 0 * c * cos t) with c by ring.
  assert (Th : mathAtan2 (sin t * c) c = atan (sin t)).
  { unfold mathAtan2. destruct (Rlt_dec 0 c) as [X|X]; [|lra].
    f_equal. field. lra. }
  rewrite Th.
  destruct (atan_sin_bound t) as [A1 A2]; [lra|].
  assert (G : 359 + 1 / 2 <= toDeg (atan (sin t)) + 360 < 360).
  { rewrite toDeg_shift.
    assert (K : 0 < 180 / PI) by (apply Rdiv_lt_0_compat; lra).
    assert (E1 : (2 * PI) * (180 / PI) = 360) by (field; lra).
    assert (E2 : (2 * PI - PI / 360) * (180 / PI) = 359 + 1 / 2)
      by (field; lra).
    split.
    - rewrite <- E2. apply Rmult_le_compat_r; lra.
    - rewrite <- E1. apply Rmult_lt_compat_r; lra. }
  rewrite Rrem_360_small by lra.
  unfold mathRound. f_equal. symmetry. apply Int_part_spec. simpl. lra.
Qed.


Lemma bearing_360_witness :
  let live := mkLatLng 0 10 in
  let spot := mkLatLng 45 (10 - 1 / 10) in
  lat live = 0 /\ lat spot = 45 /\
  - 180 <= lon live <= 180 /\ - 180 <= lon spot <= 180 /\
  - (1 / 2) <= lon spot - lon live <= - (1 / 1000000) /\
  bearing (Some spot) (Some live) = Some 360%Z /\
  App.arrowRotation (bearing (Some spot) (Some live)) None = Js.Fin 360.
Proof.
  intros live spot.
  assert (El : lat live = 0) by reflexivity.
  assert (Es : lat spot = 45) by reflexivity.
  assert (Ll : - 180 <= lon live <= 180) by (cbn; lra).
  assert (Ls : - 180 <= lon spot <= 180) by (cbn; lra).
  assert (D : - (1 / 2) <= lon spot - lon live <= - (1 / 1000000))
    by (cbn; lra).
  split; [exact El|]. split; [exact Es|]. split; [exact Ll|].
  split; [exact Ls|]. split; [exact D|].
  exact (bearing_360 spot live El Es Ll Ls D).
Defined.

End GeoRealMore.

(** ** The live position of the component *)

Module LiveWatchMore.

Import Js App LiveWatch Notions.

Lemma mount_watching (loaded : option ParkedSpot) (first : Z) :
  0 < first -> watching (mount true loaded first).
Proof.
  intros H. unfold mount, effectBody, watching. cbn [spot negb].
  destruct loaded as [p|]; cbn.
  - split; [lia|]. exists first. repeat split; lia.
  - split; [exact H|]. repeat split.
Qed.

Lemma forget_watching (s : state) :
  watching s -> watching (onForget true s) /\ present (onForget true s) = false.
Proof.
  intros [Hn H]. unfold onForget, setSpot, present.
  destruct (spot s) as [p|] eqn:E.
  - destruct H as (id & Hid & Hw & Hi & Hc).
    unfold runCleanup. cbn [cleanup spot watchId watches nextId livePos status].
    rewrite Hc. unfold Timer.truthy.
    assert (Z : (id =? 0) = false) by (apply Z.eqb_neq; lia).
    rewrite Z, Hw. cbn [negb]. unfold clearWatch. cbn [filter].
    rewrite Z.eqb_refl. cbn [negb]. unfold effectBody, watching. cbn.
    split; [|reflexivity]. split; [exact Hn|]. repeat split.
  - unfold watching. cbn. rewrite E.
    split; [|reflexivity]. split; [exact Hn | exact H].
Qed.

Lemma save_watching (coords : GeolocationCoordinates)
    (note photo : option string) (now : Z) (s : state) :
  watching s -> present s = false ->
  watching (saveSpot true coords note photo now s) /\
  present (saveSpot true coords note photo now s) = true.
Proof.
  intros [Hn H] P. unfold present in P.
  destruct (spot s) as [p|] eqn:E; [discriminate P|].
  destruct H as (Hw & Hi & Hc).
  unfold saveSpot, setSpot. rewrite E. unfold runCleanup.
  cbn [cleanup spot watchId watches nextId livePos status].
  rewrite Hc, Hi. unfold effectBody, watching, present. cbn. rewrite Hw.
  split; [|reflexivity]. split; [lia|].
  exists (nextId s). repeat split; lia.
Qed.

Lemma report_watching (s : state) (e : event) :
  match e with Report _ _ | ReportError _ _ => True | _ => False end ->
  watching s ->
  watching (step true s e) /\ present (step true s e) = present s /\
  watches (step true s e) = watches s.
Proof.
  intros He W. destruct e as [c n p t | | id pos | id err];
    try contradiction; cbn [step].
  - unfold onLivePosition. destruct (existsb _ (watches s)).
    + split; [exact W|]. split; reflexivity.
    + split; [exact W|]. split; reflexivity.
  - unfold onLiveError. destruct (existsb _ (watches s)).
    + split; [exact W|]. split; reflexivity.
    + split; [exact W|]. split; reflexivity.
Qed.

Lemma run_watching (events : list event) :
  forall s,
    watching s -> savesOnlyWhenEmpty (present s) events ->
    watching (run true s events).
Proof.
  unfold run. induction events as [|e events IH]; intros s W O;
    cbn [fold_left]; [exact W|].
  destruct e as [c n p t | | id pos | id err];
    cbn [savesOnlyWhenEmpty] in O.
  - destruct O as [P O].
    destruct (save_watching c n p t s W P) as [W' P'].
    apply IH; [exact W'|]. cbn [step]. rewrite P'. exact O.
  - destruct (forget_watching s W) as [W' P'].
    apply IH; [exact W'|]. cbn [step]. rewrite P'. exact O.
  - destruct (report_watching s (Report id pos) I W) as (W' & P' & _).
    apply IH; [exact W'|]. rewrite P'. exact O.
  - destruct (report_watching s (ReportError id err) I W) as (W' & P' & _).
    apply IH; [exact W'|]. rewrite P'. exact O.
Qed.

(** X29.  As long as a spot is saved only while there is none, the
    position is watched exactly while there is a spot: one watch is
    installed then, with its id in [watchId], and none is installed
    otherwise.  (The ids of watches are positive.) *)
Theorem live_watch_follows_spot (loaded : option ParkedSpot) (first : Z)
    (events : list event) :
  0 < first ->
  savesOnlyWhenEmpty (present (mount true loaded first)) events ->
  (spot (run true (mount true loaded first) events) <> None
   <-> watches (run true (mount true loaded first) events) <> []) /\
  watches (run true (mount true loaded first) events)
  = match watchId (run true (mount true loaded first) events) with
    | Some id => [id]
    | None => []
    end.
Proof.
  intros Hf O.
  pose proof (run_watching events _ (mount_watching loaded first Hf) O)
    as [_ W].
  destruct (spot (run true (mount true loaded first) events)) as [p|].
  - destruct W as (id & _ & Hw & Hi & _). rewrite Hw, Hi.
    split; [|reflexivity]. split; intros _; discriminate.
  - destruct W as (Hw & Hi & _). rewrite Hw, Hi.
    split; [|reflexivity]. split; intros N; contradiction.
Qed.

Lemma live_watch_follows_spot_witness :
  let c := mkCoords 1 2 (Some 10%Q) in
  let events := [Save c None None 1000; Report 1 (mkPosition c 1500);
                 Forget; Save c None None 2000] in
  0 < 1 /\
  savesOnlyWhenEmpty (present (mount true None 1)) events /\
  (spot (run true (mount true None 1) events) <> None
   <-> watches (run true (mount true None 1) events) <> []) /\
  watches (run true (mount true None 1) events)
  = match watchId (run true (mount true None 1) events) with
    | Some id => [id]
    | None => []
    end.
Proof.
  intros c events.
  assert (H : 0 < 1) by lia.
  assert (O : savesOnlyWhenEmpty (present (mount true None 1)) events)
    by (cbn; repeat split).
  split; [exact H|]. split; [exact O|].
  exact (live_watch_follows_spot None 1 events H O).
Defined.

Lemma reports_unwatched (events : list event) :
  forall s,
    reportsOnly events -> watches s = [] ->
    livePos (run true s events) = livePos s /\
    watches (run true s events) = [].
Proof.
  unfold run. induction events as [|e events IH]; intros s R W;
    cbn [fold_left]; [split; [reflexivity | exact W]|].
  inversion R as [|e' l He Hl]; subst.
  destruct e as [c n p t | | id pos | id err]; try contradiction;
    cbn [step].
  - unfold onLivePosition. rewrite W. cbn [existsb]. apply IH; assumption.
  - unfold onLiveError. rewrite W. cbn [existsb]. apply IH; assumption.
Qed.

(** X30.  When a spot is saved while there is one already (a second
    [onParkHere] that was in flight when the first one saved), the effect
    clears the watch and installs no new one, since its body still sees
    the old [watchId]: the new spot is shown, no watch is installed, and
    no report of the platform reaches the live position any more. *)
Theorem live_watch_lost_on_replacement (loaded : option ParkedSpot)
    (first : Z) (events reports : list event)
    (coords : GeolocationCoordinates) (note photo : option string)
    (now : Z) :
  0 < first ->
  savesOnlyWhenEmpty (present (mount true loaded first)) events ->
  spot (run true (mount true loaded first) events) <> None ->
  reportsOnly reports ->
  spot (step true (run true (mount true loaded first) events)
          (Save coords note photo now))
  = Some (mkSpot (latitude coords) (longitude coords) (App.accuracy coords)
            note photo now) /\
  watches (step true (run true (mount true loaded first) events)
             (Save coords note photo now)) = [] /\
  watchId (step true (run true (mount true loaded first) events)
             (Save coords note photo now)) = None /\
  livePos (run true
             (step true (run true (mount true loaded first) events)
                (Save coords note photo now)) reports)
  = livePos (run true (mount true loaded first) events).
Proof.
  intros Hf O N R.
  pose proof (run_watching events _ (mount_watching loaded first Hf) O)
    as [Hn W].
  remember (run true (mount true loaded first) events) as s eqn:Es. clear Es.
  destruct (spot s) as [p|] eqn:E; [|contradiction].
  destruct W as (id & Hid & Hw & Hi & Hc).
  assert (St : step true s (Save coords note photo now)
               = mkState
                   (Some (mkSpot (latitude coords) (longitude coords)
                            (App.accuracy coords) note photo now))
                   None None [] (nextId s) (livePos s) (status s)).
  { cbn [step]. unfold saveSpot, setSpot. rewrite E. unfold runCleanup.
    cbn [cleanup spot watchId watches nextId livePos status].
    rewrite Hc, Hi, Hw. unfold Timer.truthy.
    assert (Z : (id =? 0) = false) by (apply Z.eqb_neq; lia).
    rewrite Z. cbn [negb]. unfold clearWatch. cbn [filter].
    rewrite Z.eqb_refl. reflexivity. }
  rewrite St. cbn [spot watches watchId].
  split; [reflexivity|]. split; [reflexivity|]. split; [reflexivity|].
  match goal with |- livePos (run true ?s' reports) = _ =>
    destruct (reports_unwatched reports s' R eq_refl) as [L _] end.
  exact L.
Qed.

Lemma live_watch_lost_on_replacement_witness :
  let c := mkCoords 1 2 (Some 10%Q) in
  let events := [Save c None None 1000; Report 1 (mkPosition c 1500)] in
  let reports := [Report 1 (mkPosition (mkCoords 3 4 None) 2500)] in
  0 < 1 /\
  savesOnlyWhenEmpty (present (mount true None 1)) events /\
  spot (run true (mount true None 1) events) <> None /\
  reportsOnly reports /\
  watches (step true (run true (mount true None 1) events)
             (Save c None None 2000)) = [] /\
  livePos (run true
             (step true (run true (mount true None 1) events)
                (Save c None None 2000)) reports)
  = livePos (run true (mount true None 1) events).
Proof.
  intros c events reports.
  assert (H : 0 < 1) by lia.
  assert (O : savesOnlyWhenEmpty (present (mount true None 1)) events)
    by (cbn; repeat split).
  assert (N : spot (run true (mount true None 1) events) <> None)
    by (cbn; discriminate).
  assert (R : reportsOnly reports) by (repeat constructor).
  split; [exact H|]. split; [exact O|]. split; [exact N|]. split; [exact R|].
  destruct (live_watch_lost_on_replacement None 1 events reports c None None
              2000 H O N R) as (_ & W & _ & L).
  split; [exact W | exact L].
Defined.

End LiveWatchMore.
